(** * infergo: tokenization and post-processing core

    A shallow embedding of the Go packages [ml], [postprocess] and
    [tokenizer] of joeychilson/infergo, followed by the properties of the
    specification that were checked against it.

    Conventions of the embedding.
    - [float32] and [float64] values are IEEE-754 values in the sense of
      [SpecFloat] (binary32: precision 24, emax 128; binary64: precision 53,
      emax 1024), with round-to-nearest-even arithmetic and a single NaN.
    - Go [int] is [Z]; slice lengths and indices are [nat] once they are
      known to be in range.
    - [map[K]V] is a [gmap K V]; a lookup of a missing key yields the zero
      value, written [default 0 (m !! k)].
    - A run-time panic is an explicit outcome ([Panic]), next to a normal
      return ([Return]).
    - Every floating-point operation rounds on its own; no two are fused.
    - Functions of the Go standard library whose algorithm is not part of
      the repository ([sort.Slice], [math.Exp], [strings.ToLower],
      [strings.ToUpper]) are Section variables; concrete instances are given
      for evaluation. *)

From Stdlib Require Import ZArith Reals Lra Lia.
From Stdlib Require Import Floats.SpecFloat.
From Stdlib Require Import Ascii String Permutation Sorted.
From stdpp Require Import gmap strings list fin_maps sorting pretty.

(** ** Run-time outcomes *)

Inductive panic : Type :=
  | MakesliceLenOutOfRange
  | SliceBoundsOutOfRange
  | IntegerDivideByZero.

Inductive outcome (A : Type) : Type :=
  | Return (a : A)
  | Panic (p : panic).
Arguments Return {A} a.
Arguments Panic {A} p.

#[global] Instance outcome_ret : MRet outcome := fun A a => Return a.
#[global] Instance outcome_bind : MBind outcome := fun A B k o =>
  match o with
  | Return a => k a
  | Panic p => Panic p
  end.

(** Go's [error] interface; [None] is [nil]. *)
Definition error : Type := option string.

(** ** Floating point *)

Module Float.

Definition float32 : Type := spec_float.
Definition float64 : Type := spec_float.

Definition prec32 : Z := 24.
Definition emax32 : Z := 128.
Definition prec64 : Z := 53.
Definition emax64 : Z := 1024.

Definition add32 : float32 -> float32 -> float32 := SFadd prec32 emax32.
Definition sub32 : float32 -> float32 -> float32 := SFsub prec32 emax32.
Definition mul32 : float32 -> float32 -> float32 := SFmul prec32 emax32.
Definition div32 : float32 -> float32 -> float32 := SFdiv prec32 emax32.

Definition add64 : float64 -> float64 -> float64 := SFadd prec64 emax64.
Definition sub64 : float64 -> float64 -> float64 := SFsub prec64 emax64.
Definition mul64 : float64 -> float64 -> float64 := SFmul prec64 emax64.
Definition div64 : float64 -> float64 -> float64 := SFdiv prec64 emax64.

(** [x > y], [x < y], [x == y]: false as soon as one side is NaN. *)
Definition gt (x y : spec_float) : bool := SFltb y x.
Definition lt (x y : spec_float) : bool := SFltb x y.
Definition eqf (x y : spec_float) : bool := SFeqb x y.
(** [x >= y] *)
Definition ge (x y : spec_float) : bool := SFleb y x.

Definition is_nan (x : spec_float) : bool :=
  match x with S754_nan => true | _ => false end.

Definition is_zero (x : spec_float) : bool :=
  match x with S754_zero _ => true | _ => false end.

Definition is_finite (x : spec_float) : bool :=
  match x with S754_zero _ | S754_finite _ _ _ => true | _ => false end.

(** The conversion [float64(x)] of a [float32]: exact. *)
Definition to64 (x : float32) : float64 :=
  match x with
  | S754_finite s m e => binary_round prec64 emax64 s m e
  | _ => x
  end.

(** The conversion [float32(x)] of a [float64]: rounds to nearest even. *)
Definition to32 (x : float64) : float32 :=
  match x with
  | S754_finite s m e => binary_round prec32 emax32 s m e
  | _ => x
  end.

(** The conversion [float32(n)] of an integer, and the dyadic constant
    [m * 2^e] as a [float32]. *)
Definition of_int32 (n : Z) : float32 := binary_normalize prec32 emax32 n 0 false.
Definition dyadic32 (m e : Z) : float32 := binary_normalize prec32 emax32 m e false.
Definition of_int64 (n : Z) : float64 := binary_normalize prec64 emax64 n 0 false.

Definition zero : spec_float := S754_zero false.
Definition neg_inf : spec_float := S754_infinity true.
Definition pos_inf : spec_float := S754_infinity false.
Definition nan : spec_float := S754_nan.

(** [math.Max] and [math.Min], with the special cases of their
    documentation: an infinity of the right sign wins, then NaN, then the
    sign of zero. *)
Definition Max (x y : float64) : float64 :=
  match x, y with
  | S754_infinity false, _ | _, S754_infinity false => pos_inf
  | S754_nan, _ | _, S754_nan => nan
  | S754_zero sx, S754_zero sy => if sx then y else x
  | _, _ => if gt x y then x else y
  end.

Definition Min (x y : float64) : float64 :=
  match x, y with
  | S754_infinity true, _ | _, S754_infinity true => neg_inf
  | S754_nan, _ | _, S754_nan => nan
  | S754_zero sx, S754_zero sy => if sx then x else y
  | _, _ => if lt x y then x else y
  end.

(** [math.Sqrt]: correctly rounded, NaN below zero, [Sqrt(±0) = ±0]. *)
Definition Sqrt (x : float64) : float64 := SFsqrt prec64 emax64 x.

(** [-x] *)
Definition neg (x : spec_float) : spec_float := SFopp x.

End Float.

Import Float.

(** ** Package [ml]: numeric primitives *)

Module ml.

Section WithLibrary.
(** [math.Exp] on [float64]. *)
Variable mathExp : float64 -> float64.
(** [sort.Slice]: the slice after sorting with the given [less]. *)
Variable sortSlice : forall A : Type, (A -> A -> bool) -> list A -> list A.

(** First loop of [Softmax]: the running maximum. *)
Definition maxLogit_of (logits : list float32) : float32 :=
  foldl (fun maxLogit logit => if gt logit maxLogit then logit else maxLogit)
        neg_inf logits.

(** Second loop of [Softmax]: [probs[i] = exp] and [sumExp += exp]. *)
Definition exps_of (maxLogit : float32) (logits : list float32)
  : list float32 * float32 :=
  foldl (fun '(probs, sumExp) logit =>
           let exp := to32 (mathExp (to64 (sub32 logit maxLogit))) in
           (probs ++ [exp], add32 sumExp exp))
        ([], zero) logits.

Definition Softmax (logits : list float32) : list float32 :=
  let maxLogit := maxLogit_of logits in
  let '(probs, sumExp) := exps_of maxLogit logits in
  (fun p => div32 p sumExp) <$> probs.

(** [indexed[i] = indexedValue{i, v}] *)
Definition indexedValue : Type := Z * float32.

Definition index_values (values : list float32) : list indexedValue :=
  imap (fun i v => (Z.of_nat i, v)) values.

(** The [less] of [TopK]: [indexed[i].value > indexed[j].value]. *)
Definition by_value (a b : indexedValue) : bool := gt (snd a) (snd b).

Definition TopK (values : list float32) (k : Z) : outcome (list Z) :=
  let k := if (k >? Z.of_nat (length values))%Z then Z.of_nat (length values) else k in
  let indexed := index_values values in
  let indexed := sortSlice indexedValue by_value indexed in
  if (k <? 0)%Z then Panic MakesliceLenOutOfRange
  else Return (fst <$> take (Z.to_nat k) indexed).

(** [float32(1.0 / (1.0 + math.Exp(-float64(x))))] *)
Definition Sigmoid (x : float32) : float32 :=
  to32 (div64 (of_int64 1) (add64 (of_int64 1) (mathExp (neg (to64 x))))).

End WithLibrary.

(** [[4]float32] *)
Definition box4 : Type := float32 * float32 * float32 * float32.

Definition intersectArea (a b : box4) : float64 :=
  let '(a0, a1, a2, a3) := a in
  let '(b0, b1, b2, b3) := b in
  let intersectX1 := Max (to64 a0) (to64 b0) in
  let intersectY1 := Max (to64 a1) (to64 b1) in
  let intersectX2 := Min (to64 a2) (to64 b2) in
  let intersectY2 := Min (to64 a3) (to64 b3) in
  mul64 (Max zero (sub64 intersectX2 intersectX1))
        (Max zero (sub64 intersectY2 intersectY1)).

(** [float64((a[2] - a[0]) * (a[3] - a[1]))] *)
Definition area (a : box4) : float64 :=
  let '(a0, a1, a2, a3) := a in
  to64 (mul32 (sub32 a2 a0) (sub32 a3 a1)).

Definition IoU (a b : box4) : float32 :=
  let intersectArea := intersectArea a b in
  let areaA := area a in
  let areaB := area b in
  to32 (div64 intersectArea (sub64 (add64 areaA areaB) intersectArea)).

(** First loop of [L2Normalize]: [sumSquares += v * v]. *)
Definition sumSquares_of (x : list float32) : float32 :=
  foldl (fun sumSquares v => add32 sumSquares (mul32 v v)) zero x.

Definition L2Normalize (x : list float32) : list float32 :=
  let sumSquares := sumSquares_of x in
  let norm := to32 (Sqrt (to64 sumSquares)) in
  (fun v => div32 v norm) <$> x.

End ml.

(** ** Package [postprocess]: detection decoding and suppression *)

Module postprocess.

Record Classification : Type := {
  Label : string;
  Class : Z;
  Confidence : float32
}.

Record Box : Type := {
  X1 : float32;
  Y1 : float32;
  X2 : float32;
  Y2 : float32
}.

(** [Detection] embeds [Classification]; its field [Box] is [DetBox] here. *)
Record Detection : Type := {
  DetClassification :> Classification;
  DetBox : Box
}.

Record DetectionOptions : Type := {
  Labels : gmap Z string;
  MaxDetections : Z;
  ConfThreshold : float32;
  IoUThreshold : float32
}.

(** [image.Point] *)
Record Point : Type := { X : Z; Y : Z }.

(** What a call of [NonMaxSuppression] leaves behind: the slice it returns,
    and the contents of the caller's slice (the argument shares its backing
    array with the caller) once the call is over. *)
Record nms_effect : Type := {
  result : list Detection;
  detections_after : list Detection
}.

(** [[4]float32{d.Box.X1, d.Box.Y1, d.Box.X2, d.Box.Y2}] *)
Definition box_of (d : Detection) : ml.box4 :=
  (X1 (DetBox d), Y1 (DetBox d), X2 (DetBox d), Y2 (DetBox d)).

(** Body of the inner loop of [NonMaxSuppression], at index [j]. *)
Definition suppress_step (detections : list Detection) (iouThreshold : float32)
    (i : nat) (kept : list bool) (j : nat) : list bool :=
  match (detections !! i : option Detection), (detections !! j : option Detection) with
  | Some di, Some dj =>
      if (kept !!! j) || negb (Class di =? Class dj)%Z then kept
      else if gt (ml.IoU (box_of di) (box_of dj)) iouThreshold
           then <[j := true]> kept
           else kept
  | _, _ => kept
  end.

(** Body of the outer loop of [NonMaxSuppression], at index [i]. *)
Definition sweep_step (detections : list Detection) (iouThreshold : float32)
    (st : list bool * list Detection) (i : nat) : list bool * list Detection :=
  let kept : list bool := fst st in
  let result : list Detection := snd st in
  match (detections !! i : option Detection) with
  | Some di =>
      if (kept !!! i : bool) then st
      else
        let kept := <[i := true]> kept in
        let result := result ++ [di] in
        (foldl (suppress_step detections iouThreshold i) kept
               (seq (S i) (length detections - S i)),
         result)
  | None => st
  end.

(** Body of the arg-max loop of [ProcessDetections], at class [c]. *)
Definition argmax_step (probs : list float32) (st : float32 * Z) (c : nat)
    : float32 * Z :=
  let maxProb : float32 := fst st in
  match probs !! c with
  | Some p => if gt p maxProb then (p, Z.of_nat c) else st
  | None => st
  end.

(** The [less] of [NonMaxSuppression]:
    [detections[i].Confidence > detections[j].Confidence]. *)
Definition by_confidence (di dj : Detection) : bool :=
  gt (Confidence di) (Confidence dj).

Section WithLibrary.
Variable mathExp : float64 -> float64.
Variable sortSlice : forall A : Type, (A -> A -> bool) -> list A -> list A.

Definition NonMaxSuppression (detections : list Detection)
    (iouThreshold : float32) : nms_effect :=
  if decide (length detections = 0) then
    {| result := detections; detections_after := detections |}
  else
    let detections := sortSlice Detection by_confidence detections in
    let kept := replicate (length detections) false in
    let '(_, result) :=
      foldl (sweep_step detections iouThreshold) (kept, [])
            (seq 0 (length detections)) in
    {| result := result; detections_after := detections |}.

(** One iteration of the loop of [ProcessDetections]: [None] where the
    source says [continue]. *)
Definition decode (logits boxes : list float32) (imageSize : Point)
    (opts : DetectionOptions) (numClasses : nat) (i : nat)
    : option Detection :=
  let boxLogits := take numClasses (drop (i * numClasses) logits) in
  let probs := ml.Softmax mathExp boxLogits in
  let '(maxProb, maxClass) :=
    foldl (argmax_step probs) (zero, 0%Z) (seq 0 numClasses) in
  if lt maxProb (ConfThreshold opts) then None
  else
    match Labels opts !! maxClass with
    | None => None
    | Some label =>
        match take 4 (drop (i * 4) boxes) with
        | [b0; b1; b2; b3] =>
            Some {|
              DetClassification :=
                {| Label := label; Class := maxClass; Confidence := maxProb |};
              DetBox := {|
                X1 := mul32 (sub32 b0 (div32 b2 (of_int32 2))) (of_int32 (X imageSize));
                Y1 := mul32 (sub32 b1 (div32 b3 (of_int32 2))) (of_int32 (Y imageSize));
                X2 := mul32 (add32 b0 (div32 b2 (of_int32 2))) (of_int32 (X imageSize));
                Y2 := mul32 (add32 b1 (div32 b3 (of_int32 2))) (of_int32 (Y imageSize))
              |}
            |}
        | _ => None
        end
    end.

(** The loop of [ProcessDetections]: the slice [detections] it builds. *)
Definition decode_all (logits boxes : list float32) (imageSize : Point)
    (opts : DetectionOptions) (numBoxes numClasses : nat) : list Detection :=
  foldl (fun detections i =>
           match decode logits boxes imageSize opts numClasses i with
           | Some detection => detections ++ [detection]
           | None => detections
           end)
        [] (seq 0 numBoxes).

Definition ProcessDetections (logits boxes : list float32)
    (imageSize : Point) (opts : DetectionOptions)
    : outcome (list Detection * error) :=
  let numBoxes := (length boxes / 4)%nat in
  if decide (numBoxes = 0) then Panic IntegerDivideByZero
  else
    let numClasses := (length logits / numBoxes)%nat in
    let detections := decode_all logits boxes imageSize opts numBoxes numClasses in
    Return (result (NonMaxSuppression detections (IoUThreshold opts)), None).

End WithLibrary.

(** [ClassificationOptions]; its fields keep their names inside a module of
    their own, [Labels] being a field of [DetectionOptions] already. *)
Module ClassificationOptions.
Record t : Type := {
  Labels : gmap Z string;
  TopK : Z;
  MinScore : float32;
  Softmax : bool
}.
End ClassificationOptions.

(** How a call of [ProcessClassification] can end other than by returning:
    with the panic of [TopK], or on [probabilities[idx]] with [idx] out of
    range. *)
Inductive crash : Type :=
  | RuntimePanic (p : panic)
  | IndexOutOfRange (idx : Z) (len : nat).

Inductive attempt (A : Type) : Type :=
  | Done (a : A)
  | Crash (c : crash).
Arguments Done {A} a.
Arguments Crash {A} c.

(** The loop of [ProcessClassification] over [indices]. *)
Fixpoint classify_loop (probabilities : list float32)
    (opts : ClassificationOptions.t) (indices : list Z)
    (classifications : list Classification) : attempt (list Classification) :=
  match indices with
  | [] => Done classifications
  | idx :: rest =>
      if (idx <? 0)%Z then Crash (IndexOutOfRange idx (length probabilities))
      else
        match probabilities !! Z.to_nat idx with
        | None => Crash (IndexOutOfRange idx (length probabilities))
        | Some prob =>
            if lt prob (ClassificationOptions.MinScore opts) then
              classify_loop probabilities opts rest classifications
            else
              match ClassificationOptions.Labels opts !! idx with
              | None => classify_loop probabilities opts rest classifications
              | Some label =>
                  classify_loop probabilities opts rest
                    (classifications
                       ++ [{| Label := label; Class := idx; Confidence := prob |}])
              end
        end
  end.

Section WithLibraryMore.
Variable mathExp : float64 -> float64.
Variable sortSlice : forall A : Type, (A -> A -> bool) -> list A -> list A.

(** [probabilities] of [ProcessClassification] *)
Definition probabilities_of (logits : list float32)
    (opts : ClassificationOptions.t) : list float32 :=
  if ClassificationOptions.Softmax opts then ml.Softmax mathExp logits else logits.

Definition ProcessClassification (logits : list float32)
    (opts : ClassificationOptions.t) : attempt (list Classification * error) :=
  let probabilities := probabilities_of logits opts in
  match ml.TopK sortSlice probabilities (ClassificationOptions.TopK opts) with
  | Panic p => Crash (RuntimePanic p)
  | Return indices =>
      match classify_loop probabilities opts indices [] with
      | Crash c => Crash c
      | Done classifications => Done (classifications, None)
      end
  end.

End WithLibraryMore.

End postprocess.

(** ** Package [tokenizer]: WordPiece tokenization *)

Module tokenizer.

Record Tokenizer : Type := {
  Vocab : gmap string Z;
  IDToToken : gmap Z string
}.

Record TokenizerOutput : Type := {
  InputIds : list Z;
  AttentionMask : list Z;
  Tokens : list string
}.

Record SpecialTokens : Type := {
  PAD : string;
  UNK : string;
  CLS : string;
  SEP : string;
  MASK : string
}.

Record BERTTokenizer : Type := {
  vocab : gmap string Z;
  labels : gmap Z string;
  specialTokens : SpecialTokens
}.

Definition DefaultSpecialTokens : SpecialTokens :=
  {| PAD := "[PAD]"; UNK := "[UNK]"; CLS := "[CLS]"; SEP := "[SEP]";
     MASK := "[MASK]" |}.

(** [_, ok := m[k]] *)
Definition has_key {V : Type} (m : gmap string V) (k : string) : bool :=
  bool_decide (is_Some (m !! k)).

(** [word[lo:hi]] for [lo <= hi <= len(word)]; strings are byte strings. *)
Definition slice (word : string) (lo hi : nat) : string :=
  String.substring lo (hi - lo) word.

Definition HasPrefix (s pre : string) : bool := String.prefix pre s.

Definition HasSuffix (s suf : string) : bool :=
  (String.length suf <=? String.length s)%nat &&
  String.eqb (slice s (String.length s - String.length suf) (String.length s)) suf.

(** *** The pattern [\[[^\[\]]+\]|\w+|[^\w\s]+]

    Every class of the pattern puts all bytes of a multi-byte rune on the
    same side, so matching is done byte by byte. *)

Definition byte_in (lo hi : nat) (c : ascii) : bool :=
  let n := nat_of_ascii c in (lo <=? n)%nat && (n <=? hi)%nat.

(** [\w]: [0-9A-Za-z_] *)
Definition is_word (c : ascii) : bool :=
  byte_in 48 57 c || byte_in 65 90 c || byte_in 97 122 c || byte_in 95 95 c.

(** [\s]: tab, line feed, form feed, carriage return, space *)
Definition is_space (c : ascii) : bool :=
  byte_in 9 10 c || byte_in 12 13 c || byte_in 32 32 c.

Definition is_bracket (c : ascii) : bool :=
  byte_in 91 91 c || byte_in 93 93 c.

Definition is_punct (c : ascii) : bool := negb (is_word c || is_space c).

(** The longest prefix of [s] whose bytes satisfy [p], and what follows. *)
Fixpoint span (p : ascii -> bool) (s : string) : string * string :=
  match s with
  | EmptyString => (EmptyString, EmptyString)
  | String c s' =>
      if p c then let '(tok, rest) := span p s' in (String c tok, rest)
      else (EmptyString, s)
  end.

(** A greedy run [p+] at the head of [s]. *)
Definition match_run (p : ascii -> bool) (s : string) : option (string * string) :=
  match span p s with
  | (EmptyString, _) => None
  | (tok, rest) => Some (tok, rest)
  end.

(** [\[[^\[\]]+\]] at the head of [s]: the run between the brackets cannot
    be shortened, since it is followed by the first bracket after it. *)
Definition match_bracketed (s : string) : option (string * string) :=
  match s with
  | String c s' =>
      if byte_in 91 91 c then
        match span (fun c => negb (is_bracket c)) s' with
        | (String b body, String c' rest) =>
            if byte_in 93 93 c' then
              Some (String c (String b body +:+ String c' EmptyString), rest)
            else None
        | _ => None
        end
      else None
  | EmptyString => None
  end.

(** The alternatives at one position, in the order of the pattern. *)
Definition match_here (s : string) : option (string * string) :=
  match match_bracketed s with
  | Some r => Some r
  | None =>
      match match_run is_word s with
      | Some r => Some r
      | None => match_run is_punct s
      end
  end.

(** [pattern.FindAllString(text, -1)]: successive leftmost matches. A match
    consumes at least one byte, so [String.length s] steps are enough. *)
Fixpoint FindAllString_from (fuel : nat) (s : string) : list string :=
  match fuel with
  | O => []
  | S fuel =>
      match s with
      | EmptyString => []
      | String _ s' =>
          match match_here s with
          | Some (tok, rest) => tok :: FindAllString_from fuel rest
          | None => FindAllString_from fuel s'
          end
      end
  end.

Definition FindAllString (text : string) : list string :=
  FindAllString_from (String.length text) text.

(** *** WordPiece *)

(** Inner loop of [wordPiece]: [end] runs from [start + n] down to
    [start + 1]; the result is [(subword, end)] when [found]. *)
Fixpoint find_subword (vocab : gmap string Z) (word : string) (start n : nat)
    : option (string * nat) :=
  match n with
  | O => None
  | S n' =>
      let end_ := (start + n)%nat in
      let substr := slice word start end_ in
      let substr := if (0 <? start)%nat then "##" +:+ substr else substr in
      if has_key vocab substr then Some (substr, end_)
      else find_subword vocab word start n'
  end.

(** Outer loop of [wordPiece]; [unk] is what is returned when nothing is
    found. Each round moves [start] forward, so [String.length word] rounds
    are enough. *)
Fixpoint wordPiece_loop (fuel : nat) (vocab : gmap string Z) (unk : string)
    (word : string) (start : nat) (tokens : list string) : list string :=
  match fuel with
  | O => tokens
  | S fuel =>
      let wordLen := String.length word in
      if (start <? wordLen)%nat then
        match find_subword vocab word start (wordLen - start) with
        | None => [unk]
        | Some (subword, end_) =>
            wordPiece_loop fuel vocab unk word end_ (tokens ++ [subword])
        end
      else tokens
  end.

(** [Tokenizer.wordPiece] *)
Definition wordPiece (t : Tokenizer) (word : string) : list string :=
  if has_key (Vocab t) word then [word]
  else wordPiece_loop (S (String.length word)) (Vocab t) "[UNK]" word 0 [].

(** The package-level [WordPiece] *)
Definition WordPiece (vocab : gmap string Z) (specialTokens : SpecialTokens)
    (word : string) : list string :=
  if has_key vocab word then [word]
  else wordPiece_loop (S (String.length word)) vocab (UNK specialTokens) word 0 [].

(** *** Assembly, truncation and padding, shared by both [Encode]s *)

(** The loop over [wordpieceTokens]: ids and tokens side by side. *)
Definition lookup_step (vocab : gmap string Z) (unk : string)
    (st : list Z * list string) (token : string) : list Z * list string :=
  match vocab !! token with
  | Some id => (fst st ++ [id], snd st ++ [token])
  | None => (fst st ++ [default 0%Z (vocab !! unk)], snd st ++ [unk])
  end.

(** The padding loop, run [n] times. *)
Fixpoint pad_loop (n : nat) (padId : Z) (pad : string) (out : TokenizerOutput)
    : TokenizerOutput :=
  match n with
  | O => out
  | S n =>
      pad_loop n padId pad
        {| InputIds := InputIds out ++ [padId];
           AttentionMask := AttentionMask out ++ [0%Z];
           Tokens := Tokens out ++ [pad] |}
  end.

(** [CLS], the looked-up pieces and [SEP]: the ids and tokens as they are
    before the length is fixed. *)
Definition with_specials (vocab : gmap string Z) (st : SpecialTokens)
    (wordpieceTokens : list string) : list Z * list string :=
  let inputIds := [default 0%Z (vocab !! CLS st)] in
  let finalTokens := [CLS st] in
  let '(inputIds, finalTokens) :=
    foldl (lookup_step vocab (UNK st)) (inputIds, finalTokens) wordpieceTokens in
  let inputIds := inputIds ++ [default 0%Z (vocab !! SEP st)] in
  let finalTokens := finalTokens ++ [SEP st] in
  (inputIds, finalTokens).

(** Everything from [inputIds := ...] to the [return] of [Encode]. *)
Definition assemble (vocab : gmap string Z) (st : SpecialTokens)
    (wordpieceTokens : list string) (maxLength : Z)
    : outcome (TokenizerOutput * error) :=
  let '(inputIds, finalTokens) := with_specials vocab st wordpieceTokens in
  let attentionMask := replicate (length inputIds) 1%Z in
  if (Z.of_nat (length inputIds) >? maxLength)%Z then
    if (maxLength <? 0)%Z then Panic SliceBoundsOutOfRange
    else
      Return ({| InputIds := take (Z.to_nat maxLength) inputIds;
                 AttentionMask := take (Z.to_nat maxLength) attentionMask;
                 Tokens := take (Z.to_nat maxLength) finalTokens |}, None)
  else
    Return (pad_loop (Z.to_nat maxLength - length inputIds)
                     (default 0%Z (vocab !! PAD st)) (PAD st)
                     {| InputIds := inputIds;
                        AttentionMask := attentionMask;
                        Tokens := finalTokens |}, None).

Section WithLibrary.
(** [strings.ToLower] and [strings.ToUpper] *)
Variable ToLower : string -> string.
Variable ToUpper : string -> string.

(** The first loop of [Tokenizer.Encode]. *)
Definition pieces_step (t : Tokenizer) (wordpieceTokens : list string)
    (token : string) : list string :=
  if HasPrefix token "[" && HasSuffix token "]" then wordpieceTokens ++ [token]
  else
    let token := ToLower token in
    if has_key (Vocab t) token then wordpieceTokens ++ [token]
    else wordpieceTokens ++ wordPiece t token.

Definition wordpieces (t : Tokenizer) (text : string) : list string :=
  let tokens := FindAllString text in
  foldl (pieces_step t) [] tokens.

(** [Tokenizer.Encode]; its special tokens are the literals ["[CLS]"],
    ["[UNK]"], ["[SEP]"] and ["[PAD]"], which [DefaultSpecialTokens]
    holds. *)
Definition Encode (t : Tokenizer) (text : string) (maxLength : Z)
    : outcome (TokenizerOutput * error) :=
  let wordpieceTokens := wordpieces t text in
  assemble (Vocab t) DefaultSpecialTokens wordpieceTokens maxLength.

(** A map literal with computed keys: a later entry replaces an earlier
    one with the same key. *)
Definition SpecialTokenMap (st : SpecialTokens) : gmap string string :=
  <[ToUpper (MASK st) := MASK st]>
    (<[ToUpper (SEP st) := SEP st]>
      (<[ToUpper (CLS st) := CLS st]>
        (<[ToUpper (UNK st) := UNK st]>
          (<[ToUpper (PAD st) := PAD st]> ∅)))).

Definition IsSpecialToken (st : SpecialTokens) (token : string)
    : string * bool :=
  let upperToken := ToUpper token in
  match SpecialTokenMap st !! upperToken with
  | Some canonical => (canonical, true)
  | None => (EmptyString, false)
  end.

(** The first loop of [BERTTokenizer.Encode]. *)
Definition bert_pieces_step (t : BERTTokenizer) (wordpieceTokens : list string)
    (token : string) : list string :=
  let fallthrough :=
    let token := ToLower token in
    if has_key (vocab t) token then wordpieceTokens ++ [token]
    else wordpieceTokens ++ WordPiece (vocab t) (specialTokens t) token in
  if HasPrefix token "[" && HasSuffix token "]" then
    let '(canonical, isSpecial) := IsSpecialToken (specialTokens t) token in
    if isSpecial then wordpieceTokens ++ [canonical] else fallthrough
  else fallthrough.

Definition bert_wordpieces (t : BERTTokenizer) (text : string) : list string :=
  let tokens := FindAllString text in
  foldl (bert_pieces_step t) [] tokens.

(** [BERTTokenizer.Encode] *)
Definition BERT_Encode (t : BERTTokenizer) (text : string) (maxLength : Z)
    : outcome (TokenizerOutput * error) :=
  let wordpieceTokens := bert_wordpieces t text in
  assemble (vocab t) (specialTokens t) wordpieceTokens maxLength.

End WithLibrary.

(** *** Mask positions *)

(** The loop of [MaskPosition], from index [i] on. *)
Fixpoint MaskPosition_from (mask : string) (tokens : list string) (i : Z) : Z :=
  match tokens with
  | [] => (-1)%Z
  | token :: rest =>
      if String.eqb token mask then i
      else MaskPosition_from mask rest (i + 1)%Z
  end.

(** [Tokenizer.MaskPosition] *)
Definition MaskPosition (t : Tokenizer) (tokens : list string) : Z :=
  MaskPosition_from "[MASK]" tokens 0.

(** [BERTTokenizer.MaskPosition] *)
Definition BERT_MaskPosition (t : BERTTokenizer) (tokens : list string) : Z :=
  MaskPosition_from (MASK (specialTokens t)) tokens 0.

Record MaskLogits : Type := {
  Position : Z;
  Logits : list float32
}.

(** The loop of [BERTTokenizer.MaskLogits], from position [pos] on. *)
Fixpoint maskLogits_loop (mask : string) (vocabSize : nat)
    (logits : list float32) (tokens : list string) (pos : nat)
    (maskLogits : list MaskLogits) : list MaskLogits * error :=
  match tokens with
  | [] => (maskLogits, None)
  | token :: rest =>
      if String.eqb token mask then
        let start := pos * vocabSize in
        let end_ := start + vocabSize in
        if (length logits <? end_)%nat then
          ([], Some ("logits array too short for mask at position " +:+ pretty pos))
        else
          maskLogits_loop mask vocabSize logits rest (S pos)
            (maskLogits
               ++ [{| Position := Z.of_nat pos;
                      Logits := take vocabSize (drop start logits) |}])
      else maskLogits_loop mask vocabSize logits rest (S pos) maskLogits
  end.

(** [BERTTokenizer.MaskLogits] *)
Definition BERT_MaskLogits (t : BERTTokenizer) (tokens : list string)
    (logits : list float32) : outcome (list MaskLogits * error) :=
  if decide (length tokens = 0) then Panic IntegerDivideByZero
  else if decide (length logits mod length tokens <> 0) then
    Return ([], Some ("logits length (" +:+ pretty (length logits)
                      +:+ ") is not a multiple of tokens length ("
                      +:+ pretty (length tokens) +:+ ")"))
  else
    let vocabSize := size (vocab t) in
    Return (maskLogits_loop (MASK (specialTokens t)) vocabSize logits tokens 0 []).

(** *** Construction *)

Definition requiredTokens : list string := ["[CLS]"; "[SEP]"; "[PAD]"; "[UNK]"].

(** The loop of [New] over [requiredTokens]: the first one not in the
    vocabulary. *)
Fixpoint first_missing (vocab : gmap string Z) (tokens : list string)
    : option string :=
  match tokens with
  | [] => None
  | token :: rest =>
      if has_key vocab token then first_missing vocab rest else Some token
  end.

(** [for token, id := range vocab { m[id] = token }], over the pairs in the
    order the loop meets them. *)
Definition invert (pairs : list (string * Z)) : gmap Z string :=
  foldl (fun m p => <[snd p := fst p]> m) ∅ pairs.

(** The loop of [loadVocabFromEmbed] at one line; [token] is the trimmed
    line. *)
Definition scan_step (token : string) (st : gmap string Z * Z)
    : gmap string Z * Z :=
  if String.eqb token EmptyString then st
  else (<[token := snd st]> (fst st), (snd st + 1)%Z).

Section WithEnvironment.
(** [os.ReadFile]: the contents, or the text of the error. *)
Variable ReadFile : string -> string + string.
(** [json.Unmarshal] into [config]: [config.Model.Vocab], or the text of the
    error. *)
Variable Unmarshal : string -> gmap string Z + string.
(** The order in which a [range] over the map meets its entries. *)
Variable mapRange : gmap string Z -> list (string * Z).
(** [strings.TrimSpace] *)
Variable TrimSpace : string -> string.

(** [New]: the tokenizer, if any, and the error. *)
Definition New (path : string) : option Tokenizer * error :=
  match ReadFile path with
  | inr err => (None, Some ("failed to read tokenizer config: " +:+ err))
  | inl data =>
      match Unmarshal data with
      | inr err => (None, Some ("failed to parse tokenizer config: " +:+ err))
      | inl vocab =>
          match first_missing vocab requiredTokens with
          | Some token =>
              (None, Some ("required token " +:+ token +:+ " not found in vocab"))
          | None =>
              (Some {| Vocab := vocab; IDToToken := invert (mapRange vocab) |}, None)
          end
      end
  end.

(** The scanning loop of [loadVocabFromEmbed] over the lines of the file. *)
Definition scan_lines (lines : list string) : gmap string Z * Z :=
  foldl (fun st line => scan_step (TrimSpace line) st) (∅, 0%Z) lines.

(** [loadVocabFromEmbed]. [opened] is what opening the embedded file gives:
    the lines the scanner yields, or the text of the error; [scanErr] is
    [scanner.Err()]. *)
Definition loadVocabFromEmbed (opened : list string + string) (scanErr : error)
    : option (gmap string Z) * error :=
  match opened with
  | inr err => (None, Some ("failed to open embedded vocab file: " +:+ err))
  | inl lines =>
      let vocab := fst (scan_lines lines) in
      match scanErr with
      | Some err => (None, Some ("error reading vocab file: " +:+ err))
      | None => (Some vocab, None)
      end
  end.

Definition NewBERTTokenizer (opened : list string + string) (scanErr : error)
    : option BERTTokenizer * error :=
  match loadVocabFromEmbed opened scanErr with
  | (_, Some err) => (None, Some err)
  | (vocab, None) =>
      let vocab := default ∅ vocab in
      (Some {| vocab := vocab;
               labels := invert (mapRange vocab);
               specialTokens := DefaultSpecialTokens |}, None)
  end.

End WithEnvironment.

End tokenizer.

(** ** Instances of the library functions *)

Module GoLib.

(** [sort.Slice] sorts a slice of at most 12 elements by insertion: element
    [i] moves left past every neighbour [y] with [less x y]. [rpre] is the
    part already sorted, nearest neighbour first. *)
Fixpoint sink {A : Type} (less : A -> A -> bool) (x : A) (rpre : list A)
    : list A :=
  match rpre with
  | [] => [x]
  | y :: r => if less x y then y :: sink less x r else x :: rpre
  end.

Definition insertionSort (A : Type) (less : A -> A -> bool) (l : list A)
    : list A :=
  rev (foldl (fun rpre x => sink less x rpre) [] l).

(** [strings.ToLower] and [strings.ToUpper] on ASCII text. *)
Definition lower_byte (c : ascii) : ascii :=
  if tokenizer.byte_in 65 90 c then ascii_of_nat (nat_of_ascii c + 32) else c.

Definition upper_byte (c : ascii) : ascii :=
  if tokenizer.byte_in 97 122 c then ascii_of_nat (nat_of_ascii c - 32) else c.

Fixpoint map_bytes (f : ascii -> ascii) (s : string) : string :=
  match s with
  | EmptyString => EmptyString
  | String c s' => String (f c) (map_bytes f s')
  end.

Definition asciiToLower : string -> string := map_bytes lower_byte.
Definition asciiToUpper : string -> string := map_bytes upper_byte.

(** [strings.TrimSpace] on ASCII text: the white space of both ends goes
    (tab, line feed, vertical tab, form feed, carriage return, space). *)
Definition trimmed_byte (c : ascii) : bool :=
  tokenizer.byte_in 9 13 c || tokenizer.byte_in 32 32 c.

Fixpoint trim_left (s : string) : string :=
  match s with
  | String c r => if trimmed_byte c then trim_left r else s
  | EmptyString => EmptyString
  end.

Fixpoint trim_right (s : string) : string :=
  match s with
  | String c r =>
      match trim_right r with
      | EmptyString => if trimmed_byte c then EmptyString else String c EmptyString
      | r' => String c r'
      end
  | EmptyString => EmptyString
  end.

Definition asciiTrimSpace (s : string) : string := trim_right (trim_left s).

End GoLib.

(** ** [Softmax] read over the real numbers

    The same three loops as [ml.Softmax], with exact subtraction, addition,
    division and exponential. The initial [-Inf] of the running maximum is
    [None]: every real number exceeds it. *)

Module Exact.

Definition maxLogit_of (logits : list R) : option R :=
  foldl (fun maxLogit logit =>
           match maxLogit with
           | None => Some logit
           | Some m => if Rgt_dec logit m then Some logit else Some m
           end)
        None logits.

Definition exps_of (maxLogit : R) (logits : list R) : list R * R :=
  foldl (fun '(probs, sumExp) logit =>
           let e := exp (logit - maxLogit) in
           (probs ++ [e], (sumExp + e)%R))
        ([], 0%R) logits.

Definition Softmax (logits : list R) : list R :=
  match maxLogit_of logits with
  | None => []
  | Some maxLogit =>
      let '(probs, sumExp) := exps_of maxLogit logits in
      (fun p => (p / sumExp)%R) <$> probs
  end.

(** The sum of the components of a vector. *)
Definition total (v : list R) : R := foldr Rplus 0%R v.

End Exact.

(** ** Sample data *)

Module Samples.
Import postprocess tokenizer.

Definition f32_1 : float32 := of_int32 1.
Definition mkDet (label : string) (class : Z) (conf : float32)
    (x1 y1 x2 y2 : Z) : Detection :=
  {| DetClassification := {| Label := label; Class := class; Confidence := conf |};
     DetBox := {| X1 := of_int32 x1; Y1 := of_int32 y1;
                  X2 := of_int32 x2; Y2 := of_int32 y2 |} |}.

(** Two candidate boxes with one class each, in opposite corners of a
    100 x 100 image, and options that ask for at most one detection. *)
Definition sampleLogits : list float32 := [zero; zero].

Definition sampleBoxes : list float32 :=
  [dyadic32 1 (-2); dyadic32 1 (-2); dyadic32 1 (-1); dyadic32 1 (-1);
   dyadic32 3 (-2); dyadic32 3 (-2); dyadic32 1 (-1); dyadic32 1 (-1)].

Definition sampleSize : Point := {| X := 100; Y := 100 |}.

Definition sampleOptions : DetectionOptions :=
  {| Labels := {[ 0%Z := "person" ]};
     MaxDetections := 1;
     ConfThreshold := dyadic32 1 (-1);
     IoUThreshold := dyadic32 1 (-1) |}.

Definition sampleVocab : gmap string Z :=
  list_to_map [("[PAD]", 0%Z); ("[UNK]", 1%Z); ("[CLS]", 2%Z); ("[SEP]", 3%Z);
               ("[MASK]", 4%Z); ("hello", 5%Z); ("world", 6%Z);
               ("un", 7%Z); ("##aff", 8%Z); ("##able", 9%Z); ("##a", 10%Z)].

Definition sampleTokenizer : Tokenizer :=
  {| Vocab := sampleVocab; IDToToken := ∅ |}.

Definition sampleBERT : BERTTokenizer :=
  {| vocab := sampleVocab; labels := ∅; specialTokens := DefaultSpecialTokens |}.

(** Three candidates: two overlapping ones of class 0 and one of class 1 on
    the same box as the first. *)
Definition sampleDetections : list Detection :=
  [mkDet "a" 0 (dyadic32 1 (-1)) 0 0 10 10;
   mkDet "a" 0 (dyadic32 3 (-2)) 1 1 11 11;
   mkDet "b" 1 (dyadic32 1 (-2)) 0 0 10 10].

(** Three scores, and options that keep those of at least 2. *)
Definition sampleScores : list float32 := [of_int32 1; of_int32 5; of_int32 2].

Definition sampleClassification : ClassificationOptions.t :=
  {| ClassificationOptions.Labels := {[ 0%Z := "cat"; 1%Z := "dog"; 2%Z := "bird" ]};
     ClassificationOptions.TopK := 3;
     ClassificationOptions.MinScore := of_int32 2;
     ClassificationOptions.Softmax := false |}.

(** A vocabulary file with a blank line and padded lines. *)
Definition sampleLines : list string := ["[PAD]"; ""; " hello"; "world  "].

(** A file system with one file, and a parser that knows its contents. *)
Definition sampleReadFile (path : string) : string + string :=
  if String.eqb path "tokenizer.json" then inl "{}"
  else inr "open: no such file or directory".

Definition sampleUnmarshal (data : string) : gmap string Z + string :=
  if String.eqb data "{}" then inl sampleVocab else inr "unexpected end of JSON input".

End Samples.

(** ** What [sort.Slice] promises *)

Module SortContract.

(** [less] is a strict weak ordering of the elements of [l]: irreflexive,
    transitive, and with a transitive "not less". *)
Definition strict_weak_on {A : Type} (less : A -> A -> bool) (l : list A) : Prop :=
  (forall x, x ∈ l -> less x x = false)
  /\ (forall x y z, x ∈ l -> y ∈ l -> z ∈ l ->
        less x y = true -> less y z = true -> less x z = true)
  /\ (forall x y z, x ∈ l -> y ∈ l -> z ∈ l ->
        less x y = false -> less y z = false -> less x z = false).

(** No element is [less] than one placed before it. *)
Definition ordered_by {A : Type} (less : A -> A -> bool) (l : list A) : Prop :=
  StronglySorted (fun x y => less y x = false) l.

(** The slice is rearranged, never changed otherwise; it ends up ordered
    when [less] is a strict weak ordering of its elements. *)
Record sorts (sortSlice : forall A : Type, (A -> A -> bool) -> list A -> list A)
    : Prop := {
  sorts_perm : forall A less l, sortSlice A less l ≡ₚ l;
  sorts_ordered : forall A less l,
    strict_weak_on less l -> ordered_by less (sortSlice A less l)
}.

End SortContract.

(** ** The greedy longest-match split, as the specification words it *)

Module WordPieceSpec.
Import tokenizer.

Section Greedy.
Variable vocab : gmap string Z.
Variable word : string.

(** The candidate looked up for [word[start:end_]]. *)
Definition piece (start end_ : nat) : string :=
  if (0 <? start)%nat then "##" +:+ slice word start end_
  else slice word start end_.

(** [end_] is the end of the longest vocabulary match starting at [start]. *)
Definition longest_match (start end_ : nat) : Prop :=
  (start < end_ <= String.length word)%nat
  /\ has_key vocab (piece start end_) = true
  /\ forall e, (end_ < e <= String.length word)%nat ->
               has_key vocab (piece start e) = false.

(** No substring starting at [start] is in the vocabulary. *)
Definition no_match (start : nat) : Prop :=
  forall e, (start < e <= String.length word)%nat ->
            has_key vocab (piece start e) = false.

(** The left-to-right scan from [start] consumes the word and yields
    [pieces]. *)
Inductive greedy : nat -> list string -> Prop :=
  | greedy_end start :
      (String.length word <= start)%nat -> greedy start []
  | greedy_take start end_ pieces :
      longest_match start end_ -> greedy end_ pieces ->
      greedy start (piece start end_ :: pieces).

(** The scan from [start] reaches a position where nothing matches. *)
Inductive stuck : nat -> Prop :=
  | stuck_here start :
      (start < String.length word)%nat -> no_match start -> stuck start
  | stuck_later start end_ :
      longest_match start end_ -> stuck end_ -> stuck start.
End Greedy.

(** A piece without its continuation marker. *)
Definition unmark (p : string) : string :=
  match p with
  | String _ (String _ r) => r
  | _ => EmptyString
  end.

(** The pieces of a word put back together: the first one is taken as it
    is, the later ones lose their marker. *)
Definition rejoin (pieces : list string) : string :=
  match pieces with
  | [] => EmptyString
  | p :: ps => p +:+ foldr String.append EmptyString (unmark <$> ps)
  end.

End WordPieceSpec.

(** ** The order of floating-point comparison *)

Module FloatOrder.

(** The position of a value in the order of [SFcompare]: sign class, then
    exponent, then mantissa. NaN has none. *)
Definition rank (x : spec_float) : option (Z * Z * Z) :=
  match x with
  | S754_nan => None
  | S754_infinity true => Some (-2, 0, 0)%Z
  | S754_infinity false => Some (2, 0, 0)%Z
  | S754_zero _ => Some (0, 0, 0)%Z
  | S754_finite false m e => Some (1, e, Zpos m)%Z
  | S754_finite true m e => Some (-1, - e, Zneg m)%Z
  end.

Definition lexcmp (a b : Z * Z * Z) : comparison :=
  match (a.1.1 ?= b.1.1)%Z with
  | Eq => match (a.1.2 ?= b.1.2)%Z with
          | Eq => (a.2 ?= b.2)%Z
          | c => c
          end
  | c => c
  end.

Definition lexlt (a b : Z * Z * Z) : Prop :=
  (a.1.1 < b.1.1 \/
   (a.1.1 = b.1.1 /\ (a.1.2 < b.1.2 \/ (a.1.2 = b.1.2 /\ a.2 < b.2))))%Z.

End FloatOrder.

(** ** Suppression, as the sweep of [NonMaxSuppression] decides it *)

Module NMSSpec.
Import postprocess.

(** [e] suppresses [d]: same class index, and an IoU above the threshold. *)
Definition overlaps (iouThreshold : float32) (e d : Detection) : Prop :=
  Class e = Class d
  /\ gt (ml.IoU (box_of e) (box_of d)) iouThreshold = true.

(** The detection at index [i] suppresses the later one at index [j]. *)
Definition suppresses (detections : list Detection) (iouThreshold : float32)
    (i j : nat) : Prop :=
  i < j /\ exists di dj, detections !! i = Some di /\ detections !! j = Some dj
                        /\ overlaps iouThreshold di dj.

(** The state of the sweep once the indices below [m] have been visited;
    [sel] lists the indices that were kept, in the order they were kept. *)
Definition swept (detections : list Detection) (iouThreshold : float32)
    (m : nat) (st : list bool * list Detection) (sel : list nat) : Prop :=
  length st.1 = length detections
  /\ Forall2 (fun i d => detections !! i = Some d) sel st.2
  /\ StronglySorted Nat.lt sel
  /\ Forall (fun i => i < m) sel
  /\ (forall j, j < length detections ->
        (st.1 !!! j = true
         <-> j ∈ sel \/ exists i, i ∈ sel /\ suppresses detections iouThreshold i j))
  /\ (forall j, j < m -> j < length detections -> st.1 !!! j = true)
  /\ (forall i j, i ∈ sel -> j ∈ sel -> i < j ->
        ~ suppresses detections iouThreshold i j).

End NMSSpec.

(** ** One index of [ProcessClassification] *)

Module ClassifySpec.
Import postprocess.

(** What the loop of [ProcessClassification] appends for [idx], if
    anything, once [idx] is known to be in range. *)
Definition classify_one (probabilities : list float32)
    (opts : ClassificationOptions.t) (idx : Z) : option Classification :=
  match probabilities !! Z.to_nat idx with
  | None => None
  | Some prob =>
      if lt prob (ClassificationOptions.MinScore opts) then None
      else
        match ClassificationOptions.Labels opts !! idx with
        | None => None
        | Some label => Some {| Label := label; Class := idx; Confidence := prob |}
        end
  end.

End ClassifySpec.

(** ** Text without its white space *)

Module PatternSpec.
Import tokenizer.

(** [s] without the bytes of [\s]. *)
Fixpoint non_space (s : string) : string :=
  match s with
  | EmptyString => EmptyString
  | String c s' => if is_space c then non_space s' else String c (non_space s')
  end.

(** The tokens written one after the other. *)
Definition joined (tokens : list string) : string :=
  foldr String.append EmptyString tokens.

End PatternSpec.

(** ** Positions of the mask token, tokens of a vocabulary file *)

Module VocabSpec.
Import tokenizer.

(** The positions of [tokens] that hold [mask], in increasing order. *)
Definition mask_positions (mask : string) (tokens : list string) : list nat :=
  filter (fun p => tokens !! p = Some mask) (seq 0 (length tokens)).

(** The entry of [MaskLogits] for position [p]: row [p] of [logits], read as
    rows of [vocabSize] numbers. *)
Definition mask_row (vocabSize : nat) (logits : list float32) (p : nat)
    : MaskLogits :=
  {| Position := Z.of_nat p;
     Logits := take vocabSize (drop (p * vocabSize) logits) |}.

(** The tokens of a vocabulary file: its lines, trimmed, without the blank
    ones. *)
Definition vocab_tokens (TrimSpace : string -> string) (lines : list string)
    : list string :=
  filter (fun token => token <> EmptyString) (TrimSpace <$> lines).

(** The token [Encode] emits for a piece: the piece when the vocabulary
    holds it, the unknown token otherwise. *)
Definition emitted (vocab : gmap string Z) (unk : string) (piece : string)
    : string :=
  if has_key vocab piece then piece else unk.

End VocabSpec.

(** * Facts about floating-point comparison *)

Section FloatFacts.
Import FloatOrder.

Lemma lexcmp_Lt (a b : Z * Z * Z) : lexcmp a b = Lt <-> lexlt a b.
Proof.
  unfold lexcmp, lexlt.
  destruct (Z.compare_spec a.1.1 b.1.1), (Z.compare_spec a.1.2 b.1.2),
    (Z.compare_spec a.2 b.2); split; intros Hyp; try discriminate; try reflexivity; lia.
Qed.

Lemma lexcmp_Eq (a b : Z * Z * Z) : lexcmp a b = Eq <-> a = b.
Proof.
  unfold lexcmp. destruct a as [[a1 a2] a3], b as [[b1 b2] b3]. cbn [fst snd].
  destruct (Z.compare_spec a1 b1), (Z.compare_spec a2 b2),
    (Z.compare_spec a3 b3); split; intros Hyp; try discriminate; try reflexivity;
    try (injection Hyp; intros; lia); subst; reflexivity.
Qed.

Lemma lexcmp_Gt (a b : Z * Z * Z) : lexcmp a b = Gt <-> lexlt b a.
Proof.
  unfold lexcmp, lexlt.
  destruct (Z.compare_spec a.1.1 b.1.1), (Z.compare_spec a.1.2 b.1.2),
    (Z.compare_spec a.2 b.2); split; intros Hyp; try discriminate; try reflexivity; lia.
Qed.

Lemma SFcompare_rank (x y : spec_float) :
  SFcompare x y
  = match rank x, rank y with
    | Some a, Some b => Some (lexcmp a b)
    | _, _ => None
    end.
Proof.
  destruct x as [sx|sx| |sx mx ex], y as [sy|sy| |sy my ey];
    try destruct sx; try destruct sy; try reflexivity.
  - cbn [SFcompare rank]. unfold lexcmp. cbn [fst snd].
    rewrite Z.compare_opp, (Z.compare_antisym ex ey). f_equal.
    destruct (ex ?= ey)%Z; reflexivity.
Qed.

Lemma rank_Some (x : spec_float) : is_nan x = false -> exists a, rank x = Some a.
Proof. destruct x as [s|s| |s m e]; try destruct s; simpl; eauto; discriminate. Qed.

Lemma gt_iff (x y : spec_float) :
  gt x y = true <-> exists a b, rank x = Some a /\ rank y = Some b /\ lexlt b a.
Proof.
  unfold gt, SFltb. rewrite SFcompare_rank.
  destruct (rank y) as [b|], (rank x) as [a|]; split;
    try discriminate; try (intros (a' & b' & H1 & H2 & _); discriminate).
  - destruct (lexcmp b a) eqn:Hc; try discriminate.
    intros _. exists a, b. repeat split. by apply lexcmp_Lt.
  - intros (a' & b' & [= <-] & [= <-] & Hlt).
    apply lexcmp_Lt in Hlt. by rewrite Hlt.
Qed.

Lemma ge_iff (x y : spec_float) :
  ge x y = true <-> exists a b, rank x = Some a /\ rank y = Some b /\ ~ lexlt a b.
Proof.
  unfold ge, SFleb. rewrite SFcompare_rank.
  destruct (rank y) as [b|], (rank x) as [a|]; split;
    try discriminate; try (intros (a' & b' & H1 & H2 & _); discriminate).
  - destruct (lexcmp b a) eqn:Hc; try discriminate; intros _; exists a, b;
      repeat split.
    + apply lexcmp_Eq in Hc. subst. unfold lexlt. lia.
    + apply lexcmp_Lt in Hc. unfold lexlt in *. lia.
  - intros (a' & b' & [= <-] & [= <-] & Hlt).
    destruct (lexcmp b a) eqn:Hc; try reflexivity.
    apply lexcmp_Gt in Hc. contradiction.
Qed.

Lemma gt_irrefl (x : spec_float) : gt x x = false.
Proof.
  destruct (gt x x) eqn:H; [|reflexivity].
  apply gt_iff in H as (a & b & Ha & Hb & Hlt).
  rewrite Ha in Hb. injection Hb as <-. unfold lexlt in Hlt. lia.
Qed.

Lemma gt_trans (x y z : spec_float) :
  gt x y = true -> gt y z = true -> gt x z = true.
Proof.
  rewrite !gt_iff.
  intros (a & b & Ha & Hb & H1) (b' & c & Hb' & Hc & H2).
  rewrite Hb in Hb'. injection Hb' as <-.
  exists a, c. repeat split; auto. unfold lexlt in *. lia.
Qed.

Lemma gt_negtrans (x y z : spec_float) :
  is_nan x = false -> is_nan y = false -> is_nan z = false ->
  gt x y = false -> gt y z = false -> gt x z = false.
Proof.
  intros Hx Hy Hz H1 H2.
  destruct (rank_Some x Hx) as [a Ha], (rank_Some y Hy) as [b Hb],
    (rank_Some z Hz) as [c Hc].
  destruct (gt x z) eqn:H3; [|reflexivity].
  apply gt_iff in H3 as (a' & c' & Ha' & Hc' & Hlt).
  rewrite Ha in Ha'. rewrite Hc in Hc'. injection Ha' as <-. injection Hc' as <-.
  assert (Hxy : ~ lexlt b a).
  { intros H. assert (gt x y = true) by (apply gt_iff; eauto 6). congruence. }
  assert (Hyz : ~ lexlt c b).
  { intros H. assert (gt y z = true) by (apply gt_iff; eauto 6). congruence. }
  unfold lexlt in *. lia.
Qed.

Lemma not_gt_ge (x y : spec_float) :
  is_nan x = false -> is_nan y = false -> gt y x = false -> ge x y = true.
Proof.
  intros Hx Hy H.
  destruct (rank_Some x Hx) as [a Ha], (rank_Some y Hy) as [b Hb].
  apply ge_iff. exists a, b. repeat split; auto.
  intros Hlt. assert (gt y x = true) by (apply gt_iff; eauto 6). congruence.
Qed.

End FloatFacts.

(** * [IoU] *)

Section IoUFacts.
Import FloatOrder.

Lemma gt_asym (x y : spec_float) : gt x y = true -> gt y x = false.
Proof.
  intros H. destruct (gt y x) eqn:H'; [|reflexivity].
  rewrite <- (gt_irrefl x). symmetry. by apply (gt_trans x y x).
Qed.

Lemma rank_inj (x y : spec_float) (a : Z * Z * Z) :
  rank x = Some a -> rank y = Some a ->
  x = y \/ (is_zero x = true /\ is_zero y = true).
Proof.
  destruct x as [sx|sx| |sx mx ex], y as [sy|sy| |sy my ey];
    try destruct sx; try destruct sy; cbn [rank];
    intros [= <-] Hy; try discriminate Hy; auto.
  all: injection Hy as H1 H2; left; f_equal; lia.
Qed.

Lemma not_gt_eq (x y : spec_float) :
  is_nan x = false -> is_nan y = false ->
  gt x y = false -> gt y x = false ->
  x = y \/ (is_zero x = true /\ is_zero y = true).
Proof.
  intros Hx Hy H1 H2.
  destruct (rank_Some x Hx) as [a Ha], (rank_Some y Hy) as [b Hb].
  assert (Hab : ~ lexlt b a).
  { intros H. assert (gt x y = true) by (apply gt_iff; eauto 6). congruence. }
  assert (Hba : ~ lexlt a b).
  { intros H. assert (gt y x = true) by (apply gt_iff; eauto 6). congruence. }
  assert (a = b) as <-.
  { destruct a as [[a1 a2] a3], b as [[b1 b2] b3]. unfold lexlt in *.
    cbn [fst snd] in *. f_equal; [f_equal|]; lia. }
  eapply rank_inj; eauto.
Qed.

Lemma pick_comm (x y : spec_float) :
  is_nan x = false -> is_nan y = false ->
  (is_zero x = true -> is_zero y = true -> False) ->
  (if gt x y then x else y) = (if gt y x then y else x).
Proof.
  intros Hx Hy Hz.
  destruct (gt x y) eqn:H1.
  - by rewrite (gt_asym _ _ H1).
  - destruct (gt y x) eqn:H2; [reflexivity|].
    destruct (not_gt_eq x y Hx Hy H1 H2) as [->|[? ?]]; [reflexivity | tauto].
Qed.

Lemma pick_min_comm (x y : spec_float) :
  is_nan x = false -> is_nan y = false ->
  (is_zero x = true -> is_zero y = true -> False) ->
  (if lt x y then x else y) = (if lt y x then y else x).
Proof.
  intros Hx Hy Hz. change (lt x y) with (gt y x). change (lt y x) with (gt x y).
  destruct (gt y x) eqn:H1.
  - by rewrite (gt_asym _ _ H1).
  - destruct (gt x y) eqn:H2; [reflexivity|].
    destruct (not_gt_eq x y Hx Hy H2 H1) as [->|[? ?]]; [reflexivity | tauto].
Qed.

Lemma Max_comm (x y : float64) : Max x y = Max y x.
Proof.
  destruct x as [sx|sx| |sx mx ex] eqn:Ex, y as [sy|sy| |sy my ey] eqn:Ey;
    try destruct sx; try destruct sy; try reflexivity;
    cbn [Max]; apply pick_comm; try reflexivity; cbn [is_zero]; discriminate.
Qed.

Lemma Min_comm (x y : float64) : Min x y = Min y x.
Proof.
  destruct x as [sx|sx| |sx mx ex] eqn:Ex, y as [sy|sy| |sy my ey] eqn:Ey;
    try destruct sx; try destruct sy; try reflexivity;
    cbn [Min]; apply pick_min_comm; try reflexivity; cbn [is_zero]; discriminate.
Qed.

Lemma add64_comm (x y : float64) : add64 x y = add64 y x.
Proof.
  unfold add64.
  destruct x as [sx|sx| |sx mx ex], y as [sy|sy| |sy my ey];
    try destruct sx; try destruct sy; try reflexivity.
  all: cbn [SFadd]; rewrite (Z.min_comm ey ex); f_equal; apply Z.add_comm.
Qed.

Lemma intersectArea_comm (a b : ml.box4) : ml.intersectArea a b = ml.intersectArea b a.
Proof.
  destruct a as [[[a0 a1] a2] a3], b as [[[b0 b1] b2] b3].
  unfold ml.intersectArea.
  by rewrite (Max_comm (to64 a0)), (Max_comm (to64 a1)),
    (Min_comm (to64 a2)), (Min_comm (to64 a3)).
Qed.

Lemma IoU_comm (a b : ml.box4) : ml.IoU a b = ml.IoU b a.
Proof.
  unfold ml.IoU.
  by rewrite (intersectArea_comm a b), (add64_comm (ml.area a)).
Qed.

(** C8, amended. When both boxes have zero area and their intersection has
    zero area too, the quotient of [IoU] is zero over zero and the result is
    NaN: no guard gives the case a finite value. *)
Theorem IoU_zero_area_is_NaN (a b : ml.box4) :
  is_zero (ml.area a) = true ->
  is_zero (ml.area b) = true ->
  is_zero (ml.intersectArea a b) = true ->
  ml.IoU a b = nan.
Proof.
  unfold ml.IoU. intros Ha Hb Hi.
  destruct (ml.area a) as [sa| | |]; try discriminate.
  destruct (ml.area b) as [sb| | |]; try discriminate.
  destruct (ml.intersectArea a b) as [si| | |]; try discriminate.
  destruct sa, sb, si; reflexivity.
Qed.
End IoUFacts.

(** * [sort.Slice] by insertion, and [TopK] *)

Section InsertionSort.
Import GoLib SortContract.
Context {A : Type} (less : A -> A -> bool).

Lemma sink_perm (x : A) (rpre : list A) : sink less x rpre ≡ₚ x :: rpre.
Proof.
  induction rpre as [|y r IH]; cbn [sink]; [reflexivity|].
  destruct (less x y); [|reflexivity].
  rewrite IH. apply Permutation_swap.
Qed.

Lemma insertion_fold_perm (l acc : list A) :
  foldl (fun rpre x => sink less x rpre) acc l ≡ₚ l ++ acc.
Proof.
  revert acc. induction l as [|x l IH]; intros acc; cbn [foldl]; [reflexivity|].
  rewrite IH, sink_perm. symmetry. apply Permutation_middle.
Qed.

Lemma insertionSort_perm (l : list A) : insertionSort A less l ≡ₚ l.
Proof.
  unfold insertionSort. rewrite <- Permutation_rev, insertion_fold_perm.
  by rewrite app_nil_r.
Qed.

Lemma sink_sorted (l : list A) (x : A) (rpre : list A) :
  strict_weak_on less l -> x ∈ l -> (forall y, y ∈ rpre -> y ∈ l) ->
  StronglySorted (fun a b => less a b = false) rpre ->
  StronglySorted (fun a b => less a b = false) (sink less x rpre).
Proof.
  intros (Hirr & Htr & Hneg) Hx.
  induction rpre as [|y r IH]; intros Hin Hs; cbn [sink].
  - repeat constructor.
  - apply StronglySorted_cons in Hs as [Hy Hs].
    assert (Hyl : y ∈ l) by (apply Hin; left).
    assert (Hrl : forall z, z ∈ r -> z ∈ l) by (intros z Hz; apply Hin; by right).
    destruct (less x y) eqn:Hxy.
    + apply StronglySorted_cons. split; [|by apply IH].
      apply Forall_forall. intros z Hz.
      apply (elem_of_Permutation_proper z _ _ (sink_perm x r)) in Hz.
      apply elem_of_cons in Hz as [->|Hz].
      * destruct (less y x) eqn:Hyx; [|reflexivity].
        rewrite <- (Hirr x Hx). symmetry. by apply (Htr x y x).
      * rewrite Forall_forall in Hy. by apply Hy.
    + apply StronglySorted_cons. split.
      * apply Forall_cons. split; [exact Hxy|].
        apply Forall_forall. intros z Hz. rewrite Forall_forall in Hy.
        apply (Hneg x y z); auto.
      * apply StronglySorted_cons. by split.
Qed.

Lemma insertion_fold_sorted (l pre acc : list A) :
  strict_weak_on less l -> (forall y, y ∈ pre -> y ∈ l) -> (forall y, y ∈ acc -> y ∈ l) ->
  StronglySorted (fun a b => less a b = false) acc ->
  StronglySorted (fun a b => less a b = false)
    (foldl (fun rpre x => sink less x rpre) acc pre).
Proof.
  intros Hsw. revert acc.
  induction pre as [|x pre IH]; intros acc Hpre Hacc Hs; cbn [foldl]; [exact Hs|].
  apply IH.
  - intros y Hy. apply Hpre. by right.
  - intros y Hy.
    apply (elem_of_Permutation_proper y _ _ (sink_perm x acc)) in Hy.
    apply elem_of_cons in Hy as [->|Hy]; [apply Hpre; left | by apply Hacc].
  - apply (sink_sorted l); auto. apply Hpre. left.
Qed.

Lemma StronglySorted_rev (R : A -> A -> Prop) (r : list A) :
  StronglySorted R r -> StronglySorted (fun x y => R y x) (rev r).
Proof.
  induction 1 as [|a r Hs IH Hall]; cbn [rev]; [constructor|].
  apply StronglySorted_app. repeat split.
  - intros x1 x2 Hx1 Hx2. apply list_elem_of_singleton in Hx2 as ->.
    rewrite Forall_forall in Hall. apply Hall.
    apply list_elem_of_In, in_rev, list_elem_of_In in Hx1. exact Hx1.
  - exact IH.
  - repeat constructor.
Qed.

Lemma insertionSort_ordered (l : list A) :
  strict_weak_on less l -> ordered_by less (insertionSort A less l).
Proof.
  intros Hsw. unfold ordered_by, insertionSort.
  apply (StronglySorted_rev (fun a b => less a b = false)).
  apply (insertion_fold_sorted l); auto.
  - intros y Hy. by apply elem_of_nil in Hy.
  - constructor.
Qed.
End InsertionSort.

Lemma insertionSort_sorts : SortContract.sorts GoLib.insertionSort.
Proof.
  split.
  - intros A less l. apply insertionSort_perm.
  - intros A less l. apply insertionSort_ordered.
Qed.

Section TopKProofs.
Import SortContract.
Context (sortSlice : forall A : Type, (A -> A -> bool) -> list A -> list A).

Lemma elem_of_index_values (values : list float32) (iv : ml.indexedValue) :
  iv ∈ ml.index_values values ->
  (0 <= iv.1 < Z.of_nat (length values))%Z /\ values !! Z.to_nat iv.1 = Some iv.2.
Proof.
  unfold ml.index_values. intros Hin.
  apply list_elem_of_lookup in Hin as [i Hi].
  rewrite list_lookup_imap in Hi.
  destruct (values !! i) as [v|] eqn:Hv; [|discriminate].
  injection Hi as <-. cbn [fst snd].
  apply lookup_lt_Some in Hv as Hlt.
  rewrite Nat2Z.id. split; [lia | exact Hv].
Qed.

Lemma by_value_strict_weak (values : list float32) :
  Forall (fun v => is_nan v = false) values ->
  strict_weak_on ml.by_value (ml.index_values values).
Proof.
  intros Hnn.
  assert (Hok : forall iv, iv ∈ ml.index_values values -> is_nan iv.2 = false).
  { intros iv Hin. apply elem_of_index_values in Hin as [_ Hv].
    rewrite Forall_forall in Hnn. apply Hnn.
    apply list_elem_of_lookup. eauto. }
  unfold ml.by_value. split; [|split].
  - intros x _. apply gt_irrefl.
  - intros x y z _ _ _. apply gt_trans.
  - intros x y z Hx Hy Hz. apply gt_negtrans; auto.
Qed.

(** C7, amended. When no value is NaN and [k] is not negative, [TopK]
    returns [min(k, len(values))] indices, each within [values], and the
    values they point at never increase along the result. *)
Theorem TopK_indices_sorted (values : list float32) (k : Z) :
  sorts sortSlice ->
  (0 <= k)%Z ->
  Forall (fun v => is_nan v = false) values ->
  exists indices : list Z,
    ml.TopK sortSlice values k = Return indices
    /\ Z.of_nat (length indices) = Z.min k (Z.of_nat (length values))
    /\ (forall i, i ∈ indices -> (0 <= i < Z.of_nat (length values))%Z)
    /\ (forall p q ip iq, p < q -> indices !! p = Some ip -> indices !! q = Some iq ->
          exists vp vq, values !! Z.to_nat ip = Some vp
                        /\ values !! Z.to_nat iq = Some vq
                        /\ ge vp vq = true).
Proof.
  intros [Hperm Hord] Hk Hnn. unfold ml.TopK.
  set (k' := if (k >? Z.of_nat (length values))%Z then Z.of_nat (length values) else k).
  set (sorted := sortSlice ml.indexedValue _ (ml.index_values values)).
  assert (Hk' : k' = Z.min k (Z.of_nat (length values))).
  { subst k'. destruct (Z.gtb_spec k (Z.of_nat (length values))); lia. }
  assert (Hneg : (k' <? 0)%Z = false) by (apply Z.ltb_ge; lia).
  rewrite Hneg. eexists. split; [reflexivity|].
  assert (Hp : sorted ≡ₚ ml.index_values values) by apply Hperm.
  assert (Hlen : length sorted = length values).
  { rewrite Hp. unfold ml.index_values. apply length_imap. }
  assert (Hin : forall iv, iv ∈ sorted ->
            (0 <= iv.1 < Z.of_nat (length values))%Z
            /\ values !! Z.to_nat iv.1 = Some iv.2
            /\ is_nan iv.2 = false).
  { intros iv Hiv. rewrite Hp in Hiv.
    apply elem_of_index_values in Hiv as [Hr Hv].
    split; [exact Hr | split; [exact Hv|]].
    rewrite Forall_forall in Hnn. apply Hnn. apply list_elem_of_lookup. eauto. }
  assert (Hs : StronglySorted (fun x y => ml.by_value y x = false) sorted).
  { apply (Hord _ ml.by_value). by apply by_value_strict_weak. }
  clearbody k' sorted.
  split; [|split].
  - rewrite length_fmap, length_take. unfold ml.indexedValue in *. lia.
  - intros i Hi. apply list_elem_of_fmap in Hi as (iv & -> & Hiv).
    apply elem_of_take in Hiv as (j & Hj & _).
    apply Hin. apply list_elem_of_lookup. eauto.
  - intros p q ip iq Hpq Hip Hiq.
    apply list_lookup_fmap_Some in Hip as (x & -> & Hx).
    apply list_lookup_fmap_Some in Hiq as (y & -> & Hy).
    apply lookup_take_Some in Hx as [Hx _]. apply lookup_take_Some in Hy as [Hy _].
    destruct (Hin x) as (_ & Hvx & Hnx); [apply list_elem_of_lookup; eauto|].
    destruct (Hin y) as (_ & Hvy & Hny); [apply list_elem_of_lookup; eauto|].
    exists x.2, y.2. repeat split; auto.
    apply not_gt_ge; auto.
    assert (Hxy : ml.by_value y x = false); [|exact Hxy].
    clear -Hs Hx Hy Hpq. revert p q Hx Hy Hpq.
    induction Hs as [|a r Hs IH Hall]; intros p q Hx Hy Hpq; [by destruct p|].
    destruct p as [|p], q as [|q]; try lia; cbn in Hx, Hy.
    + injection Hx as <-. rewrite Forall_forall in Hall. apply Hall.
      apply list_elem_of_lookup. eauto.
    + apply (IH p q); auto. lia.
Qed.
End TopKProofs.

(** * [NonMaxSuppression] *)

Section Sweep.
Import postprocess NMSSpec.
Context (detections : list Detection) (iouThreshold : float32).
Local Abbreviation n := (length detections).

(** One step of the inner loop touches index [j] only, and marks it exactly
    when [i] suppresses it. *)
Lemma suppress_step_spec (i j : nat) (kept : list bool) :
  length kept = n -> i < j < n ->
  length (suppress_step detections iouThreshold i kept j) = n
  /\ forall k, k < n ->
       (suppress_step detections iouThreshold i kept j !!! k = true
        <-> kept !!! k = true \/ (k = j /\ suppresses detections iouThreshold i j)).
Proof.
  intros Hlen [Hij Hj]. unfold suppress_step.
  destruct (lookup_lt_is_Some_2 detections i ltac:(lia)) as [di Hdi].
  destruct (lookup_lt_is_Some_2 detections j Hj) as [dj Hdj].
  rewrite Hdi, Hdj.
  assert (Hsup : suppresses detections iouThreshold i j
                 <-> Class di = Class dj
                     /\ gt (ml.IoU (box_of di) (box_of dj)) iouThreshold = true).
  { unfold suppresses, overlaps. split.
    - intros (_ & di' & dj' & H1 & H2 & H3). congruence.
    - intros H. split; [lia|]. eauto. }
  destruct (kept !!! j) eqn:Hkj; cbn [orb].
  { split; [exact Hlen|]. intros k Hk. split; [auto|].
    intros [H|[-> _]]; [exact H | exact Hkj]. }
  destruct (Z.eqb_spec (Class di) (Class dj)) as [Hc|Hc]; cbn [negb].
  2:{ split; [exact Hlen|]. intros k Hk. split; [auto|].
      intros [H|[_ H]]; [exact H|]. apply Hsup in H. tauto. }
  destruct (gt (ml.IoU (box_of di) (box_of dj)) iouThreshold) eqn:Hgt.
  - split; [by rewrite length_insert|]. intros k Hk.
    rewrite list_lookup_total_insert. case_decide as Hd.
    + destruct Hd as [<- _]. split; [|reflexivity].
      intros _. right. split; [reflexivity|]. by apply Hsup.
    + split; [auto|]. intros [H|[-> _]]; [exact H|]. lia.
  - split; [exact Hlen|]. intros k Hk. split; [auto|].
    intros [H|[_ H]]; [exact H|]. apply Hsup in H as [_ H]. congruence.
Qed.

Lemma suppress_loop_spec (i cnt a : nat) (kept : list bool) :
  length kept = n -> i < a -> a + cnt <= n ->
  length (foldl (suppress_step detections iouThreshold i) kept (seq a cnt)) = n
  /\ forall k, k < n ->
       (foldl (suppress_step detections iouThreshold i) kept (seq a cnt) !!! k = true
        <-> kept !!! k = true
            \/ (a <= k < a + cnt /\ suppresses detections iouThreshold i k)).
Proof.
  revert a kept. induction cnt as [|cnt IH]; intros a kept Hlen Hia Hle.
  - cbn [seq foldl]. split; [exact Hlen|]. intros k Hk. split; [auto|].
    intros [H|[H _]]; [exact H | lia].
  - cbn [seq foldl].
    destruct (suppress_step_spec i a kept Hlen ltac:(lia)) as [Hlen1 H1].
    destruct (IH (S a) _ Hlen1 ltac:(lia) ltac:(lia)) as [Hlen2 H2].
    split; [exact Hlen2|]. intros k Hk.
    rewrite (H2 k Hk), (H1 k Hk). split.
    + intros [[H|[-> H]]|[Hr H]]; [by left| |]; right; (split; [lia | exact H]).
    + intros [H|[Hr H]]; [left; by left|].
      destruct (decide (k = a)) as [->|Hne]; [left; right; by split|].
      right. split; [lia | exact H].
Qed.

Lemma sweep_step_swept (m : nat) (st : list bool * list Detection) (sel : list nat) :
  m < n -> swept detections iouThreshold m st sel ->
  exists sel', swept detections iouThreshold (S m) (sweep_step detections iouThreshold st m) sel'.
Proof.
  intros Hm (Hlen & Hres & Hsorted & Hbelow & Hkept & Hdone & Hpair).
  unfold sweep_step.
  destruct (lookup_lt_is_Some_2 detections m Hm) as [dm Hdm]. rewrite Hdm.
  destruct (st.1 !!! m) eqn:Hkm.
  - exists sel. repeat split; auto.
    + eapply Forall_impl; [exact Hbelow|]. cbv beta. lia.
    + apply Hkept; auto.
    + apply Hkept; auto.
    + intros j Hj Hjn. destruct (decide (j = m)) as [->|Hne]; [exact Hkm|].
      apply Hdone; lia.
  - assert (Hfresh : (m ∉ sel)
                     /\ ~ exists i, i ∈ sel /\ suppresses detections iouThreshold i m).
    { split; intros H; assert (st.1 !!! m = true) by (apply Hkept; auto);
        congruence. }
    destruct Hfresh as [Hnotin Hnosup].
    assert (Hlen0 : length (<[m:=true]> st.1) = n) by (by rewrite length_insert).
    destruct (suppress_loop_spec m (n - S m) (S m) _ Hlen0 ltac:(lia) ltac:(lia))
      as [Hlen' Hk'].
    exists (sel ++ [m]). cbn [fst snd].
    assert (Hk0 : forall k, k < n ->
              (<[m:=true]> st.1 !!! k = true <-> k = m \/ st.1 !!! k = true)).
    { intros k Hk. rewrite list_lookup_total_insert. case_decide as Hd.
      - destruct Hd as [<- _]. tauto.
      - split; [auto|]. intros [->|H]; [lia | exact H]. }
    split; [exact Hlen'|]. split; [|split; [|split; [|split; [|split]]]].
    + apply Forall2_app; [exact Hres|]. by repeat constructor.
    + apply StronglySorted_app. split; [|split]; [| exact Hsorted | repeat constructor].
      intros x1 x2 Hx1 Hx2. apply list_elem_of_singleton in Hx2 as ->.
      rewrite Forall_forall in Hbelow. by apply Hbelow.
    + apply Forall_app. split.
      * eapply Forall_impl; [exact Hbelow|]. cbv beta. lia.
      * repeat constructor.
    + intros j Hj. rewrite (Hk' j Hj), (Hk0 j Hj), (Hkept j Hj). split.
      * intros [[->|[H|(i & Hi & H)]]|[_ H]].
        -- left. apply elem_of_app. right. by apply list_elem_of_singleton.
        -- left. apply elem_of_app. by left.
        -- right. exists i. split; [apply elem_of_app; by left | exact H].
        -- right. exists m. split; [|exact H].
           apply elem_of_app. right. by apply list_elem_of_singleton.
      * intros [H|(i & Hi & H)].
        -- apply elem_of_app in H as [H|H].
           ++ left. right. by left.
           ++ apply list_elem_of_singleton in H as ->. left. by left.
        -- apply elem_of_app in Hi as [Hi|Hi].
           ++ left. right. right. eauto.
           ++ apply list_elem_of_singleton in Hi as ->. right.
              split; [|exact H]. pose proof H as [Hlt _]. lia.
    + intros j Hj Hjn. apply (Hk' j Hjn). left. apply (Hk0 j Hjn).
      destruct (decide (j = m)) as [->|Hne]; [by left|].
      right. apply Hdone; lia.
    + intros i j Hi Hj Hij.
      apply elem_of_app in Hi as [Hi|Hi]; apply elem_of_app in Hj as [Hj|Hj].
      * by apply Hpair.
      * apply list_elem_of_singleton in Hj as ->. intros H. apply Hnosup. eauto.
      * apply list_elem_of_singleton in Hi as ->.
        rewrite Forall_forall in Hbelow. specialize (Hbelow j Hj). lia.
      * apply list_elem_of_singleton in Hi as ->.
        apply list_elem_of_singleton in Hj as ->. lia.
Qed.

Lemma sweep_loop_swept (cnt m : nat) (st : list bool * list Detection) (sel : list nat) :
  m + cnt <= n -> swept detections iouThreshold m st sel ->
  exists sel', swept detections iouThreshold (m + cnt)
                 (foldl (sweep_step detections iouThreshold) st (seq m cnt)) sel'.
Proof.
  revert m st sel. induction cnt as [|cnt IH]; intros m st sel Hle Hinv.
  - rewrite Nat.add_0_r. cbn [seq foldl]. eauto.
  - cbn [seq foldl].
    destruct (sweep_step_swept m st sel ltac:(lia) Hinv) as [sel1 H1].
    replace (m + S cnt) with (S m + cnt) by lia.
    eapply IH; [lia | exact H1].
Qed.

Lemma sweep_start : swept detections iouThreshold 0 (replicate n false, []) [].
Proof.
  unfold swept. cbn [fst snd].
  split; [apply length_replicate|].
  split; [constructor|]. split; [constructor|]. split; [constructor|].
  split; [|split].
  - intros j Hj. rewrite lookup_total_replicate_2 by exact Hj. split; [discriminate|].
    intros [Hin|(i & Hin & _)]; by apply elem_of_nil in Hin.
  - intros j Hj. lia.
  - intros i j Hin. by apply elem_of_nil in Hin.
Qed.

Lemma sweep_result :
  exists sel, swept detections iouThreshold n
    (foldl (sweep_step detections iouThreshold) (replicate n false, []) (seq 0 n)) sel.
Proof.
  apply (sweep_loop_swept n 0 _ [] ltac:(lia) sweep_start).
Qed.
End Sweep.

Section NonMaxSuppressionProofs.
Import postprocess NMSSpec SortContract.
Context (sortSlice : forall A : Type, (A -> A -> bool) -> list A -> list A).

Lemma StronglySorted_lt_lookup (sel : list nat) (p q ip iq : nat) :
  StronglySorted Nat.lt sel -> p < q ->
  sel !! p = Some ip -> sel !! q = Some iq -> ip < iq.
Proof.
  intros Hs. revert p q.
  induction Hs as [|a r Hs IH Hall]; intros p q Hpq Hp Hq; [by destruct p|].
  destruct p as [|p], q as [|q]; try lia; cbn in Hp, Hq.
  - injection Hp as <-. rewrite Forall_forall in Hall. apply Hall.
    by apply list_elem_of_lookup_2 in Hq.
  - apply (IH p q); auto. lia.
Qed.

(** The sweep over an already sorted slice. *)
Lemma sweep_class_aware (sorted : list Detection) (iouThreshold : float32) :
  let kept :=
    (foldl (sweep_step sorted iouThreshold) (replicate (length sorted) false, [])
           (seq 0 (length sorted))).2 in
  (forall p q dp dq, p < q -> kept !! p = Some dp -> kept !! q = Some dq ->
     ~ overlaps iouThreshold dp dq)
  /\ (forall d, d ∈ kept -> d ∈ sorted)
  /\ (forall d, d ∈ sorted ->
        d ∈ kept \/ exists e, e ∈ kept /\ overlaps iouThreshold e d).
Proof.
  destruct (sweep_result sorted iouThreshold)
    as (sel & Hlen & Hres & Hsorted & Hbelow & Hkept & Hdone & Hpair).
  cbv zeta. set (st := foldl _ _ _) in *. clearbody st.
  assert (Hin : forall i d, i ∈ sel -> sorted !! i = Some d -> d ∈ st.2).
  { intros i d Hi Hd. apply list_elem_of_lookup in Hi as [p Hp].
    destruct (Forall2_lookup_l _ _ _ _ _ Hres Hp) as (d' & Hd' & Hlk).
    rewrite Hd in Hlk. injection Hlk as <-. by apply list_elem_of_lookup_2 in Hd'. }
  split; [|split].
  - intros p q dp dq Hpq Hp Hq Hov.
    destruct (Forall2_lookup_r _ _ _ _ _ Hres Hp) as (ip & Hip & Hdp).
    destruct (Forall2_lookup_r _ _ _ _ _ Hres Hq) as (iq & Hiq & Hdq).
    assert (Hlt : ip < iq) by (eapply StronglySorted_lt_lookup; eauto).
    apply (Hpair ip iq).
    + by apply list_elem_of_lookup_2 in Hip.
    + by apply list_elem_of_lookup_2 in Hiq.
    + exact Hlt.
    + split; [exact Hlt|]. eauto.
  - intros d Hd. apply list_elem_of_lookup in Hd as [p Hp].
    destruct (Forall2_lookup_r _ _ _ _ _ Hres Hp) as (ip & _ & Hdp).
    by apply list_elem_of_lookup_2 in Hdp.
  - intros d Hd. apply list_elem_of_lookup in Hd as [j Hj].
    apply lookup_lt_Some in Hj as Hjn.
    assert (Hk : st.1 !!! j = true) by (apply Hdone; lia).
    destruct (proj1 (Hkept j Hjn) Hk)
      as [Hsel|(i & Hi & _ & di & dj & Hdi & Hdj & Hov)].
    + left. eapply Hin; eauto.
    + right. exists di. rewrite Hj in Hdj. injection Hdj as <-.
      split; [eapply Hin; eauto | exact Hov].
Qed.

(** C1. In the slice [NonMaxSuppression] returns, two detections at distinct
    positions with the same class index never have an IoU above the
    threshold; a detection of the input is missing from it only if a
    returned detection of its own class overlaps it above the threshold; so
    a detection that is alone in its class is always returned, whatever it
    overlaps. *)
Theorem NonMaxSuppression_class_aware (detections : list Detection)
    (iouThreshold : float32) :
  (forall less l, sortSlice Detection less l ≡ₚ l) ->
  let kept := result (NonMaxSuppression sortSlice detections iouThreshold) in
  (forall (p q : nat) (dp dq : Detection),
     p <> q -> kept !! p = Some dp -> kept !! q = Some dq ->
     Class dp = Class dq ->
     gt (ml.IoU (box_of dp) (box_of dq)) iouThreshold = false)
  /\ (forall d : Detection, d ∈ detections ->
        d ∈ kept \/ exists e : Detection, e ∈ kept /\ overlaps iouThreshold e d)
  /\ (forall d : Detection, d ∈ detections ->
        (forall e : Detection, e ∈ detections -> Class e = Class d -> e = d) ->
        d ∈ kept).
Proof.
  intros Hperm. unfold NonMaxSuppression.
  destruct (decide (length detections = 0)) as [Hz|Hnz].
  { apply nil_length_inv in Hz as ->. cbn [result]. repeat split.
    - intros p q dp dq _ Hp. by destruct p.
    - intros d Hd. by left.
    - intros d Hd _. exact Hd. }
  set (sorted := sortSlice Detection by_confidence detections).
  assert (Hp : sorted ≡ₚ detections) by apply Hperm.
  destruct (sweep_class_aware sorted iouThreshold) as (Hpair & Hsub & Hall).
  cbv zeta in *. destruct (foldl _ _ _) as [marks kept]. cbn [snd result] in *.
  clearbody sorted.
  assert (Hcover : forall d, d ∈ detections ->
            d ∈ kept \/ exists e, e ∈ kept /\ overlaps iouThreshold e d).
  { intros d Hd. apply Hall. by rewrite Hp. }
  split; [|split].
  - intros p q dp dq Hpq Hlp Hlq Hc.
    destruct (gt (ml.IoU (box_of dp) (box_of dq)) iouThreshold) eqn:Hgt; [|reflexivity].
    exfalso. destruct (Nat.lt_total p q) as [Hlt|[Heq|Hlt]]; [|contradiction|].
    + apply (Hpair p q dp dq Hlt Hlp Hlq). by split.
    + apply (Hpair q p dq dp Hlt Hlq Hlp). split; [by symmetry|].
      by rewrite IoU_comm.
  - exact Hcover.
  - intros d Hd Hother.
    destruct (Hcover d Hd) as [Hk|(e & He & Hc & _)]; [exact Hk|].
    rewrite <- (Hother e); auto. rewrite <- Hp. by apply Hsub.
Qed.

Lemma NonMaxSuppression_slice_after (detections : list Detection)
    (iouThreshold : float32) :
  sorts sortSlice ->
  detections_after (NonMaxSuppression sortSlice detections iouThreshold) ≡ₚ detections
  /\ (Forall (fun d : Detection => is_nan (Confidence d) = false) detections ->
      ordered_by by_confidence
        (detections_after (NonMaxSuppression sortSlice detections iouThreshold)))
  /\ (forall d : Detection,
        d ∈ result (NonMaxSuppression sortSlice detections iouThreshold) ->
        d ∈ detections_after (NonMaxSuppression sortSlice detections iouThreshold)).
Proof.
  intros [Hperm Hord]. unfold NonMaxSuppression.
  destruct (decide (length detections = 0)) as [Hz|Hnz].
  { apply nil_length_inv in Hz as ->. cbn [result detections_after].
    split; [reflexivity|]. split; [intros _; constructor | auto]. }
  set (sorted := sortSlice Detection by_confidence detections).
  destruct (sweep_class_aware sorted iouThreshold) as (_ & Hsub & _).
  cbv zeta in *. destruct (foldl _ _ _) as [marks kept].
  cbn [snd result detections_after] in *.
  split; [apply Hperm|]. split; [|exact Hsub].
  intros Hnn. apply Hord. rewrite Forall_forall in Hnn.
  unfold by_confidence. split; [|split].
  - intros x _. apply gt_irrefl.
  - intros x y z _ _ _. apply gt_trans.
  - intros x y z Hx Hy Hz. apply gt_negtrans; auto.
Qed.

(** C9, amended. [NonMaxSuppression] sorts the caller's slice in place:
    afterwards the slice holds a permutation of what it held, in descending
    order of confidence when no confidence is NaN, and every returned
    detection is one of its elements. [ProcessDetections] applies it to the
    slice it has decoded itself. *)
Theorem NonMaxSuppression_sorts_in_place (detections : list Detection)
    (iouThreshold : float32) :
  sorts sortSlice ->
  let after := detections_after (NonMaxSuppression sortSlice detections iouThreshold) in
  let kept := result (NonMaxSuppression sortSlice detections iouThreshold) in
  after ≡ₚ detections
  /\ (Forall (fun d : Detection => is_nan (Confidence d) = false) detections ->
      ordered_by by_confidence after)
  /\ (forall d : Detection, d ∈ kept -> d ∈ after)
  /\ (forall mathExp logits boxes imageSize opts,
        length boxes / 4 <> 0 ->
        ProcessDetections mathExp sortSlice logits boxes imageSize opts
        = Return (result (NonMaxSuppression sortSlice
                            (decode_all mathExp logits boxes imageSize opts
                               (length boxes / 4)
                               (length logits / (length boxes / 4)))
                            (IoUThreshold opts)), None)).
Proof.
  intros Hsorts. cbv zeta.
  destruct (NonMaxSuppression_slice_after detections iouThreshold Hsorts)
    as (Hperm & Hord & Hsub).
  split; [exact Hperm|]. split; [exact Hord|]. split; [exact Hsub|].
  intros mathExp logits boxes imageSize opts Hnz. unfold ProcessDetections.
  destruct (decide (length boxes / 4 = 0)) as [Hz|_]; [contradiction|].
  reflexivity.
Qed.
End NonMaxSuppressionProofs.

(** * [ProcessDetections] *)

Section ProcessDetectionsProofs.
Import postprocess Samples.

(** No step of [ProcessDetections] reads [MaxDetections]. *)
Lemma ProcessDetections_MaxDetections_unused
    (mathExp : float64 -> float64)
    (sortSlice : forall A : Type, (A -> A -> bool) -> list A -> list A)
    (logits boxes : list float32) (imageSize : Point)
    (labels : gmap Z string) (m m' : Z) (conf iou : float32) :
  ProcessDetections mathExp sortSlice logits boxes imageSize
    {| Labels := labels; MaxDetections := m;
       ConfThreshold := conf; IoUThreshold := iou |}
  = ProcessDetections mathExp sortSlice logits boxes imageSize
      {| Labels := labels; MaxDetections := m';
         ConfThreshold := conf; IoUThreshold := iou |}.
Proof. reflexivity. Qed.

Lemma Softmax_single_zero (mathExp : float64 -> float64) :
  mathExp zero = of_int64 1 ->
  ml.Softmax mathExp [zero] = [f32_1].
Proof.
  intros Hexp. unfold ml.Softmax, ml.exps_of, ml.maxLogit_of. cbn [foldl].
  change (gt zero neg_inf) with true. cbv iota.
  change (to64 (sub32 zero zero)) with zero. rewrite Hexp.
  reflexivity.
Qed.

(** C2 (where the code departs from it). [MaxDetections] is 1, and
    [ProcessDetections] returns both candidates of the sample input: the cap
    is not applied. Only [math.Exp(0) = 1] is used of the exponential. *)
Theorem ProcessDetections_exceeds_MaxDetections (mathExp : float64 -> float64) :
  mathExp zero = of_int64 1 ->
  ProcessDetections mathExp GoLib.insertionSort
    sampleLogits sampleBoxes sampleSize sampleOptions
  = Return ([mkDet "person" 0 f32_1 0 0 50 50;
             mkDet "person" 0 f32_1 50 50 100 100], None)
  /\ MaxDetections sampleOptions = 1%Z.
Proof.
  intros Hexp. split; [|reflexivity].
  unfold ProcessDetections.
  change (length sampleBoxes / 4) with 2.
  change (length sampleLogits / 2) with 1.
  destruct (decide (2 = 0)) as [Hz|_]; [discriminate Hz|].
  unfold decode_all. cbn [seq foldl]. unfold decode.
  change (take 1 (drop (0 * 1) sampleLogits)) with [zero].
  change (take 1 (drop (1 * 1) sampleLogits)) with [zero].
  rewrite (Softmax_single_zero mathExp Hexp).
  vm_compute. reflexivity.
Qed.
End ProcessDetectionsProofs.

(** * The token pattern *)

Section FindAllStringProofs.
Import tokenizer.

Lemma span_length (p : ascii -> bool) (s tok rest : string) :
  span p s = (tok, rest) ->
  String.length tok + String.length rest = String.length s.
Proof.
  revert tok rest. induction s as [|c s IH]; intros tok rest; cbn [span].
  - intros [= <- <-]. reflexivity.
  - destruct (p c).
    + destruct (span p s) as [tok' rest'] eqn:Hs. intros [= <- <-].
      cbn [String.length]. rewrite <- (IH tok' rest' eq_refl). lia.
    + intros [= <- <-]. reflexivity.
Qed.

Lemma match_run_shorter (p : ascii -> bool) (s tok rest : string) :
  match_run p s = Some (tok, rest) -> String.length rest < String.length s.
Proof.
  unfold match_run. destruct (span p s) as [tok' rest'] eqn:Hs.
  apply span_length in Hs.
  destruct tok' as [|c tok']; [discriminate|].
  intros [= <- <-]. cbn [String.length] in Hs. lia.
Qed.

Lemma match_bracketed_shorter (s tok rest : string) :
  match_bracketed s = Some (tok, rest) -> String.length rest < String.length s.
Proof.
  unfold match_bracketed. destruct s as [|c s]; [discriminate|].
  destruct (byte_in 91 91 c); [|discriminate].
  destruct (span _ s) as [body rest'] eqn:Hs. apply span_length in Hs.
  destruct body as [|b body]; [discriminate|].
  destruct rest' as [|c' rest']; [discriminate|].
  destruct (byte_in 93 93 c'); [|discriminate].
  intros [= <- <-]. cbn [String.length] in *. lia.
Qed.

Lemma match_here_shorter (s tok rest : string) :
  match_here s = Some (tok, rest) -> String.length rest < String.length s.
Proof.
  unfold match_here.
  destruct (match_bracketed s) as [[t r]|] eqn:Hb.
  { intros [= <- <-]. eapply match_bracketed_shorter; eauto. }
  destruct (match_run is_word s) as [[t r]|] eqn:Hw.
  { intros [= <- <-]. eapply match_run_shorter; eauto. }
  apply match_run_shorter.
Qed.

(** [FindAllString] never runs out of steps: more of them change nothing. *)
Lemma FindAllString_from_enough (fuel : nat) (s : string) :
  String.length s <= fuel ->
  FindAllString_from fuel s = FindAllString s.
Proof.
  unfold FindAllString.
  remember (String.length s) as n eqn:Hn.
  assert (Hle : String.length s <= n) by lia. clear Hn.
  revert fuel s Hle.
  induction n as [|n IH]; intros fuel s Hle Hfuel.
  - destruct s; [|cbn [String.length] in Hle; lia].
    destruct fuel; reflexivity.
  - destruct fuel as [|fuel].
    { destruct s; [reflexivity | cbn [String.length] in Hfuel; lia]. }
    cbn [FindAllString_from].
    destruct s as [|c s]; [reflexivity|].
    cbn [String.length] in Hle, Hfuel.
    destruct (match_here (String c s)) as [[tok rest]|] eqn:Hm.
    + apply match_here_shorter in Hm. cbn [String.length] in Hm.
      f_equal. rewrite (IH fuel rest) by lia. reflexivity.
    + rewrite (IH fuel s) by lia. reflexivity.
Qed.

(** The three alternatives at work. *)
Example FindAllString_sample :
  FindAllString "Hello, [mask]  world!! [x][] [[a] un_9"
  = ["Hello"; ","; "[mask]"; "world"; "!!"; "[x]"; "[]"; "[["; "a"; "]"; "un_9"].
Proof. vm_compute. reflexivity. Qed.
End FindAllStringProofs.

(** * [wordPiece] *)

Section WordPieceProofs.
Import tokenizer WordPieceSpec.

Lemma substring_0_app (a b : nat) (s : string) :
  String.substring 0 (a + b) s = String.substring 0 a s +:+ String.substring a b s.
Proof.
  revert s. induction a as [|a IH]; intros s.
  - destruct b, s; reflexivity.
  - destruct s as [|c s]; simpl.
    + reflexivity.
    + rewrite IH. reflexivity.
Qed.

Lemma substring_app (n a b : nat) (s : string) :
  String.substring n (a + b) s
  = String.substring n a s +:+ String.substring (n + a) b s.
Proof.
  revert s. induction n as [|n IH]; intros s.
  - apply substring_0_app.
  - destruct s as [|c s]; simpl.
    + destruct a; reflexivity.
    + apply IH.
Qed.

Lemma substring_all (s : string) : String.substring 0 (String.length s) s = s.
Proof. induction s as [|c s IH]; simpl; [reflexivity | by rewrite IH]. Qed.

Lemma slice_app (word : string) (lo mid hi : nat) :
  lo <= mid -> mid <= hi ->
  slice word lo mid +:+ slice word mid hi = slice word lo hi.
Proof.
  intros H1 H2. unfold slice.
  replace (hi - lo) with ((mid - lo) + (hi - mid)) by lia.
  rewrite substring_app. do 2 f_equal. lia.
Qed.

Lemma substring_none (lo : nat) (s : string) : String.substring lo 0 s = EmptyString.
Proof.
  revert s. induction lo as [|lo IH]; intros [|c s]; simpl; auto.
Qed.

Lemma slice_empty (word : string) (lo : nat) :
  String.length word <= lo -> slice word lo (String.length word) = EmptyString.
Proof.
  intros H. unfold slice. replace (String.length word - lo) with 0 by lia.
  apply substring_none.
Qed.

Lemma slice_all (word : string) : slice word 0 (String.length word) = word.
Proof. unfold slice. rewrite Nat.sub_0_r. apply substring_all. Qed.

Section Scan.
Variable vocab : gmap string Z.
Variable word : string.

Lemma find_subword_piece (start n : nat) :
  find_subword vocab word start n
  = (fix go n :=
       match n with
       | O => None
       | S n' =>
           if has_key vocab (piece word start (start + n))
           then Some (piece word start (start + n), start + n)
           else go n'
       end) n.
Proof.
  induction n as [|n IH]; [reflexivity|].
  cbn [find_subword]. unfold piece. rewrite IH. reflexivity.
Qed.

Lemma find_subword_Some (start n : nat) (sub : string) (e : nat) :
  find_subword vocab word start n = Some (sub, e) ->
  (start < e <= start + n)
  /\ sub = piece word start e
  /\ has_key vocab (piece word start e) = true
  /\ forall e', e < e' <= start + n -> has_key vocab (piece word start e') = false.
Proof.
  rewrite find_subword_piece.
  induction n as [|n IH]; [discriminate|].
  destruct (has_key vocab (piece word start (start + S n))) eqn:Hk.
  - intros [= <- <-]. repeat split; try lia; auto.
  - intros H. destruct (IH H) as (Hr & Hs & Hin & Hmax).
    repeat split; try lia; auto.
    intros e' He'. destruct (decide (e' = start + S n)) as [->|Hne]; [exact Hk|].
    apply Hmax. lia.
Qed.

Lemma find_subword_None (start n : nat) :
  find_subword vocab word start n = None ->
  forall e, start < e <= start + n -> has_key vocab (piece word start e) = false.
Proof.
  rewrite find_subword_piece.
  induction n as [|n IH]; [intros _ e He; lia|].
  destruct (has_key vocab (piece word start (start + S n))) eqn:Hk; [discriminate|].
  intros H e He. destruct (decide (e = start + S n)) as [->|Hne]; [exact Hk|].
  apply IH; [exact H | lia].
Qed.

(** The outer loop, from any position it can reach. *)
Lemma wordPiece_loop_scan (unk : string) (fuel start : nat) (tokens : list string) :
  String.length word - start < fuel ->
  (stuck vocab word start
   /\ wordPiece_loop fuel vocab unk word start tokens = [unk])
  \/ (exists pieces, greedy vocab word start pieces
      /\ wordPiece_loop fuel vocab unk word start tokens = tokens ++ pieces).
Proof.
  revert start tokens.
  induction fuel as [|fuel IH]; intros start tokens Hfuel; [lia|].
  cbn [wordPiece_loop].
  destruct (start <? String.length word) eqn:Hlt.
  - apply Nat.ltb_lt in Hlt.
    destruct (find_subword vocab word start (String.length word - start))
      as [[sub e]|] eqn:Hfind.
    + apply find_subword_Some in Hfind as (Hr & -> & Hin & Hmax).
      replace (start + (String.length word - start)) with (String.length word)
        in * by lia.
      assert (Hlm : longest_match vocab word start e) by (repeat split; auto; lia).
      destruct (IH e (tokens ++ [piece word start e])) as [[Hst Hrun]|(ps & Hg & Hrun)];
        [lia| |].
      * left. split; [eapply stuck_later; eauto | exact Hrun].
      * right. exists (piece word start e :: ps). split.
        -- eapply greedy_take; eauto.
        -- rewrite Hrun, <- app_assoc. reflexivity.
    + left. split; [|reflexivity].
      apply stuck_here; [exact Hlt|].
      intros e He. eapply find_subword_None; [exact Hfind | lia].
  - apply Nat.ltb_ge in Hlt. right. exists []. split.
    + by apply greedy_end.
    + by rewrite app_nil_r.
Qed.

Lemma longest_match_unique (start e e' : nat) :
  longest_match vocab word start e -> longest_match vocab word start e' -> e = e'.
Proof.
  intros (Hr & Hin & Hmax) (Hr' & Hin' & Hmax').
  destruct (Nat.lt_total e e') as [Hlt|[Heq|Hlt]]; [|exact Heq|].
  - rewrite Hmax in Hin' by lia. discriminate.
  - rewrite Hmax' in Hin by lia. discriminate.
Qed.

(** A scan that gets stuck yields no split. *)
Lemma stuck_not_greedy (start : nat) (pieces : list string) :
  stuck vocab word start -> greedy vocab word start pieces -> False.
Proof.
  intros Hst. revert pieces.
  induction Hst as [start Hlt Hno | start e Hlm Hst IH]; intros pieces Hg.
  - inversion Hg as [s Hend | s e ps (Hr & Hin & _) Hg']; subst; [lia|].
    rewrite Hno in Hin by lia. discriminate.
  - inversion Hg as [s Hend | s e' ps Hlm' Hg']; subst.
    + destruct Hlm as (Hr & _). lia.
    + rewrite <- (longest_match_unique _ _ _ Hlm Hlm') in Hg'. eauto.
Qed.

Lemma unmark_piece (start e : nat) :
  0 < start -> unmark (piece word start e) = slice word start e.
Proof.
  intros H. unfold piece. apply Nat.ltb_lt in H. rewrite H. reflexivity.
Qed.

(** Later pieces: without their markers they spell the rest of the word. *)
Lemma greedy_spells_rest (start : nat) (pieces : list string) :
  greedy vocab word start pieces -> 0 < start ->
  foldr String.append EmptyString (unmark <$> pieces)
  = slice word start (String.length word).
Proof.
  induction 1 as [start Hend | start e ps Hlm Hg IH]; intros Hpos.
  - by rewrite slice_empty.
  - destruct Hlm as (Hr & _ & _).
    rewrite fmap_cons. cbn [foldr]. rewrite unmark_piece by exact Hpos.
    rewrite IH by lia. apply slice_app; lia.
Qed.

Lemma greedy_rejoin (pieces : list string) :
  greedy vocab word 0 pieces -> rejoin pieces = word.
Proof.
  inversion 1 as [start Hend | start e ps Hlm Hg]; subst.
  - simpl. destruct word; [reflexivity | simpl in Hend; lia].
  - destruct Hlm as (Hr & _ & _). unfold rejoin.
    rewrite (greedy_spells_rest e ps Hg) by lia.
    unfold piece. simpl. rewrite slice_app by lia. apply slice_all.
Qed.
End Scan.

(** C5. For a word that is not itself in the vocabulary: when the greedy
    left-to-right scan reaches a position where no substring matches,
    [wordPiece] returns the single piece ["[UNK]"]; otherwise it returns the
    pieces of that scan, each the longest match at its position (marked
    [##] after the first), and joined without their markers they spell the
    word. *)
Theorem wordPiece_greedy_longest_match (t : Tokenizer) (word : string) :
  has_key (Vocab t) word = false ->
  (stuck (Vocab t) word 0 -> wordPiece t word = ["[UNK]"])
  /\ (~ stuck (Vocab t) word 0 ->
      exists pieces,
        greedy (Vocab t) word 0 pieces
        /\ wordPiece t word = pieces
        /\ rejoin pieces = word).
Proof.
  intros Hnot. unfold wordPiece. rewrite Hnot.
  destruct (wordPiece_loop_scan (Vocab t) word "[UNK]"
              (S (String.length word)) 0 []) as [[Hst Hrun]|(ps & Hg & Hrun)];
    [lia| |].
  - split; [intros _; exact Hrun | intros Hn; contradiction].
  - split.
    + intros Hst. exfalso. eapply stuck_not_greedy; eauto.
    + intros _. exists ps. repeat split; auto.
      eapply greedy_rejoin; eauto.
Qed.
End WordPieceProofs.

(** * [Encode] *)

Section EncodeProofs.
Import tokenizer.

Lemma pad_loop_eq (n : nat) (padId : Z) (pad : string) (out : TokenizerOutput) :
  pad_loop n padId pad out
  = {| InputIds := InputIds out ++ replicate n padId;
       AttentionMask := AttentionMask out ++ replicate n 0%Z;
       Tokens := Tokens out ++ replicate n pad |}.
Proof.
  revert out. induction n as [|n IH]; intros out.
  - destruct out. simpl. by rewrite !app_nil_r.
  - cbn [pad_loop]. rewrite IH. cbn [InputIds AttentionMask Tokens].
    rewrite <- !app_assoc. reflexivity.
Qed.

Lemma lookup_step_lengths (vocab : gmap string Z) (unk : string)
    (wp : list string) (ids : list Z) (toks : list string) :
  length ids = length toks ->
  length (fst (foldl (lookup_step vocab unk) (ids, toks) wp)) = length ids + length wp
  /\ length (snd (foldl (lookup_step vocab unk) (ids, toks) wp)) = length ids + length wp.
Proof.
  revert ids toks. induction wp as [|w wp IH]; intros ids toks Hlen.
  - simpl. lia.
  - cbn [foldl].
    assert (Hstep : exists id tok,
              lookup_step vocab unk (ids, toks) w = (ids ++ [id], toks ++ [tok])).
    { unfold lookup_step. cbn [fst snd]. destruct (vocab !! w); eauto. }
    destruct Hstep as (id & tok & ->).
    destruct (IH (ids ++ [id]) (toks ++ [tok])) as [H1 H2].
    { rewrite !length_app. simpl. lia. }
    rewrite H1, H2, !length_app. simpl. lia.
Qed.

Lemma with_specials_lengths (vocab : gmap string Z) (st : SpecialTokens)
    (wp : list string) :
  length (fst (with_specials vocab st wp)) = length wp + 2
  /\ length (snd (with_specials vocab st wp)) = length wp + 2.
Proof.
  unfold with_specials.
  pose proof (lookup_step_lengths vocab (UNK st) wp
                [default 0%Z (vocab !! CLS st)] [CLS st] eq_refl) as [H1 H2].
  destruct (foldl _ _ wp) as [ids toks]. cbn [fst snd] in *.
  rewrite !length_app, H1, H2. simpl. lia.
Qed.

(** What [assemble] returns once [maxLength] is not negative. *)
Lemma assemble_returns (vocab : gmap string Z) (st : SpecialTokens)
    (wp : list string) (maxLength : Z) :
  (0 <= maxLength)%Z ->
  let ids := fst (with_specials vocab st wp) in
  let toks := snd (with_specials vocab st wp) in
  let M := Z.to_nat maxLength in
  let n := length ids `min` M in
  assemble vocab st wp maxLength
  = Return ({| InputIds := take n ids ++ replicate (M - n) (default 0%Z (vocab !! PAD st));
               AttentionMask := replicate n 1%Z ++ replicate (M - n) 0%Z;
               Tokens := take n toks ++ replicate (M - n) (PAD st) |}, None).
Proof.
  intros Hpos ids toks M n. unfold assemble.
  pose proof (with_specials_lengths vocab st wp) as [Hl1 Hl2].
  fold ids toks in Hl1, Hl2.
  destruct (with_specials vocab st wp) as [ids' toks'] eqn:Hws.
  cbn [fst snd] in ids, toks. subst ids toks.
  destruct (Z.of_nat (length ids') >? maxLength)%Z eqn:Hgt.
  - apply Z.gtb_lt in Hgt.
    assert (Hlt : (maxLength <? 0)%Z = false) by (apply Z.ltb_ge; lia).
    rewrite Hlt.
    assert (Hn : n = M) by (subst n M; lia).
    rewrite Hn, Nat.sub_diag. cbn [replicate]. rewrite !app_nil_r.
    rewrite take_replicate. do 3 f_equal. f_equal. lia.
  - assert (Hle : (Z.of_nat (length ids') <= maxLength)%Z).
    { destruct (Z.gtb_spec (Z.of_nat (length ids')) maxLength); [discriminate | lia]. }
    assert (Hn : n = length ids') by (subst n M; lia).
    rewrite pad_loop_eq. cbn [InputIds AttentionMask Tokens].
    rewrite Hn. rewrite !firstn_all2 by lia.
    reflexivity.
Qed.

Lemma assemble_panics (vocab : gmap string Z) (st : SpecialTokens)
    (wp : list string) (maxLength : Z) :
  (maxLength < 0)%Z -> assemble vocab st wp maxLength = Panic SliceBoundsOutOfRange.
Proof.
  intros Hneg. unfold assemble.
  destruct (with_specials vocab st wp) as [ids toks].
  assert (Hgt : (Z.of_nat (length ids) >? maxLength)%Z = true) by (apply Z.gtb_lt; lia).
  assert (Hlt : (maxLength <? 0)%Z = true) by (apply Z.ltb_lt; lia).
  by rewrite Hgt, Hlt.
Qed.

Section WithToLower.
Variable ToLower : string -> string.

(** C3. For [maxLength >= 0], [Encode] returns ids, mask and tokens of
    length [maxLength] each. The positions that hold [CLS], a piece or
    [SEP] (the first [n]) carry mask 1; the remaining ones are [PAD] filler
    and carry mask 0. *)
Theorem Encode_length_and_mask (t : Tokenizer) (text : string) (maxLength : Z) :
  (0 <= maxLength)%Z ->
  exists out : TokenizerOutput,
    Encode ToLower t text maxLength = Return (out, None)
    /\ length (InputIds out) = Z.to_nat maxLength
    /\ length (AttentionMask out) = Z.to_nat maxLength
    /\ length (Tokens out) = Z.to_nat maxLength
    /\ let ids := fst (with_specials (Vocab t) DefaultSpecialTokens (wordpieces ToLower t text)) in
       let toks := snd (with_specials (Vocab t) DefaultSpecialTokens (wordpieces ToLower t text)) in
       let n := length ids `min` Z.to_nat maxLength in
       InputIds out = take n ids ++ replicate (Z.to_nat maxLength - n) (default 0%Z (Vocab t !! "[PAD]"))
       /\ Tokens out = take n toks ++ replicate (Z.to_nat maxLength - n) "[PAD]"
       /\ AttentionMask out = replicate n 1%Z ++ replicate (Z.to_nat maxLength - n) 0%Z.
Proof.
  intros Hpos. unfold Encode.
  pose proof (with_specials_lengths (Vocab t) DefaultSpecialTokens
                (wordpieces ToLower t text)) as [Hl1 Hl2].
  rewrite assemble_returns by exact Hpos.
  eexists. split; [reflexivity|].
  cbn [InputIds AttentionMask Tokens].
  rewrite !length_app, !length_replicate, !length_take.
  repeat split; cbn [PAD DefaultSpecialTokens]; lia.
Qed.

(** C10, amended. Whenever [Encode] returns, its error is [nil]; and it does
    return for every [maxLength >= 0]. *)
Theorem Encode_error_is_nil (t : Tokenizer) (text : string) (maxLength : Z) :
  (forall out err, Encode ToLower t text maxLength = Return (out, err) -> err = None)
  /\ ((0 <= maxLength)%Z ->
      exists out, Encode ToLower t text maxLength = Return (out, None)).
Proof.
  split.
  - intros out err. unfold Encode.
    destruct (Z_lt_le_dec maxLength 0) as [Hneg|Hpos].
    + by rewrite assemble_panics.
    + rewrite assemble_returns by exact Hpos. by intros [= _ <-].
  - intros Hpos. unfold Encode. rewrite assemble_returns by exact Hpos. eauto.
Qed.
End WithToLower.
End EncodeProofs.

(** * [Softmax] over the reals *)

Section ExactSoftmax.
Import Exact.
Local Open Scope R_scope.

Lemma total_cons (x : R) (v : list R) : total (x :: v) = x + total v.
Proof. reflexivity. Qed.

Lemma total_nil : total [] = 0.
Proof. reflexivity. Qed.

Lemma exps_of_from (m : R) (logits probs : list R) (sumExp : R) :
  foldl (fun '(probs, sumExp) logit =>
           let e := exp (logit - m) in (probs ++ [e], sumExp + e))
        (probs, sumExp) logits
  = (probs ++ ((fun x => exp (x - m)) <$> logits),
     sumExp + total ((fun x => exp (x - m)) <$> logits)).
Proof.
  revert probs sumExp.
  induction logits as [|x l IH]; intros probs sumExp.
  - rewrite fmap_nil, app_nil_r, total_nil. cbn [foldl]. f_equal. ring.
  - rewrite fmap_cons, total_cons. cbn [foldl]. rewrite IH, <- app_assoc.
    f_equal. ring.
Qed.

Lemma exps_of_eq (m : R) (logits : list R) :
  exps_of m logits
  = ((fun x => exp (x - m)) <$> logits, total ((fun x => exp (x - m)) <$> logits)).
Proof.
  unfold exps_of. rewrite exps_of_from. simpl. f_equal. ring.
Qed.

Lemma total_scale (s : R) (v : list R) :
  total ((fun p => p / s) <$> v) = total v / s.
Proof.
  induction v as [|x v IH].
  - rewrite fmap_nil, total_nil. lra.
  - rewrite fmap_cons, !total_cons, IH. lra.
Qed.

Lemma total_exp_pos (m : R) (logits : list R) :
  logits <> [] -> 0 < total ((fun x => exp (x - m)) <$> logits).
Proof.
  assert (Hnn : forall l : list R, 0 <= total ((fun x => exp (x - m)) <$> l)).
  { induction l as [|y l IH].
    - rewrite fmap_nil, total_nil. lra.
    - rewrite fmap_cons, total_cons. pose proof (exp_pos (y - m)). lra. }
  destruct logits as [|x l]; [congruence|]. intros _.
  rewrite fmap_cons, total_cons. pose proof (exp_pos (x - m)).
  specialize (Hnn l). lra.
Qed.

Lemma maxLogit_of_cons (x : R) (l : list R) :
  exists m, maxLogit_of (x :: l) = Some m.
Proof.
  unfold maxLogit_of. simpl.
  generalize x. induction l as [|y l IH]; intros a; simpl.
  - eauto.
  - destruct (Rgt_dec y a); apply IH.
Qed.

Lemma maxLogit_of_shift (c : R) (logits : list R) :
  maxLogit_of ((fun x => x + c) <$> logits)
  = (fun x => x + c) <$> maxLogit_of logits.
Proof.
  unfold maxLogit_of.
  change (@None R) with ((fun x => x + c) <$> @None R) at 1.
  generalize (@None R).
  induction logits as [|y l IH]; intros acc; simpl; [reflexivity|].
  rewrite <- IH. f_equal.
  destruct acc as [m|]; simpl; [|reflexivity].
  destruct (Rgt_dec (y + c) (m + c)), (Rgt_dec y m); simpl; try reflexivity; lra.
Qed.

Lemma Softmax_shift (c : R) (logits : list R) :
  Softmax ((fun x => x + c) <$> logits) = Softmax logits.
Proof.
  unfold Softmax. rewrite maxLogit_of_shift.
  destruct (maxLogit_of logits) as [m|]; simpl; [|reflexivity].
  rewrite !exps_of_eq.
  assert (Heq : (fun x => exp (x - (m + c))) <$> ((fun x => x + c) <$> logits)
                = (fun x => exp (x - m)) <$> logits).
  { rewrite <- list_fmap_compose. apply list_fmap_ext.
    intros _ x _. simpl. f_equal. lra. }
  rewrite Heq. reflexivity.
Qed.

Lemma Softmax_eq (logits : list R) (m : R) :
  maxLogit_of logits = Some m ->
  Softmax logits
  = (fun p => p / total ((fun x => exp (x - m)) <$> logits))
      <$> ((fun x => exp (x - m)) <$> logits).
Proof.
  intros Hm. unfold Softmax. rewrite Hm, exps_of_eq. reflexivity.
Qed.

(** C6. Over the reals, [Softmax] of a non-empty vector has the length of
    its argument, its components sum to 1, and adding one constant to every
    score leaves it unchanged. *)
Theorem Softmax_sums_to_one_and_shift_invariant (logits : list R) :
  logits <> [] ->
  length (Softmax logits) = length logits
  /\ total (Softmax logits) = 1
  /\ forall c : R, Softmax ((fun x => x + c) <$> logits) = Softmax logits.
Proof.
  intros Hne.
  destruct logits as [|x l]; [congruence|].
  destruct (maxLogit_of_cons x l) as [m Hm].
  rewrite (Softmax_eq _ _ Hm).
  split; [|split].
  - rewrite !length_fmap. reflexivity.
  - rewrite total_scale.
    pose proof (total_exp_pos m (x :: l) Hne). field. lra.
  - intros c. rewrite <- (Softmax_eq _ _ Hm). apply Softmax_shift.
Qed.

Lemma Softmax_sums_to_one_witness :
  [1; 2] <> [] /\
  (length (Softmax [1; 2]) = length [1; 2]
   /\ total (Softmax [1; 2]) = 1
   /\ forall c : R, Softmax ((fun x => x + c) <$> [1; 2]) = Softmax [1; 2]).
Proof.
  split; [discriminate|].
  apply (Softmax_sums_to_one_and_shift_invariant [1; 2]). discriminate.
Defined.
End ExactSoftmax.

(** * Instances *)

Section Instances.
Import postprocess tokenizer Samples NMSSpec SortContract WordPieceSpec.

(** Three candidates: two overlapping ones of class 0 and one of class 1 on
    the same box as the first. *)
Example NonMaxSuppression_scenario :
  result (NonMaxSuppression GoLib.insertionSort
            [mkDet "a" 0 (dyadic32 1 (-1)) 0 0 10 10;
             mkDet "a" 0 (dyadic32 3 (-2)) 1 1 11 11;
             mkDet "b" 1 (dyadic32 1 (-2)) 0 0 10 10]
            (dyadic32 1 (-1)))
  = [mkDet "a" 0 (dyadic32 3 (-2)) 1 1 11 11;
     mkDet "b" 1 (dyadic32 1 (-2)) 0 0 10 10].
Proof. vm_compute. reflexivity. Qed.

Lemma NonMaxSuppression_class_aware_witness :
  (forall less l, GoLib.insertionSort Detection less l ≡ₚ l)
  /\ let kept :=
       result (NonMaxSuppression GoLib.insertionSort
                 [mkDet "a" 0 (dyadic32 1 (-1)) 0 0 10 10;
                  mkDet "a" 0 (dyadic32 3 (-2)) 1 1 11 11;
                  mkDet "b" 1 (dyadic32 1 (-2)) 0 0 10 10]
                 (dyadic32 1 (-1))) in
     (forall (p q : nat) (dp dq : Detection),
        p <> q -> kept !! p = Some dp -> kept !! q = Some dq ->
        Class dp = Class dq ->
        gt (ml.IoU (box_of dp) (box_of dq)) (dyadic32 1 (-1)) = false)
     /\ (forall d : Detection,
           d ∈ [mkDet "a" 0 (dyadic32 1 (-1)) 0 0 10 10;
                mkDet "a" 0 (dyadic32 3 (-2)) 1 1 11 11;
                mkDet "b" 1 (dyadic32 1 (-2)) 0 0 10 10] ->
           d ∈ kept \/ exists e : Detection, e ∈ kept /\ overlaps (dyadic32 1 (-1)) e d)
     /\ (forall d : Detection,
           d ∈ [mkDet "a" 0 (dyadic32 1 (-1)) 0 0 10 10;
                mkDet "a" 0 (dyadic32 3 (-2)) 1 1 11 11;
                mkDet "b" 1 (dyadic32 1 (-2)) 0 0 10 10] ->
           (forall e : Detection,
              e ∈ [mkDet "a" 0 (dyadic32 1 (-1)) 0 0 10 10;
                   mkDet "a" 0 (dyadic32 3 (-2)) 1 1 11 11;
                   mkDet "b" 1 (dyadic32 1 (-2)) 0 0 10 10] ->
              Class e = Class d -> e = d) ->
           d ∈ kept).
Proof.
  split.
  - intros less l. apply insertionSort_perm.
  - apply (NonMaxSuppression_class_aware GoLib.insertionSort).
    intros less l. apply insertionSort_perm.
Defined.

Lemma ProcessDetections_exceeds_MaxDetections_witness :
  (fun _ : float64 => of_int64 1) zero = of_int64 1
  /\ (ProcessDetections (fun _ => of_int64 1) GoLib.insertionSort
        sampleLogits sampleBoxes sampleSize sampleOptions
      = Return ([mkDet "person" 0 f32_1 0 0 50 50;
                 mkDet "person" 0 f32_1 50 50 100 100], None)
      /\ MaxDetections sampleOptions = 1%Z).
Proof.
  split; [reflexivity|].
  apply (ProcessDetections_exceeds_MaxDetections (fun _ => of_int64 1)).
  reflexivity.
Defined.

Lemma Encode_length_and_mask_witness :
  (0 <= 6)%Z
  /\ exists out : TokenizerOutput,
       Encode GoLib.asciiToLower sampleTokenizer "hello world" 6 = Return (out, None)
       /\ length (InputIds out) = Z.to_nat 6
       /\ length (AttentionMask out) = Z.to_nat 6
       /\ length (Tokens out) = Z.to_nat 6
       /\ let ids := fst (with_specials (Vocab sampleTokenizer) DefaultSpecialTokens
                            (wordpieces GoLib.asciiToLower sampleTokenizer "hello world")) in
          let toks := snd (with_specials (Vocab sampleTokenizer) DefaultSpecialTokens
                             (wordpieces GoLib.asciiToLower sampleTokenizer "hello world")) in
          let n := length ids `min` Z.to_nat 6 in
          InputIds out = take n ids ++ replicate (Z.to_nat 6 - n)
                                         (default 0%Z (Vocab sampleTokenizer !! "[PAD]"))
          /\ Tokens out = take n toks ++ replicate (Z.to_nat 6 - n) "[PAD]"
          /\ AttentionMask out = replicate n 1%Z ++ replicate (Z.to_nat 6 - n) 0%Z.
Proof.
  split; [lia|].
  apply (Encode_length_and_mask GoLib.asciiToLower sampleTokenizer "hello world" 6).
  lia.
Defined.

(** The first end-to-end scenario of the specification, with [MASK] added to
    the vocabulary. *)
Example Encode_hello_world :
  Encode GoLib.asciiToLower sampleTokenizer "hello world" 6
  = Return ({| InputIds := [2; 5; 6; 3; 0; 0]%Z;
               AttentionMask := [1; 1; 1; 1; 0; 0]%Z;
               Tokens := ["[CLS]"; "hello"; "world"; "[SEP]"; "[PAD]"; "[PAD]"] |},
            None).
Proof. vm_compute. reflexivity. Qed.

(** C4 (where the code departs from it). [Tokenizer.Encode] takes the
    bracketed token ["[mask]"] as it is spelled, does not find it in the
    vocabulary and emits ["[UNK]"]; [BERTTokenizer.Encode] emits the
    canonical ["[MASK]"] on the same text. *)
Theorem Encode_lowercase_mask_is_UNK :
  Encode GoLib.asciiToLower sampleTokenizer "hello [mask]" 4
  = Return ({| InputIds := [2; 5; 1; 3]%Z;
               AttentionMask := [1; 1; 1; 1]%Z;
               Tokens := ["[CLS]"; "hello"; "[UNK]"; "[SEP]"] |}, None)
  /\ BERT_Encode GoLib.asciiToLower GoLib.asciiToUpper sampleBERT "hello [mask]" 4
     = Return ({| InputIds := [2; 5; 4; 3]%Z;
                  AttentionMask := [1; 1; 1; 1]%Z;
                  Tokens := ["[CLS]"; "hello"; "[MASK]"; "[SEP]"] |}, None).
Proof. split; vm_compute; reflexivity. Qed.

Example wordPiece_splits :
  wordPiece sampleTokenizer "unaffable" = ["un"; "##aff"; "##able"]
  /\ wordPiece sampleTokenizer "unaffablex" = ["[UNK]"].
Proof. split; vm_compute; reflexivity. Qed.

Lemma wordPiece_greedy_longest_match_witness :
  has_key (Vocab sampleTokenizer) "unaffable" = false
  /\ ((stuck (Vocab sampleTokenizer) "unaffable" 0 ->
       wordPiece sampleTokenizer "unaffable" = ["[UNK]"])
      /\ (~ stuck (Vocab sampleTokenizer) "unaffable" 0 ->
          exists pieces,
            greedy (Vocab sampleTokenizer) "unaffable" 0 pieces
            /\ wordPiece sampleTokenizer "unaffable" = pieces
            /\ rejoin pieces = "unaffable")).
Proof.
  split; [vm_compute; reflexivity|].
  apply (wordPiece_greedy_longest_match sampleTokenizer "unaffable").
  vm_compute. reflexivity.
Defined.

Lemma TopK_indices_sorted_witness :
  sorts GoLib.insertionSort
  /\ (0 <= 2)%Z
  /\ Forall (fun v => is_nan v = false) [of_int32 1; of_int32 5; of_int32 2]
  /\ exists indices : list Z,
       ml.TopK GoLib.insertionSort [of_int32 1; of_int32 5; of_int32 2] 2 = Return indices
       /\ Z.of_nat (length indices)
          = Z.min 2 (Z.of_nat (length [of_int32 1; of_int32 5; of_int32 2]))
       /\ (forall i, i ∈ indices ->
             (0 <= i < Z.of_nat (length [of_int32 1; of_int32 5; of_int32 2]))%Z)
       /\ (forall p q ip iq, p < q -> indices !! p = Some ip -> indices !! q = Some iq ->
             exists vp vq,
               [of_int32 1; of_int32 5; of_int32 2] !! Z.to_nat ip = Some vp
               /\ [of_int32 1; of_int32 5; of_int32 2] !! Z.to_nat iq = Some vq
               /\ ge vp vq = true).
Proof.
  split; [exact insertionSort_sorts|].
  split; [lia|].
  split; [repeat constructor|].
  apply (TopK_indices_sorted GoLib.insertionSort).
  - exact insertionSort_sorts.
  - lia.
  - repeat constructor.
Defined.

Example TopK_scenario :
  ml.TopK GoLib.insertionSort [of_int32 1; of_int32 5; of_int32 2] 2 = Return [1; 2]%Z.
Proof. vm_compute. reflexivity. Qed.

(** C7, as stated, fails: a negative [k] panics, and a NaN among the values
    leaves them out of order. *)
Lemma TopK_negative_k_and_NaN :
  ml.TopK GoLib.insertionSort [of_int32 1] (-1) = Panic MakesliceLenOutOfRange
  /\ (ml.TopK GoLib.insertionSort [of_int32 1; nan; of_int32 2] 3 = Return [0; 1; 2]%Z
      /\ ge (of_int32 1) (of_int32 2) = false).
Proof. repeat split; vm_compute; reflexivity. Qed.

(** C8, as stated, fails: two equal point boxes. *)
Lemma IoU_point_boxes :
  let a : ml.box4 := (of_int32 5, of_int32 5, of_int32 5, of_int32 5) in
  is_zero (ml.area a) = true
  /\ ml.IoU a a = nan
  /\ is_finite (ml.IoU a a) = false.
Proof. repeat split; vm_compute; reflexivity. Qed.

Lemma IoU_zero_area_is_NaN_witness :
  let a : ml.box4 := (of_int32 5, of_int32 5, of_int32 5, of_int32 5) in
  let b : ml.box4 := (of_int32 7, of_int32 1, of_int32 7, of_int32 9) in
  is_zero (ml.area a) = true
  /\ is_zero (ml.area b) = true
  /\ is_zero (ml.intersectArea a b) = true
  /\ ml.IoU a b = nan.
Proof.
  cbv zeta.
  split; [vm_compute; reflexivity|].
  split; [vm_compute; reflexivity|].
  split; [vm_compute; reflexivity|].
  apply IoU_zero_area_is_NaN; vm_compute; reflexivity.
Defined.

(** C9, as stated, fails: the caller's slice comes back reordered. *)
Lemma NonMaxSuppression_reorders_input :
  let low := mkDet "a" 0 (dyadic32 1 (-1)) 0 0 10 10 in
  let high := mkDet "b" 1 (dyadic32 3 (-2)) 20 20 30 30 in
  detections_after (NonMaxSuppression GoLib.insertionSort [low; high] (dyadic32 1 (-1)))
  = [high; low]
  /\ detections_after (NonMaxSuppression GoLib.insertionSort [low; high] (dyadic32 1 (-1)))
     <> [low; high].
Proof. split; [vm_compute; reflexivity | vm_compute; discriminate]. Qed.

Lemma NonMaxSuppression_sorts_in_place_witness :
  sorts GoLib.insertionSort
  /\ let detections :=
       [mkDet "a" 0 (dyadic32 1 (-1)) 0 0 10 10;
        mkDet "b" 1 (dyadic32 3 (-2)) 20 20 30 30] in
     let after :=
       detections_after
         (NonMaxSuppression GoLib.insertionSort detections (dyadic32 1 (-1))) in
     let kept :=
       result (NonMaxSuppression GoLib.insertionSort detections (dyadic32 1 (-1))) in
     after ≡ₚ detections
     /\ (Forall (fun d : Detection => is_nan (Confidence d) = false) detections ->
         ordered_by by_confidence after)
     /\ (forall d : Detection, d ∈ kept -> d ∈ after)
     /\ (forall mathExp logits boxes imageSize opts,
           length boxes / 4 <> 0 ->
           ProcessDetections mathExp GoLib.insertionSort logits boxes imageSize opts
           = Return (result (NonMaxSuppression GoLib.insertionSort
                               (decode_all mathExp logits boxes imageSize opts
                                  (length boxes / 4)
                                  (length logits / (length boxes / 4)))
                               (IoUThreshold opts)), None)).
Proof.
  split; [exact insertionSort_sorts|].
  apply (NonMaxSuppression_sorts_in_place GoLib.insertionSort).
  exact insertionSort_sorts.
Defined.

(** C10, as stated, fails: a negative [maxLength] panics. *)
Lemma Encode_negative_maxLength_panics :
  Encode GoLib.asciiToLower sampleTokenizer "hello world" (-1)
  = Panic SliceBoundsOutOfRange
  /\ ~ exists r, Encode GoLib.asciiToLower sampleTokenizer "hello world" (-1) = Return r.
Proof.
  split; [vm_compute; reflexivity|].
  intros [r Hr]. vm_compute in Hr. discriminate Hr.
Qed.

Lemma Encode_error_is_nil_witness :
  (0 <= 4)%Z
  /\ exists out, Encode GoLib.asciiToLower sampleTokenizer "hello" 4 = Return (out, None).
Proof.
  split; [lia|].
  apply (proj2 (Encode_error_is_nil GoLib.asciiToLower sampleTokenizer "hello" 4)).
  lia.
Defined.
End Instances.

(** * [IoU], [L2Normalize] and [Sigmoid] at the edges *)

Section MoreNumeric.
Import SortContract.

(** X1. [IoU] does not depend on the order of its two boxes, whatever their
    coordinates (NaN and infinities included). *)
Theorem IoU_symmetric (a b : ml.box4) : ml.IoU a b = ml.IoU b a.
Proof. apply IoU_comm. Qed.

Lemma fmap_constant {A B : Type} (f : A -> B) (c : B) (l : list A) :
  (forall v, v ∈ l -> f v = c) -> f <$> l = replicate (length l) c.
Proof.
  induction l as [|v l IH]; intros Hc; [reflexivity|].
  rewrite fmap_cons. cbn [length replicate]. f_equal.
  - apply Hc. left.
  - apply IH. intros w Hw. apply Hc. by right.
Qed.

Lemma sumSquares_of_zeros (x : list float32) :
  Forall (fun v => is_zero v = true) x -> ml.sumSquares_of x = zero.
Proof.
  unfold ml.sumSquares_of. generalize (eq_refl zero).
  generalize zero at 1 3 as acc.
  induction x as [|v x IH]; intros acc Hacc Hall; cbn [foldl]; [exact Hacc|].
  apply Forall_cons in Hall as [Hv Hall].
  apply IH; [|exact Hall]. subst acc.
  destruct v as [s| | |]; try discriminate. by destruct s.
Qed.

Lemma sumSquares_of_nan_from (x : list float32) :
  foldl (fun sumSquares v => add32 sumSquares (mul32 v v)) nan x = nan.
Proof. induction x as [|v x IH]; cbn [foldl]; [reflexivity | exact IH]. Qed.

Lemma sumSquares_of_nan (x : list float32) :
  nan ∈ x -> ml.sumSquares_of x = nan.
Proof.
  unfold ml.sumSquares_of. generalize zero as acc.
  induction x as [|v x IH]; intros acc Hin; [by apply elem_of_nil in Hin|].
  cbn [foldl]. apply elem_of_cons in Hin as [<-|Hin].
  - replace (add32 acc (mul32 nan nan)) with nan by (by destruct acc as [[]|[]| |[]]).
    apply sumSquares_of_nan_from.
  - by apply IH.
Qed.

(** X2. [L2Normalize] has no guard for a zero norm: every component of the
    result for an all-zero vector is NaN (zero over zero). A NaN anywhere in
    the argument likewise turns every component of the result into NaN. *)
Theorem L2Normalize_degenerate (x : list float32) :
  Forall (fun v => is_zero v = true) x \/ nan ∈ x ->
  ml.L2Normalize x = replicate (length x) nan.
Proof.
  intros Hx. unfold ml.L2Normalize.
  assert (Hdiv : exists norm,
            to32 (Sqrt (to64 (ml.sumSquares_of x))) = norm
            /\ forall v, v ∈ x -> div32 v norm = nan).
  { destruct Hx as [Hz|Hn].
    - rewrite (sumSquares_of_zeros x Hz). exists zero. split; [reflexivity|].
      intros v Hv. rewrite Forall_forall in Hz. specialize (Hz v Hv).
      destruct v as [s| | |]; try discriminate. by destruct s.
    - rewrite (sumSquares_of_nan x Hn). exists nan. split; [reflexivity|].
      intros v _. by destruct v as [[]|[]| |[]]. }
  destruct Hdiv as (norm & -> & Hdiv).
  apply fmap_constant. exact Hdiv.
Qed.

(** X24. [Sigmoid] saturates with the exponential: where [math.Exp]
    overflows to +Inf it is exactly 0, where [math.Exp] underflows to 0 it
    is exactly 1, and where [math.Exp] is NaN it is NaN. *)
Theorem Sigmoid_saturates (mathExp : float64 -> float64) (x : float32) :
  (mathExp (neg (to64 x)) = pos_inf -> ml.Sigmoid mathExp x = zero)
  /\ (mathExp (neg (to64 x)) = zero -> ml.Sigmoid mathExp x = of_int32 1)
  /\ (mathExp (neg (to64 x)) = nan -> ml.Sigmoid mathExp x = nan).
Proof.
  unfold ml.Sigmoid. repeat split; intros ->; vm_compute; reflexivity.
Qed.
End MoreNumeric.

(** * [TopK] on arbitrary values *)

Section MoreTopK.
Import SortContract.
Context (sortSlice : forall A : Type, (A -> A -> bool) -> list A -> list A).
Context (Hperm : forall (less : ml.indexedValue -> ml.indexedValue -> bool) l,
            sortSlice ml.indexedValue less l ≡ₚ l).

Lemma index_values_length (values : list float32) :
  length (ml.index_values values) = length values.
Proof. unfold ml.index_values. apply length_imap. Qed.

Lemma index_values_fst (values : list float32) :
  fst <$> ml.index_values values = Z.of_nat <$> seq 0 (length values).
Proof.
  apply list_eq. intros i. unfold ml.index_values.
  rewrite !list_lookup_fmap, list_lookup_imap.
  destruct (values !! i) as [v|] eqn:Hv; cbn.
  - apply lookup_lt_Some in Hv. by rewrite lookup_seq_lt.
  - apply lookup_ge_None in Hv. by rewrite lookup_seq_ge.
Qed.

Lemma TopK_returns (values : list float32) (k : Z) :
  (0 <= k)%Z ->
  ml.TopK sortSlice values k
  = Return (fst <$> take (Z.to_nat k)
                      (sortSlice ml.indexedValue ml.by_value (ml.index_values values))).
Proof.
  intros Hk. unfold ml.TopK.
  set (sorted := sortSlice ml.indexedValue ml.by_value (ml.index_values values)).
  assert (Hlen : length sorted = length values).
  { subst sorted. rewrite Hperm. apply index_values_length. }
  clearbody sorted.
  destruct (Z.gtb_spec k (Z.of_nat (length values))) as [Hgt|Hle].
  - assert (Hneg : (Z.of_nat (length values) <? 0)%Z = false) by (apply Z.ltb_ge; lia).
    rewrite Hneg. rewrite Nat2Z.id. do 2 f_equal.
    rewrite !take_ge; [reflexivity | lia | lia].
  - assert (Hneg : (k <? 0)%Z = false) by (apply Z.ltb_ge; lia).
    by rewrite Hneg.
Qed.

Lemma TopK_outcome (values : list float32) (k : Z) :
  ((k < 0)%Z -> ml.TopK sortSlice values k = Panic MakesliceLenOutOfRange)
  /\ ((0 <= k)%Z ->
      exists indices : list Z,
        ml.TopK sortSlice values k = Return indices
        /\ NoDup indices
        /\ Z.of_nat (length indices) = Z.min k (Z.of_nat (length values))
        /\ (forall i, i ∈ indices -> (0 <= i < Z.of_nat (length values))%Z)
        /\ ((Z.of_nat (length values) <= k)%Z ->
            indices ≡ₚ Z.of_nat <$> seq 0 (length values))).
Proof.
  split.
  { intros Hk. unfold ml.TopK.
    destruct (Z.gtb_spec k (Z.of_nat (length values))) as [Hgt|Hle]; [lia|].
    assert (Hneg : (k <? 0)%Z = true) by (apply Z.ltb_lt; lia). by rewrite Hneg. }
  intros Hk. rewrite (TopK_returns values k Hk). eexists. split; [reflexivity|].
  set (sorted := sortSlice ml.indexedValue ml.by_value (ml.index_values values)).
  assert (Hfst : fst <$> sorted ≡ₚ Z.of_nat <$> seq 0 (length values)).
  { subst sorted. rewrite Hperm. by rewrite index_values_fst. }
  assert (Hlen : length sorted = length values).
  { subst sorted. rewrite Hperm. apply index_values_length. }
  clearbody sorted.
  assert (Hnd : NoDup (fst <$> sorted)).
  { rewrite Hfst. apply NoDup_fmap_2; [apply _ | apply NoDup_seq]. }
  rewrite fmap_take.
  split; [|split; [|split]].
  - eapply sublist_NoDup; [exact Hnd | apply sublist_take].
  - rewrite length_take, length_fmap. unfold ml.indexedValue in *. lia.
  - intros i Hi.
    assert (Hin : i ∈ fst <$> sorted).
    { apply elem_of_take in Hi as (p & Hp & _). by apply list_elem_of_lookup_2 in Hp. }
    rewrite Hfst in Hin. apply list_elem_of_fmap in Hin as (j & -> & Hj).
    apply elem_of_seq in Hj. lia.
  - intros Hall. rewrite take_ge; [exact Hfst|].
    rewrite length_fmap. unfold ml.indexedValue in *. lia.
Qed.

(** X3. For every [k >= 0] and every values list, NaN or not, the indices
    [TopK] returns are pairwise distinct, lie within [values] and number
    [min(k, len(values))]; with [k >= len(values)] they are all the indices
    of [values]. A negative [k] panics. *)
Theorem TopK_distinct_indices (values : list float32) (k : Z) :
  ((k < 0)%Z -> ml.TopK sortSlice values k = Panic MakesliceLenOutOfRange)
  /\ ((0 <= k)%Z ->
      exists indices : list Z,
        ml.TopK sortSlice values k = Return indices
        /\ NoDup indices
        /\ Z.of_nat (length indices) = Z.min k (Z.of_nat (length values))
        /\ (forall i, i ∈ indices -> (0 <= i < Z.of_nat (length values))%Z)
        /\ ((Z.of_nat (length values) <= k)%Z ->
            indices ≡ₚ Z.of_nat <$> seq 0 (length values))).
Proof. apply TopK_outcome. Qed.

End MoreTopK.

Section MoreTopKOrder.
Import SortContract.

(** X4. When no value is NaN and [k >= 0], no index left out by [TopK]
    points at a value larger than one that was selected: the result holds
    the [k] largest values. *)
Theorem TopK_selects_largest
    (sortSlice : forall A : Type, (A -> A -> bool) -> list A -> list A)
    (values : list float32) (k : Z) :
  sorts sortSlice ->
  (0 <= k)%Z ->
  Forall (fun v => is_nan v = false) values ->
  exists indices : list Z,
    ml.TopK sortSlice values k = Return indices
    /\ forall (i : Z) (j : nat) (vj : float32),
         i ∈ indices -> Z.of_nat j ∉ indices -> values !! j = Some vj ->
         exists vi, values !! Z.to_nat i = Some vi /\ ge vi vj = true.
Proof.
  intros [Hperm Hord] Hk Hnn.
  rewrite (TopK_returns sortSlice (Hperm _) values k Hk).
  eexists. split; [reflexivity|].
  set (sorted := sortSlice ml.indexedValue ml.by_value (ml.index_values values)).
  assert (Hp : sorted ≡ₚ ml.index_values values) by apply Hperm.
  assert (Hs : StronglySorted (fun x y => ml.by_value y x = false) sorted).
  { apply (Hord _ ml.by_value). by apply by_value_strict_weak. }
  clearbody sorted.
  intros i j vj Hi Hj Hvj.
  apply list_elem_of_fmap in Hi as (x & -> & Hx).
  assert (Hjin : (Z.of_nat j, vj) ∈ sorted).
  { rewrite Hp. unfold ml.index_values. apply list_elem_of_lookup. exists j.
    by rewrite list_lookup_imap, Hvj. }
  rewrite <- (take_drop (Z.to_nat k) sorted) in Hjin, Hs.
  apply elem_of_app in Hjin as [Hjin|Hjin].
  { exfalso. apply Hj. apply list_elem_of_fmap. exists (Z.of_nat j, vj). by split. }
  pose proof (StronglySorted_app_1_elem_of _ _ _ _ _ Hs Hx Hjin) as Hxy.
  assert (Hxs : x ∈ ml.index_values values).
  { rewrite <- Hp. apply elem_of_take in Hx as (p & Hpx & _).
    by apply list_elem_of_lookup_2 in Hpx. }
  apply elem_of_index_values in Hxs as [_ Hvx].
  exists x.2. split; [exact Hvx|].
  rewrite Forall_forall in Hnn.
  apply not_gt_ge; [| |exact Hxy].
  - apply Hnn. by apply list_elem_of_lookup_2 in Hvx.
  - apply Hnn. by apply list_elem_of_lookup_2 in Hvj.
Qed.
End MoreTopKOrder.

(** * [ProcessClassification] *)

Section MoreSoftmax.
Context (mathExp : float64 -> float64).

Lemma exps_of_length (maxLogit : float32) (logits : list float32) :
  length (ml.exps_of mathExp maxLogit logits).1 = length logits.
Proof.
  unfold ml.exps_of.
  assert (H : forall acc : list float32 * float32,
            length (foldl (fun '(probs, sumExp) logit =>
                             let exp := to32 (mathExp (to64 (sub32 logit maxLogit))) in
                             (probs ++ [exp], add32 sumExp exp)) acc logits).1
            = length acc.1 + length logits).
  { induction logits as [|x l IH]; intros [probs s]; cbn [foldl fst].
    - cbn. lia.
    - rewrite IH. cbn [fst length]. rewrite length_app. cbn. lia. }
  rewrite H. reflexivity.
Qed.

Lemma Softmax_length (logits : list float32) :
  length (ml.Softmax mathExp logits) = length logits.
Proof.
  unfold ml.Softmax.
  pose proof (exps_of_length (ml.maxLogit_of logits) logits) as H.
  destruct (ml.exps_of _ _ _) as [probs s]. cbn [fst] in H.
  by rewrite length_fmap.
Qed.
End MoreSoftmax.

Section MoreClassification.
Import postprocess SortContract ClassifySpec.
Context (mathExp : float64 -> float64).
Context (sortSlice : forall A : Type, (A -> A -> bool) -> list A -> list A).

Lemma omap_cons_eq {A B : Type} (f : A -> option B) (x : A) (l : list A) :
  omap f (x :: l) = match f x with Some y => y :: omap f l | None => omap f l end.
Proof. reflexivity. Qed.

Lemma probabilities_of_length (logits : list float32) (opts : ClassificationOptions.t) :
  length (probabilities_of mathExp logits opts) = length logits.
Proof.
  unfold probabilities_of.
  destruct (ClassificationOptions.Softmax opts); [apply Softmax_length | reflexivity].
Qed.

Lemma classify_loop_omap (probabilities : list float32)
    (opts : ClassificationOptions.t) (indices : list Z) (acc : list Classification) :
  (forall idx, idx ∈ indices -> (0 <= idx < Z.of_nat (length probabilities))%Z) ->
  classify_loop probabilities opts indices acc
  = Done (acc ++ omap (classify_one probabilities opts) indices).
Proof.
  revert acc. induction indices as [|idx rest IH]; intros acc Hin.
  - cbn. by rewrite app_nil_r.
  - assert (Hidx : (0 <= idx < Z.of_nat (length probabilities))%Z) by (apply Hin; left).
    assert (Hrest : forall i, i ∈ rest -> (0 <= i < Z.of_nat (length probabilities))%Z).
    { intros i Hi. apply Hin. by right. }
    cbn [classify_loop].
    assert (Hneg : (idx <? 0)%Z = false) by (apply Z.ltb_ge; lia). rewrite Hneg.
    rewrite omap_cons_eq.
    unfold classify_one at 1.
    destruct (probabilities !! Z.to_nat idx) as [prob|] eqn:Hprob.
    2:{ apply lookup_ge_None in Hprob. unfold float32 in *. lia. }
    destruct (lt prob (ClassificationOptions.MinScore opts)); [by apply IH|].
    destruct (ClassificationOptions.Labels opts !! idx) as [label|]; [|by apply IH].
    rewrite IH by exact Hrest. by rewrite <- app_assoc.
Qed.

Lemma classify_one_Some (probabilities : list float32)
    (opts : ClassificationOptions.t) (idx : Z) (c : Classification) :
  classify_one probabilities opts idx = Some c ->
  Class c = idx
  /\ probabilities !! Z.to_nat idx = Some (Confidence c)
  /\ ClassificationOptions.Labels opts !! idx = Some (Label c)
  /\ lt (Confidence c) (ClassificationOptions.MinScore opts) = false.
Proof.
  unfold classify_one.
  destruct (probabilities !! Z.to_nat idx) as [prob|]; [|discriminate].
  destruct (lt prob (ClassificationOptions.MinScore opts)) eqn:Hlt; [discriminate|].
  destruct (ClassificationOptions.Labels opts !! idx) as [label|]; [|discriminate].
  intros [= <-]. cbn. auto.
Qed.

Lemma omap_classify_classes (probabilities : list float32)
    (opts : ClassificationOptions.t) (indices : list Z) :
  Class <$> omap (classify_one probabilities opts) indices `sublist_of` indices.
Proof.
  induction indices as [|idx rest IH]; [constructor|].
  rewrite omap_cons_eq. destruct (classify_one probabilities opts idx) as [c|] eqn:Hc.
  - apply classify_one_Some in Hc as (<- & _). rewrite fmap_cons.
    by apply sublist_skip.
  - by apply sublist_cons.
Qed.

Context (Hperm : forall (less : ml.indexedValue -> ml.indexedValue -> bool) l,
            sortSlice ml.indexedValue less l ≡ₚ l).

(** X5. [ProcessClassification] panics when [opts.TopK] is negative and
    otherwise returns with a nil error. Each classification it returns has
    a class index within the score vector, the score at that index as its
    confidence, which is not below [MinScore], and the label registered for
    the index; no class index appears twice, and there are at most
    [min(TopK, len(logits))] of them. *)
Theorem ProcessClassification_sound (logits : list float32)
    (opts : ClassificationOptions.t) :
  let probabilities := probabilities_of mathExp logits opts in
  ((ClassificationOptions.TopK opts < 0)%Z ->
   ProcessClassification mathExp sortSlice logits opts
   = Crash (RuntimePanic MakesliceLenOutOfRange))
  /\ ((0 <= ClassificationOptions.TopK opts)%Z ->
      exists classifications : list Classification,
        ProcessClassification mathExp sortSlice logits opts
        = Done (classifications, None)
        /\ (Z.of_nat (length classifications)
            <= Z.min (ClassificationOptions.TopK opts) (Z.of_nat (length logits)))%Z
        /\ NoDup (Class <$> classifications)
        /\ forall c : Classification, c ∈ classifications ->
             (0 <= Class c < Z.of_nat (length logits))%Z
             /\ probabilities !! Z.to_nat (Class c) = Some (Confidence c)
             /\ ClassificationOptions.Labels opts !! Class c = Some (Label c)
             /\ lt (Confidence c) (ClassificationOptions.MinScore opts) = false).
Proof.
  intros probabilities.
  pose proof (probabilities_of_length logits opts) as Hlen. fold probabilities in Hlen.
  destruct (TopK_outcome sortSlice Hperm probabilities
              (ClassificationOptions.TopK opts)) as [Hneg Hpos].
  unfold ProcessClassification. fold probabilities. split.
  - intros Hk. by rewrite (Hneg Hk).
  - intros Hk. destruct (Hpos Hk) as (indices & -> & Hnd & Hcount & Hrange & _).
    rewrite classify_loop_omap by exact Hrange. cbn [app].
    eexists. split; [reflexivity|].
    pose proof (omap_classify_classes probabilities opts indices) as Hsub.
    split; [|split].
    + apply sublist_length in Hsub. rewrite length_fmap in Hsub. lia.
    + eapply sublist_NoDup; eauto.
    + intros c Hc. apply list_elem_of_omap in Hc as (idx & Hidx & Hc).
      apply classify_one_Some in Hc as (<- & Hp & Hl & Hm).
      split; [|auto]. rewrite <- Hlen. by apply Hrange.
Qed.

(** X6. With [TopK >= len(logits)] nothing is cut off: every index that has
    a label and whose score is not below [MinScore] comes back, with that
    label and that score. *)
Theorem ProcessClassification_complete (logits : list float32)
    (opts : ClassificationOptions.t) :
  (Z.of_nat (length logits) <= ClassificationOptions.TopK opts)%Z ->
  exists classifications : list Classification,
    ProcessClassification mathExp sortSlice logits opts = Done (classifications, None)
    /\ forall (idx : nat) (prob : float32) (label : string),
         probabilities_of mathExp logits opts !! idx = Some prob ->
         ClassificationOptions.Labels opts !! Z.of_nat idx = Some label ->
         lt prob (ClassificationOptions.MinScore opts) = false ->
         {| Label := label; Class := Z.of_nat idx; Confidence := prob |}
           ∈ classifications.
Proof.
  intros Hk.
  pose proof (probabilities_of_length logits opts) as Hlen.
  destruct (TopK_outcome sortSlice Hperm (probabilities_of mathExp logits opts)
              (ClassificationOptions.TopK opts)) as [_ Hpos].
  destruct (Hpos ltac:(lia)) as (indices & Htop & _ & _ & Hrange & Hall).
  unfold ProcessClassification. rewrite Htop.
  rewrite classify_loop_omap by exact Hrange. cbn [app].
  eexists. split; [reflexivity|].
  intros idx prob label Hprob Hlabel Hmin.
  apply list_elem_of_omap. exists (Z.of_nat idx). split.
  - rewrite Hall by lia. apply list_elem_of_fmap. exists idx. split; [reflexivity|].
    apply elem_of_seq. apply lookup_lt_Some in Hprob. lia.
  - unfold classify_one. rewrite Nat2Z.id. unfold float32 in *.
    by rewrite Hprob, Hmin, Hlabel.
Qed.
End MoreClassification.

Section MoreClassificationOrder.
Import postprocess SortContract ClassifySpec.

Lemma omap_classify_sorted (probabilities : list float32)
    (opts : ClassificationOptions.t) (l : list ml.indexedValue) :
  StronglySorted (fun x y => ml.by_value y x = false) l ->
  (forall x, x ∈ l -> x ∈ ml.index_values probabilities) ->
  Forall (fun v => is_nan v = false) probabilities ->
  StronglySorted (fun a b : Classification => ge (Confidence a) (Confidence b) = true)
    (omap (classify_one probabilities opts) (fst <$> l)).
Proof.
  intros Hs Hin Hnn. rewrite Forall_forall in Hnn.
  induction Hs as [|a r Hs IH Hall]; [constructor|].
  rewrite fmap_cons, omap_cons_eq.
  assert (Hr : forall x, x ∈ r -> x ∈ ml.index_values probabilities).
  { intros x Hx. apply Hin. by right. }
  destruct (classify_one probabilities opts a.1) as [c|] eqn:Hc; [|by apply IH].
  apply SSorted_cons; [by apply IH|].
  apply Forall_forall. intros c' Hc'.
  apply list_elem_of_omap in Hc' as (idx & Hidx & Hc').
  apply list_elem_of_fmap in Hidx as (y & -> & Hy).
  apply classify_one_Some in Hc as (_ & Hpa & _).
  apply classify_one_Some in Hc' as (_ & Hpy & _).
  rewrite Forall_forall in Hall. specialize (Hall y Hy). unfold ml.by_value in Hall.
  destruct (elem_of_index_values probabilities a) as [_ Hva]; [apply Hin; left|].
  destruct (elem_of_index_values probabilities y) as [_ Hvy]; [by apply Hr|].
  rewrite Hva in Hpa. rewrite Hvy in Hpy.
  injection Hpa as <-. injection Hpy as <-.
  apply not_gt_ge; [| |exact Hall]; apply Hnn.
  - by apply list_elem_of_lookup_2 in Hva.
  - by apply list_elem_of_lookup_2 in Hvy.
Qed.

(** X7. When no score is NaN, the classifications [ProcessClassification]
    returns are in descending order of confidence. *)
Theorem ProcessClassification_descending
    (mathExp : float64 -> float64)
    (sortSlice : forall A : Type, (A -> A -> bool) -> list A -> list A)
    (logits : list float32) (opts : ClassificationOptions.t) :
  sorts sortSlice ->
  (0 <= ClassificationOptions.TopK opts)%Z ->
  Forall (fun v => is_nan v = false) (probabilities_of mathExp logits opts) ->
  exists classifications : list Classification,
    ProcessClassification mathExp sortSlice logits opts = Done (classifications, None)
    /\ StronglySorted
         (fun a b : Classification => ge (Confidence a) (Confidence b) = true)
         classifications.
Proof.
  intros [Hperm Hord] Hk Hnn.
  set (probabilities := probabilities_of mathExp logits opts) in *.
  unfold ProcessClassification. fold probabilities.
  destruct (TopK_outcome sortSlice (Hperm _) probabilities
              (ClassificationOptions.TopK opts)) as [_ Hpos].
  destruct (Hpos Hk) as (indices & Htop & _ & _ & Hrange & _).
  rewrite Htop. rewrite classify_loop_omap by exact Hrange. cbn [app].
  eexists. split; [reflexivity|].
  rewrite (TopK_returns sortSlice (Hperm _) probabilities _ Hk) in Htop.
  injection Htop as <-.
  set (sorted := sortSlice ml.indexedValue ml.by_value (ml.index_values probabilities)).
  assert (Hp : sorted ≡ₚ ml.index_values probabilities) by apply Hperm.
  assert (Hs : StronglySorted (fun x y => ml.by_value y x = false) sorted).
  { apply (Hord _ ml.by_value). by apply by_value_strict_weak. }
  clearbody sorted.
  apply omap_classify_sorted; [| |exact Hnn].
  - rewrite <- (take_drop (Z.to_nat (ClassificationOptions.TopK opts)) sorted) in Hs.
    by apply StronglySorted_app_1_l in Hs.
  - intros x Hx. rewrite <- Hp. apply elem_of_take in Hx as (p & Hpx & _).
    by apply list_elem_of_lookup_2 in Hpx.
Qed.
End MoreClassificationOrder.

(** * What [NonMaxSuppression] returns *)

Section MoreSuppression.
Import postprocess NMSSpec SortContract.

Lemma Forall2_lookup_shift {A : Type} (a : A) (l : list A) (off : nat)
    (sel : list nat) (res : list A) :
  Forall (fun i => S off <= i) sel ->
  Forall2 (fun i d => (a :: l) !! (i - off) = Some d) sel res ->
  Forall2 (fun i d => l !! (i - S off) = Some d) sel res.
Proof.
  intros Hge H2. induction H2 as [|i d sel res Hi H2 IH]; [constructor|].
  apply Forall_cons in Hge as [Hi' Hge].
  constructor; [|by apply IH].
  replace (i - off) with (S (i - S off)) in Hi by lia. exact Hi.
Qed.

Lemma lookup_sorted_sublist {A : Type} (l : list A) (off : nat)
    (sel : list nat) (res : list A) :
  StronglySorted Nat.lt sel ->
  Forall (fun i => off <= i) sel ->
  Forall2 (fun i d => l !! (i - off) = Some d) sel res ->
  res `sublist_of` l.
Proof.
  revert off sel res. induction l as [|a l IH]; intros off sel res Hs Hge H2.
  - destruct H2 as [|i d sel res Hi _]; [constructor | discriminate].
  - destruct H2 as [|i d sel res Hi H2]; [apply sublist_nil_l|].
    apply StronglySorted_cons in Hs as [Hlt Hs].
    apply Forall_cons in Hge as [Hi' Hge].
    destruct (decide (i = off)) as [->|Hne].
    + rewrite Nat.sub_diag in Hi. injection Hi as ->.
      apply sublist_skip. apply (IH (S off) sel res Hs).
      * eapply Forall_impl; [exact Hlt|]. cbv beta. lia.
      * apply (Forall2_lookup_shift d); [|exact H2].
        eapply Forall_impl; [exact Hlt|]. cbv beta. lia.
    + apply sublist_cons. apply (IH (S off) (i :: sel) (d :: res)).
      * by apply StronglySorted_cons.
      * apply Forall_cons. split; [lia|].
        eapply Forall_impl; [exact Hlt|]. cbv beta. lia.
      * apply (Forall2_lookup_shift a).
        -- apply Forall_cons. split; [lia|].
           eapply Forall_impl; [exact Hlt|]. cbv beta. lia.
        -- by constructor.
Qed.

Lemma StronglySorted_sublist {A : Type} (R : A -> A -> Prop) (l1 l2 : list A) :
  l1 `sublist_of` l2 -> StronglySorted R l2 -> StronglySorted R l1.
Proof.
  induction 1 as [|x l1 l2 Hsub IH|x l1 l2 Hsub IH]; intros Hs.
  - constructor.
  - apply StronglySorted_cons in Hs as [Hall Hs].
    apply StronglySorted_cons. split; [|by apply IH].
    apply Forall_forall. intros y Hy. rewrite Forall_forall in Hall.
    apply Hall. by apply (elem_of_sublist l1 l2).
  - apply StronglySorted_cons in Hs as [_ Hs]. by apply IH.
Qed.

(** The sweep keeps a sublist of the sorted slice, beginning with its first
    element. *)
Lemma sweep_sublist (sorted : list Detection) (iouThreshold : float32) :
  let kept :=
    (foldl (sweep_step sorted iouThreshold) (replicate (length sorted) false, [])
           (seq 0 (length sorted))).2 in
  kept `sublist_of` sorted /\ head kept = head sorted.
Proof.
  destruct (sweep_result sorted iouThreshold)
    as (sel & Hlen & Hres & Hsorted & Hbelow & Hkept & Hdone & Hpair).
  cbv zeta. set (st := foldl _ _ _) in *. clearbody st. split.
  - apply (lookup_sorted_sublist sorted 0 sel); [exact Hsorted| |].
    + apply Forall_forall. intros i _. lia.
    + eapply Forall2_impl; [exact Hres|]. intros i d Hi. by rewrite Nat.sub_0_r.
  - destruct sorted as [|d0 sorted]; cbn [length] in *.
    { apply Forall2_length in Hres. destruct sel as [|i sel].
      - by destruct (st.2).
      - apply Forall_cons in Hbelow as [Hi _]. lia. }
    assert (H0 : 0 ∈ sel).
    { assert (Hk : st.1 !!! 0 = true) by (apply Hdone; lia).
      apply Hkept in Hk as [H0|(i & _ & Hlt & _)]; [exact H0 | lia | lia]. }
    destruct sel as [|i sel]; [by apply elem_of_nil in H0|].
    assert (i = 0) as ->.
    { apply elem_of_cons in H0 as [->|H0]; [reflexivity|].
      apply StronglySorted_cons in Hsorted as [Hlt _].
      rewrite Forall_forall in Hlt. specialize (Hlt 0 H0). lia. }
    inversion Hres as [|i d sel' res Hi _ Hsel Hst]; subst.
    cbn in Hi. injection Hi as <-. reflexivity.
Qed.

Context (sortSlice : forall A : Type, (A -> A -> bool) -> list A -> list A).

Lemma NonMaxSuppression_sublist (detections : list Detection)
    (iouThreshold : float32) :
  result (NonMaxSuppression sortSlice detections iouThreshold)
    `sublist_of` detections_after (NonMaxSuppression sortSlice detections iouThreshold)
  /\ head (result (NonMaxSuppression sortSlice detections iouThreshold))
     = head (detections_after (NonMaxSuppression sortSlice detections iouThreshold)).
Proof.
  unfold NonMaxSuppression.
  destruct (decide (length detections = 0)) as [Hz|Hnz]; [by cbn|].
  set (sorted := sortSlice Detection by_confidence detections).
  destruct (sweep_sublist sorted iouThreshold) as [Hsub Hhead].
  cbv zeta in *. destruct (foldl _ _ _) as [marks kept].
  cbn [snd result detections_after] in *. by split.
Qed.

Lemma NonMaxSuppression_submseteq (detections : list Detection)
    (iouThreshold : float32) :
  (forall less l, sortSlice Detection less l ≡ₚ l) ->
  result (NonMaxSuppression sortSlice detections iouThreshold) ⊆+ detections
  /\ length (result (NonMaxSuppression sortSlice detections iouThreshold))
     <= length detections.
Proof.
  intros Hperm.
  destruct (NonMaxSuppression_sublist detections iouThreshold) as [Hsub _].
  assert (Hafter : detections_after (NonMaxSuppression sortSlice detections iouThreshold)
                   ≡ₚ detections).
  { unfold NonMaxSuppression.
    destruct (decide (length detections = 0)); [reflexivity|].
    destruct (foldl _ _ _). cbn [detections_after]. apply Hperm. }
  assert (Hms : result (NonMaxSuppression sortSlice detections iouThreshold)
                ⊆+ detections).
  { etrans; [by apply sublist_submseteq|]. by apply Permutation_submseteq. }
  split; [exact Hms|]. by apply submseteq_length.
Qed.

(** X8. [NonMaxSuppression] returns the detections it keeps in the order of
    the sorted slice, each at most as often as the input holds it: the
    result is a sublist of the slice as the call leaves it, hence never
    longer than the input. *)
Theorem NonMaxSuppression_returns_sublist (detections : list Detection)
    (iouThreshold : float32) :
  (forall less l, sortSlice Detection less l ≡ₚ l) ->
  let after := detections_after (NonMaxSuppression sortSlice detections iouThreshold) in
  let kept := result (NonMaxSuppression sortSlice detections iouThreshold) in
  kept `sublist_of` after
  /\ kept ⊆+ detections
  /\ length kept <= length detections.
Proof.
  intros Hperm. cbv zeta.
  destruct (NonMaxSuppression_sublist detections iouThreshold) as [Hsub _].
  destruct (NonMaxSuppression_submseteq detections iouThreshold Hperm) as [Hms Hlen].
  auto.
Qed.

(** X9. When no confidence is NaN, [NonMaxSuppression] returns its
    detections in descending order of confidence. *)
Theorem NonMaxSuppression_descending (detections : list Detection)
    (iouThreshold : float32) :
  sorts sortSlice ->
  Forall (fun d : Detection => is_nan (Confidence d) = false) detections ->
  ordered_by by_confidence (result (NonMaxSuppression sortSlice detections iouThreshold)).
Proof.
  intros Hsorts Hnn.
  destruct (NonMaxSuppression_sublist detections iouThreshold) as [Hsub _].
  destruct (NonMaxSuppression_slice_after sortSlice detections iouThreshold Hsorts)
    as (_ & Hord & _).
  eapply StronglySorted_sublist; [exact Hsub | by apply Hord].
Qed.

(** X10. On a non-empty input [NonMaxSuppression] always keeps the detection
    the sort puts first, and returns it first; when no confidence is NaN, no
    detection of the input has a higher confidence. *)
Theorem NonMaxSuppression_keeps_top (detections : list Detection)
    (iouThreshold : float32) :
  sorts sortSlice ->
  detections <> [] ->
  exists (top : Detection) (rest : list Detection),
    result (NonMaxSuppression sortSlice detections iouThreshold) = top :: rest
    /\ head (detections_after (NonMaxSuppression sortSlice detections iouThreshold))
       = Some top
    /\ top ∈ detections
    /\ (Forall (fun d : Detection => is_nan (Confidence d) = false) detections ->
        forall d : Detection, d ∈ detections ->
          ge (Confidence top) (Confidence d) = true).
Proof.
  intros Hsorts Hne.
  destruct (NonMaxSuppression_sublist detections iouThreshold) as [_ Hhead].
  destruct (NonMaxSuppression_slice_after sortSlice detections iouThreshold Hsorts)
    as (Hperm & Hord & _).
  destruct (detections_after (NonMaxSuppression sortSlice detections iouThreshold))
    as [|top after] eqn:Hafter.
  { apply Permutation_nil_l in Hperm. congruence. }
  destruct (result (NonMaxSuppression sortSlice detections iouThreshold))
    as [|top' rest] eqn:Hres; [discriminate|].
  cbn in Hhead. injection Hhead as ->.
  exists top, rest. split; [reflexivity|]. split; [reflexivity|]. split.
  { rewrite <- Hperm. left. }
  intros Hnn d Hd. specialize (Hord Hnn).
  apply StronglySorted_cons in Hord as [Hall _].
  rewrite Forall_forall in Hnn, Hall.
  rewrite <- Hperm in Hd. apply elem_of_cons in Hd as [->|Hd].
  - apply not_gt_ge; [| |apply gt_irrefl]; apply Hnn; rewrite <- Hperm; left.
  - apply not_gt_ge; [| |by apply Hall].
    + apply Hnn. rewrite <- Hperm. left.
    + apply Hnn. rewrite <- Hperm. by right.
Qed.
End MoreSuppression.

(** * What [ProcessDetections] returns *)

Section MoreDetections.
Import postprocess NMSSpec SortContract.
Context (mathExp : float64 -> float64).
Context (sortSlice : forall A : Type, (A -> A -> bool) -> list A -> list A).

Lemma argmax_loop_class (probs : list float32) (cnt a : nat) (st : float32 * Z) :
  let st' := foldl (argmax_step probs) st (seq a cnt) in
  st'.2 = st.2 \/ (Z.of_nat a <= st'.2 < Z.of_nat (a + cnt))%Z.
Proof.
  revert a st. induction cnt as [|cnt IH]; intros a st; cbn [seq foldl]; [by left|].
  destruct (IH (S a) (argmax_step probs st a)) as [Heq|Hr].
  - cbv zeta in *. rewrite Heq. unfold argmax_step.
    destruct (probs !! a) as [p|]; [|by left].
    destruct (gt p st.1); [|by left]. right. cbn. lia.
  - right. cbv zeta in *. lia.
Qed.

Lemma decode_Some (logits boxes : list float32) (imageSize : Point)
    (opts : DetectionOptions) (numClasses i : nat) (d : Detection) :
  decode mathExp logits boxes imageSize opts numClasses i = Some d ->
  Labels opts !! Class d = Some (Label d)
  /\ lt (Confidence d) (ConfThreshold opts) = false
  /\ (Class d = 0 \/ 0 <= Class d < Z.of_nat numClasses)%Z.
Proof.
  unfold decode.
  pose proof (argmax_loop_class
                (ml.Softmax mathExp (take numClasses (drop (i * numClasses) logits)))
                numClasses 0 (zero, 0%Z)) as Hcls.
  cbv zeta in Hcls.
  destruct (foldl _ _ _) as [maxProb maxClass]. cbn [fst snd] in Hcls.
  destruct (lt maxProb (ConfThreshold opts)) eqn:Hlt; [discriminate|].
  destruct (Labels opts !! maxClass) as [label|] eqn:Hlabel; [|discriminate].
  destruct (take 4 (drop (i * 4) boxes)) as [|b0 [|b1 [|b2 [|b3 [|? ?]]]]];
    try discriminate.
  intros [= <-]. cbn. split; [exact Hlabel|]. split; [exact Hlt|].
  destruct Hcls as [->|Hr]; [by left | right; lia].
Qed.

Lemma decode_all_spec (logits boxes : list float32) (imageSize : Point)
    (opts : DetectionOptions) (numBoxes numClasses : nat) :
  length (decode_all mathExp logits boxes imageSize opts numBoxes numClasses) <= numBoxes
  /\ forall d : Detection,
       d ∈ decode_all mathExp logits boxes imageSize opts numBoxes numClasses ->
       exists i, decode mathExp logits boxes imageSize opts numClasses i = Some d.
Proof.
  unfold decode_all.
  assert (H : forall (idxs : list nat) (acc : list Detection),
            let out := foldl (fun detections i =>
                         match decode mathExp logits boxes imageSize opts numClasses i with
                         | Some detection => detections ++ [detection]
                         | None => detections
                         end) acc idxs in
            length out <= length acc + length idxs
            /\ forall d : Detection, d ∈ out ->
                 d ∈ acc \/ exists i, decode mathExp logits boxes imageSize opts numClasses i
                                      = Some d).
  { induction idxs as [|i idxs IH]; intros acc; cbn [foldl].
    - cbv zeta. split; [cbn; lia | auto].
    - cbv zeta in *.
      destruct (decode mathExp logits boxes imageSize opts numClasses i) as [d0|] eqn:Hd.
      + destruct (IH (acc ++ [d0])) as [Hl Hin]. split.
        * rewrite length_app in Hl. cbn in *. lia.
        * intros d Hdin. destruct (Hin d Hdin) as [Ha|He]; [|by right].
          apply elem_of_app in Ha as [Ha|Ha]; [by left|].
          apply list_elem_of_singleton in Ha as ->. right. eauto.
      + destruct (IH acc) as [Hl Hin]. split; [cbn; lia | exact Hin]. }
  destruct (H (seq 0 numBoxes) []) as [Hl Hin]. cbv zeta in *. split.
  - rewrite length_seq in Hl. cbn in Hl. lia.
  - intros d Hd. destruct (Hin d Hd) as [Hnil|He]; [by apply elem_of_nil in Hnil | exact He].
Qed.

(** X11. [ProcessDetections] panics (integer division by zero) when [boxes]
    holds fewer than four numbers, and otherwise returns with a nil error
    at most one detection per box. Every detection returned carries the
    label registered for its class index and a confidence that is not below
    [ConfThreshold]; its class index is 0 or below the number of classes. *)
Theorem ProcessDetections_outcome (logits boxes : list float32)
    (imageSize : Point) (opts : DetectionOptions) :
  (forall less l, sortSlice Detection less l ≡ₚ l) ->
  (length boxes < 4 ->
   ProcessDetections mathExp sortSlice logits boxes imageSize opts
   = Panic IntegerDivideByZero)
  /\ (4 <= length boxes ->
      exists detections : list Detection,
        ProcessDetections mathExp sortSlice logits boxes imageSize opts
        = Return (detections, None)
        /\ length detections <= length boxes / 4
        /\ forall d : Detection, d ∈ detections ->
             Labels opts !! Class d = Some (Label d)
             /\ lt (Confidence d) (ConfThreshold opts) = false
             /\ (Class d = 0
                 \/ 0 <= Class d < Z.of_nat (length logits / (length boxes / 4)))%Z).
Proof.
  intros Hperm. unfold ProcessDetections. split.
  - intros Hlt. rewrite (Nat.div_small _ 4 Hlt).
    by destruct (decide (0 = 0)).
  - intros Hge.
    assert (Hnz : length boxes / 4 <> 0).
    { pose proof (Nat.div_str_pos (length boxes) 4). lia. }
    destruct (decide (length boxes / 4 = 0)) as [Hz|_]; [contradiction|].
    eexists. split; [reflexivity|].
    set (decoded := decode_all mathExp logits boxes imageSize opts
                      (length boxes / 4) (length logits / (length boxes / 4))).
    destruct (decode_all_spec logits boxes imageSize opts
                (length boxes / 4) (length logits / (length boxes / 4))) as [Hl Hin].
    fold decoded in Hl, Hin.
    destruct (NonMaxSuppression_submseteq sortSlice decoded
                (IoUThreshold opts) Hperm) as (Hms & Hlen).
    split; [lia|].
    intros d Hd. destruct (Hin d) as [i Hi]; [by eapply elem_of_submseteq|].
    by apply decode_Some in Hi.
Qed.
End MoreDetections.

(** * Ids and tokens of [Encode] *)

Section MoreEncode.
Import tokenizer.

Lemma lookup_step_consistent (vocab : gmap string Z) (unk : string)
    (P : string -> Prop) (wp : list string) (st : list Z * list string) :
  P unk -> (forall tok, is_Some (vocab !! tok) -> P tok) ->
  Forall2 (fun id tok => id = default 0%Z (vocab !! tok)) st.1 st.2 ->
  Forall P st.2 ->
  Forall2 (fun id tok => id = default 0%Z (vocab !! tok))
    (foldl (lookup_step vocab unk) st wp).1 (foldl (lookup_step vocab unk) st wp).2
  /\ Forall P (foldl (lookup_step vocab unk) st wp).2.
Proof.
  intros Hunk Hkey. revert st.
  induction wp as [|w wp IH]; intros st H2 HP; cbn [foldl]; [by split|].
  apply IH; unfold lookup_step; destruct (vocab !! w) as [id|] eqn:Hw; cbn [fst snd].
  - apply Forall2_app; [exact H2|]. repeat constructor. by rewrite Hw.
  - apply Forall2_app; [exact H2|]. by repeat constructor.
  - apply Forall_app. split; [exact HP|]. repeat constructor. apply Hkey. by rewrite Hw.
  - apply Forall_app. split; [exact HP|]. by repeat constructor.
Qed.

Lemma with_specials_consistent (vocab : gmap string Z) (st : SpecialTokens)
    (P : string -> Prop) (wp : list string) :
  P (CLS st) -> P (UNK st) -> P (SEP st) ->
  (forall tok, is_Some (vocab !! tok) -> P tok) ->
  Forall2 (fun id tok => id = default 0%Z (vocab !! tok))
    (with_specials vocab st wp).1 (with_specials vocab st wp).2
  /\ Forall P (with_specials vocab st wp).2.
Proof.
  intros Hcls Hunk Hsep Hkey. unfold with_specials.
  destruct (lookup_step_consistent vocab (UNK st) P wp
              ([default 0%Z (vocab !! CLS st)], [CLS st]) Hunk Hkey) as [H2 HP].
  { by repeat constructor. }
  { by repeat constructor. }
  destruct (foldl _ _ wp) as [ids toks]. cbn [fst snd] in *. split.
  - apply Forall2_app; [exact H2 | by repeat constructor].
  - apply Forall_app. split; [exact HP | by repeat constructor].
Qed.

(** What [assemble] returns is consistent position by position. *)
Lemma assemble_consistent (vocab : gmap string Z) (st : SpecialTokens)
    (P : string -> Prop) (wp : list string) (maxLength : Z)
    (out : TokenizerOutput) (err : error) :
  P (CLS st) -> P (UNK st) -> P (SEP st) -> P (PAD st) ->
  (forall tok, is_Some (vocab !! tok) -> P tok) ->
  assemble vocab st wp maxLength = Return (out, err) ->
  Forall2 (fun id tok => id = default 0%Z (vocab !! tok)) (InputIds out) (Tokens out)
  /\ Forall P (Tokens out).
Proof.
  intros Hcls Hunk Hsep Hpad Hkey Hrun.
  destruct (Z_lt_le_dec maxLength 0) as [Hneg|Hpos].
  { by rewrite assemble_panics in Hrun. }
  rewrite assemble_returns in Hrun by exact Hpos. injection Hrun as <- <-.
  cbn [InputIds Tokens].
  destruct (with_specials_consistent vocab st P wp Hcls Hunk Hsep Hkey) as [H2 HP].
  split.
  - apply Forall2_app; [by apply Forall2_take|].
    apply Forall2_replicate. reflexivity.
  - apply Forall_app. split; [by apply Forall_take|].
    by apply Forall_replicate.
Qed.

Section WithCase.
Variable ToLower : string -> string.
Variable ToUpper : string -> string.

(** X12. In what [Tokenizer.Encode] and [BERTTokenizer.Encode] return, the
    id at each position is the vocabulary id of the token at that position
    (0 when the token is not in the vocabulary), and every token is a
    vocabulary entry or one of the four special tokens [CLS], [UNK], [SEP],
    [PAD]. *)
Theorem Encode_ids_match_tokens (text : string) (maxLength : Z)
    (out : TokenizerOutput) (err : error) :
  (forall t : Tokenizer,
     Encode ToLower t text maxLength = Return (out, err) ->
     Forall2 (fun id tok => id = default 0%Z (Vocab t !! tok))
       (InputIds out) (Tokens out)
     /\ Forall (fun tok => is_Some (Vocab t !! tok)
                           \/ tok ∈ ["[CLS]"; "[UNK]"; "[SEP]"; "[PAD]"])
          (Tokens out))
  /\ (forall t : BERTTokenizer,
        BERT_Encode ToLower ToUpper t text maxLength = Return (out, err) ->
        Forall2 (fun id tok => id = default 0%Z (vocab t !! tok))
          (InputIds out) (Tokens out)
        /\ Forall (fun tok => is_Some (vocab t !! tok)
                              \/ tok ∈ [CLS (specialTokens t); UNK (specialTokens t);
                                        SEP (specialTokens t); PAD (specialTokens t)])
             (Tokens out)).
Proof.
  split; intros t Hrun.
  - unfold Encode in Hrun.
    eapply (assemble_consistent _ _ _ _ _ _ _ _ _ _ _ _ Hrun).
  - unfold BERT_Encode in Hrun.
    eapply (assemble_consistent _ _ _ _ _ _ _ _ _ _ _ _ Hrun).
  Unshelve.
  all: cbn; try (intros tok Htok; by left); right; set_solver.
Qed.

(** X13. [BERTTokenizer.Encode] fixes the length like [Tokenizer.Encode]
    does: for [maxLength >= 0] it returns, with a nil error, ids, mask and
    tokens of length [maxLength] each, the mask being 1 on the first
    [min(len(pieces) + 2, maxLength)] positions and 0 on the padding; a
    negative [maxLength] panics. *)
Theorem BERT_Encode_length_and_mask (t : BERTTokenizer) (text : string)
    (maxLength : Z) :
  ((maxLength < 0)%Z ->
   BERT_Encode ToLower ToUpper t text maxLength = Panic SliceBoundsOutOfRange)
  /\ ((0 <= maxLength)%Z ->
      exists out : TokenizerOutput,
        BERT_Encode ToLower ToUpper t text maxLength = Return (out, None)
        /\ length (InputIds out) = Z.to_nat maxLength
        /\ length (AttentionMask out) = Z.to_nat maxLength
        /\ length (Tokens out) = Z.to_nat maxLength
        /\ let n := (length (bert_wordpieces ToLower ToUpper t text) + 2)
                      `min` Z.to_nat maxLength in
           AttentionMask out = replicate n 1%Z ++ replicate (Z.to_nat maxLength - n) 0%Z
           /\ drop n (Tokens out)
              = replicate (Z.to_nat maxLength - n) (PAD (specialTokens t))
           /\ drop n (InputIds out)
              = replicate (Z.to_nat maxLength - n)
                  (default 0%Z (vocab t !! PAD (specialTokens t)))).
Proof.
  unfold BERT_Encode. split.
  - intros Hneg. by apply assemble_panics.
  - intros Hpos.
    pose proof (with_specials_lengths (vocab t) (specialTokens t)
                  (bert_wordpieces ToLower ToUpper t text)) as [Hl1 Hl2].
    rewrite assemble_returns by exact Hpos.
    eexists. split; [reflexivity|].
    cbn [InputIds AttentionMask Tokens]. rewrite Hl1.
    rewrite !length_app, !length_replicate, !length_take.
    split; [lia|]. split; [lia|]. split; [lia|]. cbv zeta.
    split; [reflexivity|]. split.
    + rewrite drop_app_length'; [reflexivity|]. rewrite length_take. lia.
    + rewrite drop_app_length'; [reflexivity|]. rewrite length_take. lia.
Qed.
End WithCase.
End MoreEncode.

(** * Special tokens *)

Section MoreSpecialTokens.
Import tokenizer.

Section WithCase.
Variable ToLower : string -> string.
Variable ToUpper : string -> string.

Lemma SpecialTokenMap_lookup (st : SpecialTokens) (key canonical : string) :
  SpecialTokenMap ToUpper st !! key = Some canonical ->
  canonical ∈ [PAD st; UNK st; CLS st; SEP st; MASK st] /\ ToUpper canonical = key.
Proof.
  unfold SpecialTokenMap. intros H.
  repeat (apply lookup_insert_Some in H as [[<- <-]|[_ H]]; [split; [set_solver | reflexivity]|]).
  by rewrite lookup_empty in H.
Qed.

Lemma SpecialTokenMap_None (st : SpecialTokens) (key : string) :
  SpecialTokenMap ToUpper st !! key = None ->
  forall s, s ∈ [PAD st; UNK st; CLS st; SEP st; MASK st] -> ToUpper s <> key.
Proof.
  unfold SpecialTokenMap. intros H s Hs.
  apply lookup_insert_None in H as [H Hmask].
  apply lookup_insert_None in H as [H Hsep].
  apply lookup_insert_None in H as [H Hcls].
  apply lookup_insert_None in H as [H Hunk].
  apply lookup_insert_None in H as [_ Hpad].
  repeat (apply elem_of_cons in Hs as [->|Hs]); try assumption.
  by apply elem_of_nil in Hs.
Qed.

(** X14. [IsSpecialToken] compares in upper case: when it answers true, the
    string it returns is one of the five special tokens and has the upper
    case of the argument; it answers false, with the empty string, exactly
    when no special token has the upper case of the argument. *)
Theorem IsSpecialToken_upper_case (st : SpecialTokens) (token : string) :
  (forall canonical, IsSpecialToken ToUpper st token = (canonical, true) ->
     canonical ∈ [PAD st; UNK st; CLS st; SEP st; MASK st]
     /\ ToUpper canonical = ToUpper token)
  /\ (forall canonical, IsSpecialToken ToUpper st token = (canonical, false) ->
        canonical = EmptyString)
  /\ ((IsSpecialToken ToUpper st token).2 = false <->
      forall s, s ∈ [PAD st; UNK st; CLS st; SEP st; MASK st] ->
                ToUpper s <> ToUpper token).
Proof.
  unfold IsSpecialToken.
  destruct (SpecialTokenMap ToUpper st !! ToUpper token) as [c|] eqn:Hc.
  - apply SpecialTokenMap_lookup in Hc as [Hin Hup].
    split; [|split].
    + by intros canonical [= <-].
    + intros canonical. discriminate.
    + cbn. split; [discriminate|]. intros Hno. exfalso. by apply (Hno c).
  - split; [|split].
    + intros canonical. discriminate.
    + by intros canonical [= <-].
    + cbn. split; [|reflexivity]. intros _. by apply SpecialTokenMap_None.
Qed.
End WithCase.

(** ASCII case mapping leaves the brackets alone. *)
Lemma upper_byte_not_letter (c : ascii) (n : nat) :
  n < 256 -> ~ (65 <= n <= 90) ->
  GoLib.upper_byte c = ascii_of_nat n -> c = ascii_of_nat n.
Proof.
  intros Hn Hnot. unfold GoLib.upper_byte, byte_in.
  destruct (_ && _) eqn:Hb; [|auto].
  apply andb_true_iff in Hb as [H1 H2].
  apply Nat.leb_le in H1, H2. intros Heq.
  apply (f_equal nat_of_ascii) in Heq.
  rewrite !nat_ascii_embedding in Heq by lia. lia.
Qed.

Lemma asciiToUpper_cons_inv (token : string) (c : ascii) (s : string) :
  GoLib.asciiToUpper token = String c s ->
  exists c' token', token = String c' token' /\ GoLib.upper_byte c' = c
                    /\ GoLib.asciiToUpper token' = s.
Proof.
  destruct token as [|c' token']; [discriminate|].
  cbn. intros [= <- <-]. eauto.
Qed.

Lemma asciiToUpper_nil_inv (token : string) :
  GoLib.asciiToUpper token = EmptyString -> token = EmptyString.
Proof. by destruct token. Qed.

Lemma string_length_app (a b : string) :
  String.length (a +:+ b) = String.length a + String.length b.
Proof. induction a as [|c a IH]; simpl; [reflexivity | by rewrite IH]. Qed.

Lemma substring_drop_app (pre suf : string) :
  String.substring (String.length pre) (String.length suf) (pre +:+ suf) = suf.
Proof.
  induction pre as [|c pre IH].
  - change (EmptyString +:+ suf) with suf. apply substring_all.
  - exact IH.
Qed.

Lemma HasSuffix_app (pre suf : string) : HasSuffix (pre +:+ suf) suf = true.
Proof.
  unfold HasSuffix, slice. rewrite string_length_app.
  replace (String.length pre + String.length suf - String.length suf)
    with (String.length pre) by lia.
  replace (String.length pre + String.length suf - String.length pre)
    with (String.length suf) by lia.
  rewrite substring_drop_app, String.eqb_refl, andb_true_r.
  apply Nat.leb_le. lia.
Qed.

Lemma asciiToUpper_closing_inv (r b : string) :
  GoLib.asciiToUpper r = b +:+ "]" -> exists r0, r = r0 +:+ "]".
Proof.
  revert r. induction b as [|x b IH]; intros r Hr; cbn in Hr.
  - apply asciiToUpper_cons_inv in Hr as (c & r' & -> & Hc & Hr').
    apply asciiToUpper_nil_inv in Hr' as ->.
    apply (upper_byte_not_letter c 93) in Hc; [|lia|lia]. subst c.
    by exists EmptyString.
  - apply asciiToUpper_cons_inv in Hr as (c & r' & -> & _ & Hr').
    destruct (IH r' Hr') as [r0 ->]. by exists (String c r0).
Qed.

Lemma bracketed_of_upper (token body : string) :
  GoLib.asciiToUpper token = String "[" (body +:+ "]") ->
  HasPrefix token "[" && HasSuffix token "]" = true.
Proof.
  intros H. apply asciiToUpper_cons_inv in H as (c & rest & -> & Hc & Hrest).
  apply (upper_byte_not_letter c 91) in Hc; [|lia|lia]. subst c.
  destruct (asciiToUpper_closing_inv rest body Hrest) as [r0 ->].
  assert (Hsuf : HasSuffix (String "[" (r0 +:+ "]")) "]" = true)
    by apply (HasSuffix_app (String "[" r0) "]").
  change (ascii_of_nat 91) with "["%char.
  rewrite Hsuf, andb_true_r. unfold HasPrefix. simpl.
  by destruct (r0 +:+ "]").
Qed.

(** X15. With the default special tokens and ASCII case mapping, a coarse
    token that spells a special token in any mix of cases (["[mask]"],
    ["[Cls]"], ...) makes the first loop of [BERTTokenizer.Encode] append
    the canonical spelling. *)
Theorem bert_pieces_step_canonical (t : BERTTokenizer)
    (wordpieceTokens : list string) (token special : string) :
  specialTokens t = DefaultSpecialTokens ->
  special ∈ ["[PAD]"; "[UNK]"; "[CLS]"; "[SEP]"; "[MASK]"] ->
  GoLib.asciiToUpper token = special ->
  bert_pieces_step GoLib.asciiToLower GoLib.asciiToUpper t wordpieceTokens token
  = wordpieceTokens ++ [special].
Proof.
  intros Hst Hin Hup. unfold bert_pieces_step. rewrite Hst.
  assert (Hbr : HasPrefix token "[" && HasSuffix token "]" = true).
  { repeat (apply elem_of_cons in Hin as [->|Hin]);
      [..|by apply elem_of_nil in Hin].
    - by apply (bracketed_of_upper token "PAD").
    - by apply (bracketed_of_upper token "UNK").
    - by apply (bracketed_of_upper token "CLS").
    - by apply (bracketed_of_upper token "SEP").
    - by apply (bracketed_of_upper token "MASK"). }
  rewrite Hbr. unfold IsSpecialToken. rewrite Hup.
  repeat (apply elem_of_cons in Hin as [->|Hin]);
    [..|by apply elem_of_nil in Hin]; vm_compute; reflexivity.
Qed.
End MoreSpecialTokens.

(** * What the token pattern keeps *)

Section MorePattern.
Import tokenizer PatternSpec.

Lemma span_app (p : ascii -> bool) (s tok rest : string) :
  span p s = (tok, rest) -> s = tok +:+ rest.
Proof.
  revert tok rest. induction s as [|c s IH]; intros tok rest; cbn [span].
  - by intros [= <- <-].
  - destruct (p c).
    + destruct (span p s) as [tok' rest']. intros [= <- <-].
      change (String c tok' +:+ rest') with (String c (tok' +:+ rest')).
      f_equal. by apply IH.
    + by intros [= <- <-].
Qed.

Lemma string_app_cons (x : ascii) (a b : string) :
  String x a +:+ b = String x (a +:+ b).
Proof. reflexivity. Qed.

Lemma string_app_assoc (a b c : string) : (a +:+ b) +:+ c = a +:+ (b +:+ c).
Proof.
  induction a as [|x a IH]; [reflexivity|].
  by rewrite !string_app_cons, IH.
Qed.

Lemma span_head (p : ascii -> bool) (c : ascii) (s : string) :
  p c = true -> exists tok rest, span p (String c s) = (String c tok, rest).
Proof.
  intros Hp. cbn [span]. rewrite Hp. destruct (span p s) as [tok rest]. eauto.
Qed.

Lemma word_not_space (c : ascii) : is_word c = true -> is_space c = false.
Proof.
  unfold is_word, is_space, byte_in. intros H.
  repeat (apply orb_true_iff in H as [H|H]);
    apply andb_true_iff in H as [H1 H2]; apply Nat.leb_le in H1, H2;
    repeat (apply orb_false_iff; split); apply andb_false_iff;
    rewrite !Nat.leb_gt; lia.
Qed.

Lemma match_run_Some (p : ascii -> bool) (s tok rest : string) :
  match_run p s = Some (tok, rest) ->
  s = tok +:+ rest /\ exists c tok', tok = String c tok' /\ p c = true.
Proof.
  unfold match_run. destruct (span p s) as [tok0 rest0] eqn:Hs.
  destruct tok0 as [|c tok0]; [discriminate|]. intros [= <- <-].
  split; [by apply (span_app p)|]. exists c, tok0. split; [reflexivity|].
  destruct s as [|c' s]; cbn [span] in Hs; [discriminate|].
  destruct (p c') eqn:Hp; [|discriminate].
  destruct (span p s). by injection Hs as <- _ _.
Qed.

Lemma match_bracketed_Some (s tok rest : string) :
  match_bracketed s = Some (tok, rest) ->
  s = tok +:+ rest /\ exists c tok', tok = String c tok' /\ is_space c = false.
Proof.
  unfold match_bracketed. destruct s as [|c s]; [discriminate|].
  destruct (byte_in 91 91 c) eqn:Hc; [|discriminate].
  destruct (span _ s) as [body rest'] eqn:Hs. apply span_app in Hs.
  destruct body as [|b body]; [discriminate|].
  destruct rest' as [|c' rest']; [discriminate|].
  destruct (byte_in 93 93 c'); [|discriminate].
  intros [= <- <-]. split.
  - subst s.
    rewrite (string_app_cons c), string_app_assoc. reflexivity.
  - eexists _, _. split; [reflexivity|].
    unfold is_space, byte_in in *. apply andb_true_iff in Hc as [H1 H2].
    apply Nat.leb_le in H1, H2.
    repeat (apply orb_false_iff; split); apply andb_false_iff;
      rewrite !Nat.leb_gt; lia.
Qed.

Lemma match_here_Some (s tok rest : string) :
  match_here s = Some (tok, rest) ->
  s = tok +:+ rest /\ exists c tok', tok = String c tok' /\ is_space c = false.
Proof.
  unfold match_here.
  destruct (match_bracketed s) as [[t r]|] eqn:Hb.
  { intros [= <- <-]. by apply match_bracketed_Some. }
  destruct (match_run is_word s) as [[t r]|] eqn:Hw.
  { intros [= <- <-]. apply match_run_Some in Hw as (? & c & tok' & ? & Hc).
    split; [assumption|]. exists c, tok'. split; [assumption|].
    by apply word_not_space. }
  intros Hp. apply match_run_Some in Hp as (? & c & tok' & ? & Hc).
  split; [assumption|]. exists c, tok'. split; [assumption|].
  unfold is_punct in Hc. apply negb_true_iff, orb_false_iff in Hc. tauto.
Qed.

Lemma match_here_None (c : ascii) (s : string) :
  match_here (String c s) = None -> is_space c = true.
Proof.
  unfold match_here.
  destruct (match_bracketed (String c s)); [discriminate|].
  destruct (is_word c) eqn:Hw.
  { destruct (span_head is_word c s Hw) as (tok & rest & Hs).
    unfold match_run. rewrite Hs. discriminate. }
  destruct (match_run is_word (String c s)); [discriminate|].
  destruct (is_space c) eqn:Hsp; [reflexivity|].
  assert (Hp : is_punct c = true) by (unfold is_punct; by rewrite Hw, Hsp).
  destruct (span_head is_punct c s Hp) as (tok & rest & Hs).
  unfold match_run. rewrite Hs. discriminate.
Qed.

Lemma non_space_app (a b : string) :
  non_space (a +:+ b) = non_space a +:+ non_space b.
Proof.
  induction a as [|c a IH]; [reflexivity|].
  rewrite string_app_cons. cbn [non_space].
  destruct (is_space c); [exact IH|]. by rewrite string_app_cons, IH.
Qed.

Lemma FindAllString_from_spec (fuel : nat) (s : string) :
  String.length s <= fuel ->
  non_space (joined (FindAllString_from fuel s)) = non_space s
  /\ Forall (fun tok => exists c tok', tok = String c tok' /\ is_space c = false)
       (FindAllString_from fuel s).
Proof.
  revert s. induction fuel as [|fuel IH]; intros s Hlen.
  - destruct s; [|simpl in Hlen; lia]. split; [reflexivity | constructor].
  - cbn [FindAllString_from]. destruct s as [|c s]; [split; [reflexivity | constructor]|].
    destruct (match_here (String c s)) as [[tok rest]|] eqn:Hm.
    + pose proof (match_here_shorter _ _ _ Hm) as Hshort.
      apply match_here_Some in Hm as [Heq Htok].
      destruct (IH rest) as [Hj Hall]; [simpl in *; lia|].
      split; [|by constructor].
      unfold joined in *. cbn [foldr]. rewrite Heq, !non_space_app. by rewrite Hj.
    + apply match_here_None in Hm.
      destruct (IH s) as [Hj Hall]; [simpl in Hlen; lia|].
      split; [|exact Hall]. cbn [non_space]. by rewrite Hm.
Qed.

(** X16. The tokens [FindAllString] cuts out of a text lose nothing but
    white space: written one after the other and stripped of white space
    they are the text stripped of white space. No token is empty or begins
    with white space. *)
Theorem FindAllString_keeps_all_but_space (text : string) :
  non_space (joined (FindAllString text)) = non_space text
  /\ Forall (fun tok => exists c tok', tok = String c tok' /\ is_space c = false)
       (FindAllString text).
Proof. apply FindAllString_from_spec. reflexivity. Qed.
End MorePattern.

(** * Pieces and mask positions *)

Section MoreWordPiece.
Import tokenizer WordPieceSpec.

Lemma greedy_pieces (vocab : gmap string Z) (word : string) (start : nat)
    (pieces : list string) :
  greedy vocab word start pieces ->
  Forall (fun p => has_key vocab p = true) pieces
  /\ length pieces <= String.length word - start
  /\ (pieces = [] -> String.length word <= start).
Proof.
  induction 1 as [start Hend | start e ps (Hr & Hin & _) Hg (IH1 & IH2 & _)].
  - split; [constructor|]. split; [cbn; lia | auto].
  - split; [by constructor|]. split; [cbn; lia | discriminate].
Qed.

Lemma wordPiece_loop_pieces (vocab : gmap string Z) (unk word : string) :
  let pieces := wordPiece_loop (S (String.length word)) vocab unk word 0 [] in
  (pieces = [unk] \/ Forall (fun p => has_key vocab p = true) pieces)
  /\ length pieces <= Nat.max 1 (String.length word)
  /\ (pieces = [] <-> word = EmptyString).
Proof.
  cbv zeta.
  destruct (wordPiece_loop_scan vocab word unk (S (String.length word)) 0 [])
    as [[Hst ->]|(ps & Hg & ->)]; [lia| |].
  - split; [by left|]. split; [cbn; lia|]. split; [discriminate|].
    intros ->. inversion Hst as [s Hlt | s e (Hr & _) _]; subst; cbn in *; lia.
  - cbn [app]. apply greedy_pieces in Hg as Hp. destruct Hp as (Hall & Hlen & Hnil).
    split; [by right|]. split; [lia|]. split.
    + intros ->. specialize (Hnil eq_refl). destruct word; [reflexivity | cbn in Hnil; lia].
    + intros ->. inversion Hg as [s Hend | s e ps' (Hr & _) _]; subst;
        [reflexivity | cbn in Hr; lia].
Qed.

(** X17. Both [Tokenizer.wordPiece] and the package-level [WordPiece]
    return either the single unknown piece or pieces that are all
    vocabulary entries; never more pieces than the word has bytes (one for
    the empty word in the vocabulary); and no piece at all only for the
    empty word when it is not a vocabulary entry. *)
Theorem wordPiece_pieces_known (word : string) :
  (forall t : Tokenizer,
     (wordPiece t word = ["[UNK]"]
      \/ Forall (fun p => has_key (Vocab t) p = true) (wordPiece t word))
     /\ length (wordPiece t word) <= Nat.max 1 (String.length word)
     /\ (wordPiece t word = []
         <-> word = EmptyString /\ has_key (Vocab t) EmptyString = false))
  /\ (forall (vocab : gmap string Z) (st : SpecialTokens),
        (WordPiece vocab st word = [UNK st]
         \/ Forall (fun p => has_key vocab p = true) (WordPiece vocab st word))
        /\ length (WordPiece vocab st word) <= Nat.max 1 (String.length word)
        /\ (WordPiece vocab st word = []
            <-> word = EmptyString /\ has_key vocab EmptyString = false)).
Proof.
  assert (H : forall (vocab : gmap string Z) (unk : string),
            let pieces := if has_key vocab word then [word]
                          else wordPiece_loop (S (String.length word)) vocab unk word 0 [] in
            (pieces = [unk] \/ Forall (fun p => has_key vocab p = true) pieces)
            /\ length pieces <= Nat.max 1 (String.length word)
            /\ (pieces = [] <-> word = EmptyString /\ has_key vocab EmptyString = false)).
  { intros vocab unk. cbv zeta. destruct (has_key vocab word) eqn:Hk.
    - split; [right; by repeat constructor|]. split; [cbn; lia|].
      split; [discriminate|]. intros [-> Hno]. congruence.
    - destruct (wordPiece_loop_pieces vocab unk word) as (H1 & H2 & H3).
      split; [exact H1|]. split; [exact H2|]. rewrite H3. split.
      + intros ->. by split.
      + by intros [-> _]. }
  split.
  - intros t. apply (H (Vocab t) "[UNK]").
  - intros vocab st. apply (H vocab (UNK st)).
Qed.
End MoreWordPiece.

Section MoreMask.
Import tokenizer VocabSpec.

Lemma MaskPosition_from_spec (mask : string) (tokens : list string) (i : Z) :
  (0 <= i)%Z ->
  let p := MaskPosition_from mask tokens i in
  (p = (-1)%Z <-> mask ∉ tokens)
  /\ (p <> (-1)%Z ->
      (i <= p < i + Z.of_nat (length tokens))%Z
      /\ tokens !! Z.to_nat (p - i) = Some mask
      /\ forall j, j < Z.to_nat (p - i) -> tokens !! j <> Some mask).
Proof.
  revert i. induction tokens as [|tok rest IH]; intros i Hi; cbv zeta;
    cbn [MaskPosition_from].
  - split; [split; [intros _; apply not_elem_of_nil | reflexivity] | congruence].
  - destruct (String.eqb_spec tok mask) as [->|Hne].
    + split.
      * split; [lia|]. intros Hno. exfalso. apply Hno. left.
      * intros _. rewrite Z.sub_diag. cbn [length]. split; [lia|].
        split; [reflexivity|]. intros j Hj. cbn in Hj. lia.
    + destruct (IH (i + 1)%Z ltac:(lia)) as [Hiff Hpos]. cbv zeta in *. split.
      * rewrite Hiff. rewrite not_elem_of_cons. split; [by split | tauto].
      * intros Hp. destruct (Hpos Hp) as (Hr & Hlk & Hfirst).
        cbn [length]. split; [lia|].
        replace (Z.to_nat (MaskPosition_from mask rest (i + 1) - i))
          with (S (Z.to_nat (MaskPosition_from mask rest (i + 1) - (i + 1)))) by lia.
        split; [exact Hlk|].
        intros [|j] Hj; cbn; [congruence|]. apply Hfirst. lia.
Qed.

(** X18. [MaskPosition], of [Tokenizer] and of [BERTTokenizer] alike,
    answers -1 exactly when no token is the mask token, and otherwise the
    index of its first occurrence. *)
Theorem MaskPosition_first (tokens : list string) :
  (forall t : Tokenizer,
     let p := MaskPosition t tokens in
     (p = (-1)%Z <-> "[MASK]" ∉ tokens)
     /\ (p <> (-1)%Z ->
         (0 <= p < Z.of_nat (length tokens))%Z
         /\ tokens !! Z.to_nat p = Some "[MASK]"
         /\ forall j, j < Z.to_nat p -> tokens !! j <> Some "[MASK]"))
  /\ (forall t : BERTTokenizer,
        let p := BERT_MaskPosition t tokens in
        (p = (-1)%Z <-> MASK (specialTokens t) ∉ tokens)
        /\ (p <> (-1)%Z ->
            (0 <= p < Z.of_nat (length tokens))%Z
            /\ tokens !! Z.to_nat p = Some (MASK (specialTokens t))
            /\ forall j, j < Z.to_nat p -> tokens !! j <> Some (MASK (specialTokens t)))).
Proof.
  split; intros t; cbv zeta.
  - pose proof (MaskPosition_from_spec "[MASK]" tokens 0 ltac:(lia)) as H.
    cbv zeta in H. unfold MaskPosition. rewrite Z.sub_0_r in H. exact H.
  - pose proof (MaskPosition_from_spec (MASK (specialTokens t)) tokens 0 ltac:(lia)) as H.
    cbv zeta in H. unfold BERT_MaskPosition. rewrite Z.sub_0_r in H. exact H.
Qed.

Lemma filter_fmap_S (P : nat -> Prop) `{!forall n, Decision (P n)} (l : list nat) :
  filter P (S <$> l) = S <$> filter (fun n => P (S n)) l.
Proof.
  induction l as [|n l IH]; [reflexivity|].
  rewrite fmap_cons, !filter_cons, IH.
  by destruct (decide (P (S n))).
Qed.

Lemma mask_positions_cons (mask tok : string) (rest : list string) :
  mask_positions mask (tok :: rest)
  = (if decide (tok = mask) then [0] else []) ++ (S <$> mask_positions mask rest).
Proof.
  unfold mask_positions. cbn [length seq]. rewrite filter_cons.
  rewrite <- fmap_S_seq, filter_fmap_S.
  cbn [lookup list_lookup].
  destruct (decide (Some tok = Some mask)) as [Heq|Hne];
    destruct (decide (tok = mask)) as [Heq'|Hne']; try congruence; reflexivity.
Qed.

Lemma maskLogits_loop_rows (mask : string) (vocabSize : nat)
    (logits : list float32) (tokens : list string) (pos : nat)
    (acc : list MaskLogits) :
  Forall (fun k => (pos + k + 1) * vocabSize <= length logits)
    (mask_positions mask tokens) ->
  maskLogits_loop mask vocabSize logits tokens pos acc
  = (acc ++ ((fun k => mask_row vocabSize logits (pos + k))
               <$> mask_positions mask tokens), None).
Proof.
  revert pos acc. induction tokens as [|tok rest IH]; intros pos acc Hfit.
  - cbn. by rewrite app_nil_r.
  - cbn [maskLogits_loop]. rewrite mask_positions_cons in Hfit |- *.
    apply Forall_app in Hfit as [Hhead Hrest].
    rewrite Forall_fmap in Hrest.
    assert (Hrest' : Forall (fun k => (S pos + k + 1) * vocabSize <= length logits)
                       (mask_positions mask rest)).
    { eapply Forall_impl; [exact Hrest|]. intros k Hk. cbn in Hk.
      replace (S pos + k + 1) with (pos + S k + 1) by lia. exact Hk. }
    assert (Hshift : (fun k => mask_row vocabSize logits (pos + k))
                       <$> (S <$> mask_positions mask rest)
                     = (fun k => mask_row vocabSize logits (S pos + k))
                         <$> mask_positions mask rest).
    { rewrite <- list_fmap_compose. apply list_fmap_ext. intros _ k _. cbn.
      f_equal. lia. }
    destruct (String.eqb_spec tok mask) as [->|Hne].
    + destruct (decide (mask = mask)) as [_|Hc]; [|contradiction].
      apply Forall_cons in Hhead as [Hhead _]. cbn beta in Hhead.
      assert (Hin : (length logits <? pos * vocabSize + vocabSize) = false)
        by (apply Nat.ltb_ge; nia).
      rewrite Hin, IH by exact Hrest'.
      rewrite fmap_app, Hshift, <- app_assoc. cbn [fmap list_fmap app].
      by rewrite Nat.add_0_r.
    + rewrite IH by exact Hrest'.
      destruct (decide (tok = mask)) as [Hc|_]; [contradiction|].
      by rewrite app_nil_l, Hshift.
Qed.

Lemma maskLogits_loop_short (mask : string) (vocabSize : nat)
    (logits : list float32) (tokens : list string) (pos : nat)
    (acc : list MaskLogits) :
  Exists (fun k => length logits < (pos + k + 1) * vocabSize)
    (mask_positions mask tokens) ->
  exists msg, maskLogits_loop mask vocabSize logits tokens pos acc = ([], Some msg).
Proof.
  revert pos acc. induction tokens as [|tok rest IH]; intros pos acc Hshort.
  - by apply Exists_nil in Hshort.
  - cbn [maskLogits_loop]. rewrite mask_positions_cons in Hshort.
    apply Exists_app in Hshort.
    assert (Hrest : Exists (fun k => length logits < (pos + k + 1) * vocabSize)
                      (S <$> mask_positions mask rest)
                    -> Exists (fun k => length logits < (S pos + k + 1) * vocabSize)
                         (mask_positions mask rest)).
    { rewrite Exists_fmap. intros Hex. eapply Exists_impl; [exact Hex|].
      intros k Hk. cbn in Hk.
      replace (S pos + k + 1) with (pos + S k + 1) by lia. exact Hk. }
    destruct (String.eqb_spec tok mask) as [->|Hne].
    + destruct (length logits <? pos * vocabSize + vocabSize) eqn:Hin; [eauto|].
      apply Nat.ltb_ge in Hin.
      destruct Hshort as [Hhead|Htail]; [|by apply IH, Hrest].
      destruct (decide (mask = mask)) as [_|Hc]; [|contradiction].
      apply Exists_cons in Hhead as [Hhead|Hhead]; [cbn beta in Hhead; nia | by apply Exists_nil in Hhead].
    + destruct (decide (tok = mask)) as [Hc|_]; [contradiction|].
      destruct Hshort as [Hhead|Htail]; [by apply Exists_nil in Hhead|].
      by apply IH, Hrest.
Qed.

(** X19. [BERTTokenizer.MaskLogits] panics (integer division by zero) on an
    empty token list, and returns an error and no entry when the number of
    logits is not a multiple of the number of tokens.  Otherwise, with a
    vocabulary of [V] entries: when the logits reach the end of row [p]
    (that is [(p + 1) * V <= len(logits)]) for every position [p] holding
    the mask token, it returns with a nil error one entry per such
    position, in increasing order, each holding the [V] logits
    [logits[p*V : (p+1)*V]]; when they fall short for one of these
    positions it returns an error and no entry.  The first case holds in
    particular when the logits are one row of [V] per token. *)
Theorem MaskLogits_rows (t : BERTTokenizer) (tokens : list string)
    (logits : list float32) :
  let V := size (vocab t) in
  let positions := mask_positions (MASK (specialTokens t)) tokens in
  (tokens = [] -> BERT_MaskLogits t tokens logits = Panic IntegerDivideByZero)
  /\ (tokens <> [] -> length logits mod length tokens <> 0 ->
      exists msg, BERT_MaskLogits t tokens logits = Return ([], Some msg))
  /\ (tokens <> [] -> length logits mod length tokens = 0 ->
      (Forall (fun p => (p + 1) * V <= length logits) positions ->
       BERT_MaskLogits t tokens logits
       = Return (mask_row V logits <$> positions, None)
       /\ Forall (fun p => length (Logits (mask_row V logits p)) = V) positions)
      /\ (Exists (fun p => length logits < (p + 1) * V) positions ->
          exists msg, BERT_MaskLogits t tokens logits = Return ([], Some msg)))
  /\ (length logits = length tokens * V ->
      Forall (fun p => (p + 1) * V <= length logits) positions
      /\ length logits mod length tokens = 0).
Proof.
  cbv zeta. unfold BERT_MaskLogits. split; [|split; [|split]].
  - intros ->. reflexivity.
  - intros Hne Hmod.
    destruct (decide (length tokens = 0)) as [Hz|_].
    { by apply nil_length_inv in Hz. }
    destruct (decide (length logits `mod` length tokens <> 0)); [eauto | contradiction].
  - intros Hne Hmod.
    destruct (decide (length tokens = 0)) as [Hz|Hnz].
    { by apply nil_length_inv in Hz. }
    destruct (decide (length logits `mod` length tokens <> 0)) as [Hmod'|_];
      [contradiction|].
    split.
    + intros Hfit. split.
      * rewrite maskLogits_loop_rows by exact Hfit. reflexivity.
      * eapply Forall_impl; [exact Hfit|]. intros p Hp. cbn beta in Hp.
        cbn [Logits mask_row]. rewrite length_take, length_drop. nia.
    + intros Hshort.
      destruct (maskLogits_loop_short (MASK (specialTokens t)) (size (vocab t))
                  logits tokens 0 [] Hshort) as [msg ->]. eauto.
  - intros Hlen. split.
    + apply Forall_forall. intros p Hp. unfold mask_positions in Hp.
      apply list_elem_of_filter in Hp as [Hp _].
      apply lookup_lt_Some in Hp. nia.
    + rewrite Hlen, Nat.mul_comm. apply Nat.Div0.mod_mul.
Qed.
End MoreMask.

(** * Building the tokenizers *)

Section MoreConstruction.
Import tokenizer VocabSpec.

Lemma has_key_is_Some {V : Type} (m : gmap string V) (k : string) :
  has_key m k = true <-> is_Some (m !! k).
Proof. unfold has_key. apply bool_decide_eq_true. Qed.

Lemma first_missing_None (vocab : gmap string Z) (tokens : list string) :
  first_missing vocab tokens = None
  <-> Forall (fun token => is_Some (vocab !! token)) tokens.
Proof.
  induction tokens as [|token rest IH]; cbn [first_missing].
  - split; [constructor | reflexivity].
  - rewrite Forall_cons, <- IH, <- has_key_is_Some.
    destruct (has_key vocab token); split; try tauto; try discriminate.
    intros [? _]. discriminate.
Qed.

Lemma first_missing_Some (vocab : gmap string Z) (tokens : list string)
    (token : string) :
  first_missing vocab tokens = Some token ->
  token ∈ tokens /\ vocab !! token = None.
Proof.
  induction tokens as [|tok rest IH]; cbn [first_missing]; [discriminate|].
  destruct (has_key vocab tok) eqn:Hk.
  - intros H. destruct (IH H) as [Hin Hno]. split; [by right | exact Hno].
  - intros [= ->]. split; [left|].
    apply eq_None_not_Some. rewrite <- has_key_is_Some. congruence.
Qed.

Lemma invert_from_sound (pairs : list (string * Z)) (m : gmap Z string)
    (id : Z) (tok : string) :
  foldl (fun m p => <[snd p := fst p]> m) m pairs !! id = Some tok ->
  (tok, id) ∈ pairs \/ m !! id = Some tok.
Proof.
  revert m. induction pairs as [|[tok' id'] pairs IH]; intros m; cbn [foldl fst snd].
  - by right.
  - intros H. destruct (IH _ H) as [Hin|Hm]; [left; by right|].
    destruct (decide (id' = id)) as [->|Hne].
    + rewrite lookup_insert_eq in Hm. injection Hm as ->. left. left.
    + rewrite lookup_insert_ne in Hm by exact Hne. by right.
Qed.

Lemma invert_from_defined (pairs : list (string * Z)) (m : gmap Z string) (id : Z) :
  is_Some (m !! id) \/ (exists tok, (tok, id) ∈ pairs) ->
  is_Some (foldl (fun m p => <[snd p := fst p]> m) m pairs !! id).
Proof.
  revert m. induction pairs as [|[tok' id'] pairs IH]; intros m; cbn [foldl fst snd].
  - intros [H|[tok H]]; [exact H | by apply elem_of_nil in H].
  - intros [H|[tok H]]; apply IH.
    + left. destruct (decide (id' = id)) as [->|Hne].
      * rewrite lookup_insert_eq. eauto.
      * by rewrite lookup_insert_ne.
    + apply elem_of_cons in H as [[= -> ->]|H].
      * left. rewrite lookup_insert_eq. eauto.
      * right. eauto.
Qed.

(** The map built by the inverting loop sends an id only to a token that
    has this id, and is defined on every id of the vocabulary. *)
Lemma invert_inverse (mapRange : gmap string Z -> list (string * Z))
    (vocab : gmap string Z) :
  mapRange vocab ≡ₚ map_to_list vocab ->
  (forall id tok, invert (mapRange vocab) !! id = Some tok -> vocab !! tok = Some id)
  /\ (forall tok id, vocab !! tok = Some id ->
        exists tok', invert (mapRange vocab) !! id = Some tok'
                     /\ vocab !! tok' = Some id).
Proof.
  intros Hrange.
  assert (Hsound : forall id tok,
            invert (mapRange vocab) !! id = Some tok -> vocab !! tok = Some id).
  { intros id tok H. apply invert_from_sound in H as [Hin|Hm].
    - rewrite Hrange in Hin. by apply elem_of_map_to_list in Hin.
    - by rewrite lookup_empty in Hm. }
  split; [exact Hsound|].
  intros tok id Hv.
  destruct (invert_from_defined (mapRange vocab) ∅ id) as [tok' Htok'].
  { right. exists tok. rewrite Hrange. by apply elem_of_map_to_list. }
  exists tok'. split; [exact Htok' | by apply Hsound].
Qed.

Lemma invert_injective (mapRange : gmap string Z -> list (string * Z))
    (vocab : gmap string Z) :
  mapRange vocab ≡ₚ map_to_list vocab ->
  (forall tok1 tok2 id, vocab !! tok1 = Some id -> vocab !! tok2 = Some id ->
                        tok1 = tok2) ->
  forall id tok, invert (mapRange vocab) !! id = Some tok <-> vocab !! tok = Some id.
Proof.
  intros Hrange Hinj id tok.
  destruct (invert_inverse mapRange vocab Hrange) as [Hsound Hdef].
  split; [apply Hsound|].
  intros Hv. destruct (Hdef tok id Hv) as (tok' & Hl & Hv').
  by rewrite (Hinj tok tok' id Hv Hv').
Qed.

Lemma scan_lines_snoc (TrimSpace : string -> string) (lines : list string)
    (line : string) :
  scan_lines TrimSpace (lines ++ [line])
  = scan_step (TrimSpace line) (scan_lines TrimSpace lines).
Proof. unfold scan_lines. by rewrite foldl_app. Qed.

Lemma vocab_tokens_snoc (TrimSpace : string -> string) (lines : list string)
    (line : string) :
  vocab_tokens TrimSpace (lines ++ [line])
  = vocab_tokens TrimSpace lines
    ++ (if String.eqb (TrimSpace line) EmptyString then [] else [TrimSpace line]).
Proof.
  unfold vocab_tokens. rewrite fmap_app, filter_app. f_equal.
  cbn [fmap list_fmap]. rewrite filter_cons, filter_nil.
  destruct (String.eqb_spec (TrimSpace line) EmptyString) as [Heq|Hne];
    destruct (decide (TrimSpace line <> EmptyString)); try reflexivity; contradiction.
Qed.

(** What the scanning loop has built after [lines]: the next id is the
    number of tokens met, and a token has the id of its last occurrence. *)
Lemma scan_lines_spec (TrimSpace : string -> string) (lines : list string) :
  let toks := vocab_tokens TrimSpace lines in
  snd (scan_lines TrimSpace lines) = Z.of_nat (length toks)
  /\ forall tok id,
       fst (scan_lines TrimSpace lines) !! tok = Some id
       <-> (0 <= id)%Z /\ toks !! Z.to_nat id = Some tok
           /\ forall j, Z.to_nat id < j -> toks !! j <> Some tok.
Proof.
  cbv zeta. induction lines as [|line lines IH] using rev_ind.
  - cbn. split; [reflexivity|]. intros tok id. rewrite lookup_empty.
    split; [discriminate|]. by intros (_ & H & _).
  - destruct IH as [IHn IHv].
    rewrite scan_lines_snoc, vocab_tokens_snoc. unfold scan_step.
    destruct (String.eqb_spec (TrimSpace line) EmptyString) as [Heq|Hne].
    { rewrite app_nil_r. by split. }
    set (toks := vocab_tokens TrimSpace lines) in *.
    set (t := TrimSpace line) in *.
    cbn [fst snd]. rewrite IHn. split; [rewrite length_app; cbn; lia|].
    intros tok id. destruct (decide (t = tok)) as [<-|Hdiff].
    + rewrite lookup_insert_eq. split.
      * intros [= <-]. rewrite Nat2Z.id. split; [lia|]. split.
        -- by rewrite lookup_app_r, Nat.sub_diag by lia.
        -- intros j Hj. rewrite lookup_ge_None_2; [discriminate|].
           rewrite length_app. cbn. lia.
      * intros (Hid & Hlk & Hlast). f_equal.
        apply lookup_lt_Some in Hlk as Hlt. rewrite length_app in Hlt. cbn in Hlt.
        destruct (decide (Z.to_nat id = length toks)) as [Heq|Hneq]; [lia|].
        exfalso. apply (Hlast (length toks)); [lia|].
        by rewrite lookup_app_r, Nat.sub_diag by lia.
    + rewrite lookup_insert_ne by exact Hdiff. rewrite IHv. split.
      * intros (Hid & Hlk & Hlast). split; [exact Hid|]. split.
        -- by apply lookup_app_l_Some.
        -- intros j Hj. destruct (decide (j < length toks)) as [Hlt|Hge].
           ++ rewrite lookup_app_l by exact Hlt. by apply Hlast.
           ++ rewrite lookup_app_r by lia.
              destruct (j - length toks) as [|k]; cbn; [congruence | by destruct k].
      * intros (Hid & Hlk & Hlast).
        assert (Hlt : Z.to_nat id < length toks).
        { apply lookup_lt_Some in Hlk as Hlt. rewrite length_app in Hlt. cbn in Hlt.
          destruct (decide (Z.to_nat id = length toks)) as [Heq|Hneq]; [|lia].
          rewrite lookup_app_r, Heq, Nat.sub_diag in Hlk by lia.
          cbn in Hlk. congruence. }
        rewrite lookup_app_l in Hlk by exact Hlt.
        split; [exact Hid|]. split; [exact Hlk|].
        intros j Hj Hc. apply (Hlast j Hj). by apply lookup_app_l_Some.
Qed.

Lemma scan_lines_injective (TrimSpace : string -> string) (lines : list string)
    (tok1 tok2 : string) (id : Z) :
  fst (scan_lines TrimSpace lines) !! tok1 = Some id ->
  fst (scan_lines TrimSpace lines) !! tok2 = Some id -> tok1 = tok2.
Proof.
  destruct (scan_lines_spec TrimSpace lines) as [_ Hv]. cbv zeta in Hv.
  intros (_ & H1 & _)%Hv (_ & H2 & _)%Hv. congruence.
Qed.

Section WithEnvironment.
Context (ReadFile : string -> string + string).
Context (Unmarshal : string -> gmap string Z + string).
Context (mapRange : gmap string Z -> list (string * Z)).
Context (TrimSpace : string -> string).
Context (ToLower : string -> string).

(** X20. [New] returns either a tokenizer and a nil error, or no tokenizer
    and an error.  It returns a tokenizer exactly when the file is read,
    its contents are parsed, and the parsed vocabulary holds [CLS], [SEP],
    [PAD] and [UNK] ([MASK] is not asked for); the tokenizer then has the
    parsed vocabulary, its [IDToToken] sends an id only to a token that
    has this id, and is defined on every id of the vocabulary.  It returns
    an error when the file cannot be read, when it cannot be parsed, or
    when one of the four tokens is missing. *)
Theorem New_outcome (path : string) :
  (forall m, mapRange m ≡ₚ map_to_list m) ->
  match New ReadFile Unmarshal mapRange path with
  | (Some t, None) =>
      (exists data, ReadFile path = inl data /\ Unmarshal data = inl (Vocab t))
      /\ Forall (fun token => is_Some (Vocab t !! token))
           ["[CLS]"; "[SEP]"; "[PAD]"; "[UNK]"]
      /\ (forall id tok, IDToToken t !! id = Some tok -> Vocab t !! tok = Some id)
      /\ (forall tok id, Vocab t !! tok = Some id ->
            exists tok', IDToToken t !! id = Some tok' /\ Vocab t !! tok' = Some id)
  | (None, Some msg) =>
      (exists err, ReadFile path = inr err)
      \/ (exists data err, ReadFile path = inl data /\ Unmarshal data = inr err)
      \/ (exists data vocab token,
            ReadFile path = inl data /\ Unmarshal data = inl vocab
            /\ token ∈ ["[CLS]"; "[SEP]"; "[PAD]"; "[UNK]"]
            /\ vocab !! token = None)
  | _ => False
  end.
Proof.
  intros Hrange. unfold New.
  destruct (ReadFile path) as [data|err] eqn:Hread; [|left; eauto].
  destruct (Unmarshal data) as [vocab|err] eqn:Hparse; [|right; left; eauto].
  destruct (first_missing vocab requiredTokens) as [token|] eqn:Hreq.
  - apply first_missing_Some in Hreq as [Hin Hno].
    right. right. exists data, vocab, token. auto.
  - apply first_missing_None in Hreq. cbn [Vocab IDToToken].
    split; [eauto|]. split; [exact Hreq|].
    apply invert_inverse, Hrange.
Qed.

(** X21. A tokenizer that [New] returns encodes every text into tokens of
    its vocabulary: in what [Encode] returns, every token is a vocabulary
    entry and the id at the same position is its vocabulary id. *)
Theorem New_then_Encode (path text : string) (maxLength : Z) (t : Tokenizer)
    (err err' : error) (out : TokenizerOutput) :
  New ReadFile Unmarshal mapRange path = (Some t, err) ->
  Encode ToLower t text maxLength = Return (out, err') ->
  Forall2 (fun id tok => Vocab t !! tok = Some id) (InputIds out) (Tokens out).
Proof.
  intros Hnew Hrun. unfold New in Hnew.
  destruct (ReadFile path) as [data|e]; [|discriminate].
  destruct (Unmarshal data) as [vocab|e]; [|discriminate].
  destruct (first_missing vocab requiredTokens) as [token|] eqn:Hreq; [discriminate|].
  injection Hnew as <- <-. cbn [Vocab].
  apply first_missing_None in Hreq.
  apply Forall_cons in Hreq as [Hcls Hreq]. apply Forall_cons in Hreq as [Hsep Hreq].
  apply Forall_cons in Hreq as [Hpad Hreq]. apply Forall_cons in Hreq as [Hunk _].
  unfold Encode in Hrun. cbn [Vocab] in Hrun.
  destruct (assemble_consistent vocab DefaultSpecialTokens
              (fun tok => is_Some (vocab !! tok)) _ _ _ _
              Hcls Hunk Hsep Hpad (fun _ H => H) Hrun) as [H2 HP].
  apply Forall2_same_length_lookup_2; [by eapply Forall2_length|].
  intros i id tok Hid Htok.
  rewrite (Forall2_lookup_lr _ _ _ _ _ _ H2 Hid Htok).
  rewrite Forall_lookup in HP. destruct (HP i tok Htok) as [v Hv].
  by rewrite Hv.
Qed.

(** X22. [loadVocabFromEmbed] returns no vocabulary and an error when the
    file cannot be opened or the scanner reports an error, and a
    vocabulary with a nil error otherwise.  Counting from 0 the lines that
    are not blank once trimmed, the vocabulary then maps a token to the
    number of the last such line that holds it: a token met twice keeps
    the later number, and the earlier number is given to no token.  No
    two tokens share an id, and when no token is met twice the
    vocabulary has as many entries as there are such lines. *)
Theorem loadVocabFromEmbed_ids (opened : list string + string) (scanErr : error) :
  match opened, scanErr with
  | inr _, _ | inl _, Some _ =>
      exists msg, loadVocabFromEmbed TrimSpace opened scanErr = (None, Some msg)
  | inl lines, None =>
      let toks := vocab_tokens TrimSpace lines in
      exists vocab,
        loadVocabFromEmbed TrimSpace opened scanErr = (Some vocab, None)
        /\ (forall tok id,
              vocab !! tok = Some id
              <-> (0 <= id)%Z /\ toks !! Z.to_nat id = Some tok
                  /\ forall j, Z.to_nat id < j -> toks !! j <> Some tok)
        /\ (forall tok1 tok2 id,
              vocab !! tok1 = Some id -> vocab !! tok2 = Some id -> tok1 = tok2)
        /\ (NoDup toks ->
            size vocab = length toks
            /\ forall tok i, toks !! i = Some tok <-> vocab !! tok = Some (Z.of_nat i))
  end.
Proof.
  destruct opened as [lines|err]; [|cbn; eauto].
  destruct scanErr as [err|]; [cbn; eauto|].
  cbv zeta. exists (fst (scan_lines TrimSpace lines)). split; [reflexivity|].
  destruct (scan_lines_spec TrimSpace lines) as [Hn Hv]. cbv zeta in Hv.
  split; [exact Hv|]. split; [apply scan_lines_injective|].
  intros Hnd.
  assert (Hiff : forall tok i,
            vocab_tokens TrimSpace lines !! i = Some tok
            <-> fst (scan_lines TrimSpace lines) !! tok = Some (Z.of_nat i)).
  { intros tok i. rewrite Hv, Nat2Z.id. split.
    - intros Hlk. split; [lia|]. split; [exact Hlk|].
      intros j Hj Hc. pose proof (NoDup_lookup _ _ _ _ Hnd Hlk Hc). lia.
    - by intros (_ & Hlk & _). }
  split; [|exact Hiff].
  rewrite <- length_map_to_list.
  rewrite <- (length_fmap fst (map_to_list (fst (scan_lines TrimSpace lines)))).
  apply Permutation_length, NoDup_Permutation.
  - apply NoDup_fst_map_to_list.
  - exact Hnd.
  - intros tok. rewrite list_elem_of_fmap. split.
    + intros ([tok' id] & -> & Hin). apply elem_of_map_to_list in Hin.
      apply Hv in Hin as (_ & Hlk & _). cbn. by eapply list_elem_of_lookup_2.
    + intros Hin. apply list_elem_of_lookup in Hin as [i Hi].
      exists (tok, Z.of_nat i). split; [reflexivity|].
      apply elem_of_map_to_list. by apply Hiff.
Qed.

(** X23. [NewBERTTokenizer] fails exactly when [loadVocabFromEmbed] does,
    with the same error.  Otherwise it returns, with a nil error, a
    tokenizer over the loaded vocabulary and the default special tokens,
    whose [labels] is the inverse of the vocabulary: an id is labelled
    with a token exactly when the vocabulary gives the token this id.
    Whether the special tokens are in the vocabulary is not checked. *)
Theorem NewBERTTokenizer_labels (opened : list string + string) (scanErr : error) :
  (forall m, mapRange m ≡ₚ map_to_list m) ->
  match loadVocabFromEmbed TrimSpace opened scanErr with
  | (_, Some err) =>
      NewBERTTokenizer mapRange TrimSpace opened scanErr = (None, Some err)
  | (loaded, None) =>
      exists t,
        NewBERTTokenizer mapRange TrimSpace opened scanErr = (Some t, None)
        /\ loaded = Some (vocab t)
        /\ specialTokens t = DefaultSpecialTokens
        /\ forall id tok, labels t !! id = Some tok <-> vocab t !! tok = Some id
  end.
Proof.
  intros Hrange. unfold NewBERTTokenizer.
  destruct opened as [lines|err]; [|reflexivity].
  destruct scanErr as [err|]; [reflexivity|].
  cbn [loadVocabFromEmbed default]. eexists. split; [reflexivity|].
  cbn [vocab labels specialTokens]. split; [reflexivity|]. split; [reflexivity|].
  apply invert_injective; [apply Hrange|]. apply scan_lines_injective.
Qed.
End WithEnvironment.
End MoreConstruction.

(** * Layout of the tokens of [Encode] *)

Section MoreLayout.
Import tokenizer VocabSpec.

Lemma lookup_step_tokens (vocab : gmap string Z) (unk : string)
    (wp : list string) (st : list Z * list string) :
  snd (foldl (lookup_step vocab unk) st wp) = snd st ++ (emitted vocab unk <$> wp).
Proof.
  revert st. induction wp as [|w wp IH]; intros st; cbn [foldl fmap list_fmap].
  - by rewrite app_nil_r.
  - rewrite IH. unfold lookup_step, emitted, has_key.
    destruct (vocab !! w) as [id|] eqn:Hw; cbn [snd].
    + rewrite bool_decide_eq_true_2 by eauto. by rewrite <- app_assoc.
    + rewrite bool_decide_eq_false_2 by (intros [? ?]; discriminate).
      by rewrite <- app_assoc.
Qed.

Lemma with_specials_tokens (vocab : gmap string Z) (st : SpecialTokens)
    (wp : list string) :
  snd (with_specials vocab st wp)
  = CLS st :: (emitted vocab (UNK st) <$> wp) ++ [SEP st].
Proof.
  unfold with_specials.
  pose proof (lookup_step_tokens vocab (UNK st) wp
                ([default 0%Z (vocab !! CLS st)], [CLS st])) as H.
  destruct (foldl _ _ wp) as [ids toks]. cbn [fst snd] in *. by rewrite H.
Qed.

Lemma assemble_layout (vocab : gmap string Z) (st : SpecialTokens)
    (wp : list string) (maxLength : Z) :
  let pieces := emitted vocab (UNK st) <$> wp in
  ((Z.of_nat (length wp) + 2 <= maxLength)%Z ->
   exists out,
     assemble vocab st wp maxLength = Return (out, None)
     /\ Tokens out
        = CLS st :: pieces
          ++ SEP st :: replicate (Z.to_nat maxLength - length wp - 2) (PAD st))
  /\ ((0 <= maxLength < Z.of_nat (length wp) + 2)%Z ->
      exists out,
        assemble vocab st wp maxLength = Return (out, None)
        /\ Tokens out = take (Z.to_nat maxLength) (CLS st :: pieces)).
Proof.
  cbv zeta.
  pose proof (with_specials_lengths vocab st wp) as [Hl1 Hl2].
  pose proof (with_specials_tokens vocab st wp) as Htoks.
  split; intros Hlen.
  - rewrite assemble_returns by lia. eexists. split; [reflexivity|].
    cbn [Tokens]. rewrite Hl1.
    replace ((length wp + 2) `min` Z.to_nat maxLength) with (length wp + 2) by lia.
    rewrite take_ge by (rewrite Hl2; lia). rewrite Htoks.
    cbn [app]. rewrite <- app_assoc. cbn [app]. do 3 f_equal. f_equal. lia.
  - rewrite assemble_returns by lia. eexists. split; [reflexivity|].
    cbn [Tokens]. rewrite Hl1, Htoks.
    replace ((length wp + 2) `min` Z.to_nat maxLength) with (Z.to_nat maxLength) by lia.
    rewrite Nat.sub_diag. cbn [replicate]. rewrite app_nil_r.
    change (CLS st :: (emitted vocab (UNK st) <$> wp) ++ [SEP st])
      with ((CLS st :: (emitted vocab (UNK st) <$> wp)) ++ [SEP st]).
    rewrite take_app_le by (cbn [length]; rewrite length_fmap; lia). reflexivity.
Qed.

Section WithCase.
Variable ToLower : string -> string.
Variable ToUpper : string -> string.

(** X25. The tokens of [Tokenizer.Encode] and [BERTTokenizer.Encode] are
    laid out as [CLS], one token per piece (the piece when the vocabulary
    holds it, [UNK] otherwise), [SEP], then [PAD] up to [maxLength], when
    [maxLength] leaves room for the pieces and both markers.  When it does
    not, the tokens are the first [maxLength] of [CLS] and the pieces: the
    closing [SEP] is cut off with the rest, and nothing is padded. *)
Theorem Encode_layout (text : string) (maxLength : Z) :
  (forall t : Tokenizer,
     let wp := wordpieces ToLower t text in
     let pieces := emitted (Vocab t) "[UNK]" <$> wp in
     ((Z.of_nat (length wp) + 2 <= maxLength)%Z ->
      exists out,
        Encode ToLower t text maxLength = Return (out, None)
        /\ Tokens out
           = "[CLS]" :: pieces
             ++ "[SEP]" :: replicate (Z.to_nat maxLength - length wp - 2) "[PAD]")
     /\ ((0 <= maxLength < Z.of_nat (length wp) + 2)%Z ->
         exists out,
           Encode ToLower t text maxLength = Return (out, None)
           /\ Tokens out = take (Z.to_nat maxLength) ("[CLS]" :: pieces)))
  /\ (forall t : BERTTokenizer,
        let st := specialTokens t in
        let wp := bert_wordpieces ToLower ToUpper t text in
        let pieces := emitted (vocab t) (UNK st) <$> wp in
        ((Z.of_nat (length wp) + 2 <= maxLength)%Z ->
         exists out,
           BERT_Encode ToLower ToUpper t text maxLength = Return (out, None)
           /\ Tokens out
              = CLS st :: pieces
                ++ SEP st :: replicate (Z.to_nat maxLength - length wp - 2) (PAD st))
        /\ ((0 <= maxLength < Z.of_nat (length wp) + 2)%Z ->
            exists out,
              BERT_Encode ToLower ToUpper t text maxLength = Return (out, None)
              /\ Tokens out = take (Z.to_nat maxLength) (CLS st :: pieces))).
Proof.
  split; intros t; cbv zeta.
  - apply (assemble_layout (Vocab t) DefaultSpecialTokens).
  - apply (assemble_layout (vocab t) (specialTokens t)).
Qed.
End WithCase.
End MoreLayout.

(** * More instances *)

Section MoreInstances.
Import postprocess tokenizer Samples NMSSpec SortContract WordPieceSpec VocabSpec.

Lemma L2Normalize_degenerate_witness :
  (Forall (fun v => is_zero v = true) [zero; zero] \/ nan ∈ [zero; zero])
  /\ ml.L2Normalize [zero; zero] = replicate (length [zero; zero]) nan.
Proof.
  split; [left; repeat constructor|].
  apply (L2Normalize_degenerate [zero; zero]). left. repeat constructor.
Defined.

Example L2Normalize_scenario :
  ml.L2Normalize [of_int32 3; of_int32 4] = [dyadic32 10066330 (-24); dyadic32 13421773 (-24)].
Proof. vm_compute. reflexivity. Qed.

Lemma Sigmoid_saturates_witness :
  (fun _ : float64 => pos_inf) (neg (to64 zero)) = pos_inf
  /\ ml.Sigmoid (fun _ => pos_inf) zero = zero.
Proof.
  split; [reflexivity|].
  apply (proj1 (Sigmoid_saturates (fun _ => pos_inf) zero)). reflexivity.
Defined.

Lemma TopK_distinct_indices_witness :
  (forall (less : ml.indexedValue -> ml.indexedValue -> bool) l,
     GoLib.insertionSort ml.indexedValue less l ≡ₚ l)
  /\ (0 <= 2)%Z
  /\ exists indices : list Z,
       ml.TopK GoLib.insertionSort sampleScores 2 = Return indices
       /\ NoDup indices
       /\ Z.of_nat (length indices) = Z.min 2 (Z.of_nat (length sampleScores))
       /\ (forall i, i ∈ indices -> (0 <= i < Z.of_nat (length sampleScores))%Z)
       /\ ((Z.of_nat (length sampleScores) <= 2)%Z ->
           indices ≡ₚ Z.of_nat <$> seq 0 (length sampleScores)).
Proof.
  split; [intros less l; apply insertionSort_perm|].
  split; [lia|].
  apply (proj2 (TopK_distinct_indices GoLib.insertionSort
                  (fun less l => insertionSort_perm less l) sampleScores 2)).
  lia.
Defined.

Lemma TopK_selects_largest_witness :
  sorts GoLib.insertionSort
  /\ (0 <= 2)%Z
  /\ Forall (fun v => is_nan v = false) sampleScores
  /\ exists indices : list Z,
       ml.TopK GoLib.insertionSort sampleScores 2 = Return indices
       /\ forall (i : Z) (j : nat) (vj : float32),
            i ∈ indices -> Z.of_nat j ∉ indices -> sampleScores !! j = Some vj ->
            exists vi, sampleScores !! Z.to_nat i = Some vi /\ ge vi vj = true.
Proof.
  split; [exact insertionSort_sorts|].
  split; [lia|].
  split; [repeat constructor|].
  apply (TopK_selects_largest GoLib.insertionSort sampleScores 2).
  - exact insertionSort_sorts.
  - lia.
  - repeat constructor.
Defined.

Example ProcessClassification_scenario :
  ProcessClassification (fun _ => zero) GoLib.insertionSort sampleScores sampleClassification
  = Done ([{| Label := "dog"; Class := 1; Confidence := of_int32 5 |};
           {| Label := "bird"; Class := 2; Confidence := of_int32 2 |}], None).
Proof. vm_compute. reflexivity. Qed.

Lemma ProcessClassification_sound_witness :
  (forall (less : ml.indexedValue -> ml.indexedValue -> bool) l,
     GoLib.insertionSort ml.indexedValue less l ≡ₚ l)
  /\ (0 <= ClassificationOptions.TopK sampleClassification)%Z
  /\ exists classifications : list Classification,
       ProcessClassification (fun _ => zero) GoLib.insertionSort
         sampleScores sampleClassification
       = Done (classifications, None)
       /\ (Z.of_nat (length classifications)
           <= Z.min (ClassificationOptions.TopK sampleClassification)
                (Z.of_nat (length sampleScores)))%Z
       /\ NoDup (Class <$> classifications)
       /\ forall c : Classification, c ∈ classifications ->
            (0 <= Class c < Z.of_nat (length sampleScores))%Z
            /\ probabilities_of (fun _ => zero) sampleScores sampleClassification
                 !! Z.to_nat (Class c) = Some (Confidence c)
            /\ ClassificationOptions.Labels sampleClassification !! Class c
               = Some (Label c)
            /\ lt (Confidence c) (ClassificationOptions.MinScore sampleClassification)
               = false.
Proof.
  split; [intros less l; apply insertionSort_perm|].
  split; [vm_compute; discriminate|].
  apply (proj2 (ProcessClassification_sound (fun _ => zero) GoLib.insertionSort
                  (fun less l => insertionSort_perm less l)
                  sampleScores sampleClassification)).
  vm_compute. discriminate.
Defined.

Lemma ProcessClassification_complete_witness :
  (forall (less : ml.indexedValue -> ml.indexedValue -> bool) l,
     GoLib.insertionSort ml.indexedValue less l ≡ₚ l)
  /\ (Z.of_nat (length sampleScores) <= ClassificationOptions.TopK sampleClassification)%Z
  /\ exists classifications : list Classification,
       ProcessClassification (fun _ => zero) GoLib.insertionSort
         sampleScores sampleClassification
       = Done (classifications, None)
       /\ forall (idx : nat) (prob : float32) (label : string),
            probabilities_of (fun _ => zero) sampleScores sampleClassification !! idx
            = Some prob ->
            ClassificationOptions.Labels sampleClassification !! Z.of_nat idx
            = Some label ->
            lt prob (ClassificationOptions.MinScore sampleClassification) = false ->
            {| Label := label; Class := Z.of_nat idx; Confidence := prob |}
              ∈ classifications.
Proof.
  split; [intros less l; apply insertionSort_perm|].
  split; [vm_compute; discriminate|].
  apply (ProcessClassification_complete (fun _ => zero) GoLib.insertionSort
           (fun less l => insertionSort_perm less l) sampleScores sampleClassification).
  vm_compute. discriminate.
Defined.

Lemma ProcessClassification_descending_witness :
  sorts GoLib.insertionSort
  /\ (0 <= ClassificationOptions.TopK sampleClassification)%Z
  /\ Forall (fun v => is_nan v = false)
       (probabilities_of (fun _ => zero) sampleScores sampleClassification)
  /\ exists classifications : list Classification,
       ProcessClassification (fun _ => zero) GoLib.insertionSort
         sampleScores sampleClassification
       = Done (classifications, None)
       /\ StronglySorted
            (fun a b : Classification => ge (Confidence a) (Confidence b) = true)
            classifications.
Proof.
  split; [exact insertionSort_sorts|].
  split; [vm_compute; discriminate|].
  split; [repeat constructor|].
  apply (ProcessClassification_descending (fun _ => zero) GoLib.insertionSort
           sampleScores sampleClassification).
  - exact insertionSort_sorts.
  - vm_compute. discriminate.
  - repeat constructor.
Defined.

Lemma NonMaxSuppression_returns_sublist_witness :
  (forall less l, GoLib.insertionSort Detection less l ≡ₚ l)
  /\ let after :=
       detections_after
         (NonMaxSuppression GoLib.insertionSort sampleDetections (dyadic32 1 (-1))) in
     let kept :=
       result (NonMaxSuppression GoLib.insertionSort sampleDetections (dyadic32 1 (-1))) in
     kept `sublist_of` after
     /\ kept ⊆+ sampleDetections
     /\ length kept <= length sampleDetections.
Proof.
  split; [intros less l; apply insertionSort_perm|].
  apply (NonMaxSuppression_returns_sublist GoLib.insertionSort sampleDetections
           (dyadic32 1 (-1))).
  intros less l. apply insertionSort_perm.
Defined.

Lemma NonMaxSuppression_descending_witness :
  sorts GoLib.insertionSort
  /\ Forall (fun d : Detection => is_nan (Confidence d) = false) sampleDetections
  /\ ordered_by by_confidence
       (result (NonMaxSuppression GoLib.insertionSort sampleDetections (dyadic32 1 (-1)))).
Proof.
  split; [exact insertionSort_sorts|].
  split; [repeat constructor|].
  apply (NonMaxSuppression_descending GoLib.insertionSort sampleDetections
           (dyadic32 1 (-1))).
  - exact insertionSort_sorts.
  - repeat constructor.
Defined.

Lemma NonMaxSuppression_keeps_top_witness :
  sorts GoLib.insertionSort
  /\ sampleDetections <> []
  /\ exists (top : Detection) (rest : list Detection),
       result (NonMaxSuppression GoLib.insertionSort sampleDetections (dyadic32 1 (-1)))
       = top :: rest
       /\ head (detections_after
                  (NonMaxSuppression GoLib.insertionSort sampleDetections
                     (dyadic32 1 (-1))))
          = Some top
       /\ top ∈ sampleDetections
       /\ (Forall (fun d : Detection => is_nan (Confidence d) = false) sampleDetections ->
           forall d : Detection, d ∈ sampleDetections ->
             ge (Confidence top) (Confidence d) = true).
Proof.
  split; [exact insertionSort_sorts|].
  split; [discriminate|].
  apply (NonMaxSuppression_keeps_top GoLib.insertionSort sampleDetections
           (dyadic32 1 (-1))).
  - exact insertionSort_sorts.
  - discriminate.
Defined.

Lemma ProcessDetections_outcome_witness :
  (forall less l, GoLib.insertionSort Detection less l ≡ₚ l)
  /\ 4 <= length sampleBoxes
  /\ exists detections : list Detection,
       ProcessDetections (fun _ => of_int64 1) GoLib.insertionSort
         sampleLogits sampleBoxes sampleSize sampleOptions
       = Return (detections, None)
       /\ length detections <= length sampleBoxes / 4
       /\ forall d : Detection, d ∈ detections ->
            Labels sampleOptions !! Class d = Some (Label d)
            /\ lt (Confidence d) (ConfThreshold sampleOptions) = false
            /\ (Class d = 0
                \/ 0 <= Class d
                   < Z.of_nat (length sampleLogits / (length sampleBoxes / 4)))%Z.
Proof.
  split; [intros less l; apply insertionSort_perm|].
  split; [cbn; lia|].
  apply (proj2 (ProcessDetections_outcome (fun _ => of_int64 1) GoLib.insertionSort
                  sampleLogits sampleBoxes sampleSize sampleOptions
                  (fun less l => insertionSort_perm less l))).
  cbn. lia.
Defined.

Lemma Encode_ids_match_tokens_witness :
  Encode GoLib.asciiToLower sampleTokenizer "hello world" 6
  = Return ({| InputIds := [2; 5; 6; 3; 0; 0]%Z;
               AttentionMask := [1; 1; 1; 1; 0; 0]%Z;
               Tokens := ["[CLS]"; "hello"; "world"; "[SEP]"; "[PAD]"; "[PAD]"] |},
            None)
  /\ Forall2 (fun id tok => id = default 0%Z (Vocab sampleTokenizer !! tok))
       [2; 5; 6; 3; 0; 0]%Z ["[CLS]"; "hello"; "world"; "[SEP]"; "[PAD]"; "[PAD]"]
  /\ Forall (fun tok => is_Some (Vocab sampleTokenizer !! tok)
                        \/ tok ∈ ["[CLS]"; "[UNK]"; "[SEP]"; "[PAD]"])
       ["[CLS]"; "hello"; "world"; "[SEP]"; "[PAD]"; "[PAD]"].
Proof.
  split; [vm_compute; reflexivity|].
  apply (proj1 (Encode_ids_match_tokens GoLib.asciiToLower GoLib.asciiToUpper
                  "hello world" 6
                  {| InputIds := [2; 5; 6; 3; 0; 0]%Z;
                     AttentionMask := [1; 1; 1; 1; 0; 0]%Z;
                     Tokens := ["[CLS]"; "hello"; "world"; "[SEP]"; "[PAD]"; "[PAD]"] |}
                  None) sampleTokenizer).
  vm_compute. reflexivity.
Defined.

Lemma BERT_Encode_length_and_mask_witness :
  (0 <= 6)%Z
  /\ exists out : TokenizerOutput,
       BERT_Encode GoLib.asciiToLower GoLib.asciiToUpper sampleBERT "hello [mask]" 6
       = Return (out, None)
       /\ length (InputIds out) = Z.to_nat 6
       /\ length (AttentionMask out) = Z.to_nat 6
       /\ length (Tokens out) = Z.to_nat 6
       /\ let n := (length (bert_wordpieces GoLib.asciiToLower GoLib.asciiToUpper
                              sampleBERT "hello [mask]") + 2)
                     `min` Z.to_nat 6 in
          AttentionMask out = replicate n 1%Z ++ replicate (Z.to_nat 6 - n) 0%Z
          /\ drop n (Tokens out)
             = replicate (Z.to_nat 6 - n) (PAD (specialTokens sampleBERT))
          /\ drop n (InputIds out)
             = replicate (Z.to_nat 6 - n)
                 (default 0%Z (vocab sampleBERT !! PAD (specialTokens sampleBERT))).
Proof.
  split; [lia|].
  apply (proj2 (BERT_Encode_length_and_mask GoLib.asciiToLower GoLib.asciiToUpper
                  sampleBERT "hello [mask]" 6)).
  lia.
Defined.

Lemma IsSpecialToken_upper_case_witness :
  IsSpecialToken GoLib.asciiToUpper DefaultSpecialTokens "[mask]" = ("[MASK]", true)
  /\ "[MASK]" ∈ [PAD DefaultSpecialTokens; UNK DefaultSpecialTokens;
                 CLS DefaultSpecialTokens; SEP DefaultSpecialTokens;
                 MASK DefaultSpecialTokens]
  /\ GoLib.asciiToUpper "[MASK]" = GoLib.asciiToUpper "[mask]".
Proof.
  split; [vm_compute; reflexivity|].
  apply (proj1 (IsSpecialToken_upper_case GoLib.asciiToUpper DefaultSpecialTokens
                  "[mask]") "[MASK]").
  vm_compute. reflexivity.
Defined.

Lemma bert_pieces_step_canonical_witness :
  specialTokens sampleBERT = DefaultSpecialTokens
  /\ "[MASK]" ∈ ["[PAD]"; "[UNK]"; "[CLS]"; "[SEP]"; "[MASK]"]
  /\ GoLib.asciiToUpper "[mask]" = "[MASK]"
  /\ bert_pieces_step GoLib.asciiToLower GoLib.asciiToUpper sampleBERT ["hello"] "[mask]"
     = ["hello"] ++ ["[MASK]"].
Proof.
  split; [reflexivity|].
  split; [set_solver|].
  split; [vm_compute; reflexivity|].
  apply (bert_pieces_step_canonical sampleBERT ["hello"] "[mask]" "[MASK]").
  - reflexivity.
  - set_solver.
  - vm_compute. reflexivity.
Defined.

Lemma MaskPosition_first_witness :
  MaskPosition sampleTokenizer ["[CLS]"; "[MASK]"; "[MASK]"] <> (-1)%Z
  /\ (0 <= MaskPosition sampleTokenizer ["[CLS]"; "[MASK]"; "[MASK]"]
      < Z.of_nat (length ["[CLS]"; "[MASK]"; "[MASK]"]))%Z
  /\ ["[CLS]"; "[MASK]"; "[MASK]"]
       !! Z.to_nat (MaskPosition sampleTokenizer ["[CLS]"; "[MASK]"; "[MASK]"])
     = Some "[MASK]"
  /\ forall j, j < Z.to_nat (MaskPosition sampleTokenizer ["[CLS]"; "[MASK]"; "[MASK]"]) ->
       ["[CLS]"; "[MASK]"; "[MASK]"] !! j <> Some "[MASK]".
Proof.
  split; [vm_compute; discriminate|].
  apply (proj2 (proj1 (MaskPosition_first ["[CLS]"; "[MASK]"; "[MASK]"]) sampleTokenizer)).
  vm_compute. discriminate.
Defined.

Example MaskLogits_scenario :
  BERT_MaskLogits sampleBERT ["[MASK]"; "hello"]
    (replicate 11 zero ++ replicate 11 (of_int32 1))
  = Return ([{| Position := 0; Logits := replicate 11 zero |}], None)
  /\ BERT_MaskLogits sampleBERT ["hello"; "[MASK]"] (replicate 2 zero)
     = Return ([], Some "logits array too short for mask at position 1")
  /\ BERT_MaskLogits sampleBERT ["hello"; "[MASK]"] (replicate 3 zero)
     = Return ([], Some "logits length (3) is not a multiple of tokens length (2)").
Proof. repeat split; vm_compute; reflexivity. Qed.

Lemma MaskLogits_rows_witness :
  ["hello"; "[MASK]"] <> []
  /\ length (replicate 22 zero) mod length ["hello"; "[MASK]"] = 0
  /\ Forall (fun p => (p + 1) * size (vocab sampleBERT) <= length (replicate 22 zero))
       (mask_positions (MASK (specialTokens sampleBERT)) ["hello"; "[MASK]"])
  /\ BERT_MaskLogits sampleBERT ["hello"; "[MASK]"] (replicate 22 zero)
     = Return (mask_row (size (vocab sampleBERT)) (replicate 22 zero)
                 <$> mask_positions (MASK (specialTokens sampleBERT)) ["hello"; "[MASK]"],
               None)
  /\ Forall (fun p => length (Logits (mask_row (size (vocab sampleBERT))
                                        (replicate 22 zero) p))
                      = size (vocab sampleBERT))
       (mask_positions (MASK (specialTokens sampleBERT)) ["hello"; "[MASK]"]).
Proof.
  assert (Hfit : Forall (fun p => (p + 1) * size (vocab sampleBERT)
                                  <= length (replicate 22 zero))
                   (mask_positions (MASK (specialTokens sampleBERT)) ["hello"; "[MASK]"])).
  { vm_compute. repeat constructor. }
  split; [discriminate|].
  split; [reflexivity|].
  split; [exact Hfit|].
  apply (proj1 (proj1 (proj2 (proj2 (MaskLogits_rows sampleBERT ["hello"; "[MASK]"]
                                       (replicate 22 zero))))
                  ltac:(discriminate) eq_refl)).
  exact Hfit.
Defined.

Lemma New_outcome_witness :
  (forall m : gmap string Z, map_to_list m ≡ₚ map_to_list m)
  /\ match New sampleReadFile sampleUnmarshal map_to_list "tokenizer.json" with
     | (Some t, None) =>
         (exists data, sampleReadFile "tokenizer.json" = inl data
                       /\ sampleUnmarshal data = inl (Vocab t))
         /\ Forall (fun token => is_Some (Vocab t !! token))
              ["[CLS]"; "[SEP]"; "[PAD]"; "[UNK]"]
         /\ (forall id tok, IDToToken t !! id = Some tok -> Vocab t !! tok = Some id)
         /\ (forall tok id, Vocab t !! tok = Some id ->
               exists tok', IDToToken t !! id = Some tok' /\ Vocab t !! tok' = Some id)
     | (None, Some msg) =>
         (exists err, sampleReadFile "tokenizer.json" = inr err)
         \/ (exists data err, sampleReadFile "tokenizer.json" = inl data
                              /\ sampleUnmarshal data = inr err)
         \/ (exists data vocab token,
               sampleReadFile "tokenizer.json" = inl data
               /\ sampleUnmarshal data = inl vocab
               /\ token ∈ ["[CLS]"; "[SEP]"; "[PAD]"; "[UNK]"]
               /\ vocab !! token = None)
     | _ => False
     end.
Proof.
  split; [reflexivity|].
  apply (New_outcome sampleReadFile sampleUnmarshal map_to_list "tokenizer.json").
  reflexivity.
Defined.

Example New_scenario :
  fst (New sampleReadFile sampleUnmarshal map_to_list "tokenizer.json") <> None
  /\ New sampleReadFile sampleUnmarshal map_to_list "vocab.json"
     = (None, Some "failed to read tokenizer config: open: no such file or directory").
Proof. split; [vm_compute; discriminate | vm_compute; reflexivity]. Qed.

Lemma New_then_Encode_witness :
  New sampleReadFile sampleUnmarshal map_to_list "tokenizer.json"
  = (Some {| Vocab := sampleVocab; IDToToken := invert (map_to_list sampleVocab) |}, None)
  /\ Encode GoLib.asciiToLower
       {| Vocab := sampleVocab; IDToToken := invert (map_to_list sampleVocab) |}
       "hello there" 5
     = Return ({| InputIds := [2; 5; 1; 3; 0]%Z;
                  AttentionMask := [1; 1; 1; 1; 0]%Z;
                  Tokens := ["[CLS]"; "hello"; "[UNK]"; "[SEP]"; "[PAD]"] |}, None)
  /\ Forall2 (fun id tok => sampleVocab !! tok = Some id)
       [2; 5; 1; 3; 0]%Z ["[CLS]"; "hello"; "[UNK]"; "[SEP]"; "[PAD]"].
Proof.
  split; [vm_compute; reflexivity|].
  split; [vm_compute; reflexivity|].
  apply (New_then_Encode sampleReadFile sampleUnmarshal map_to_list GoLib.asciiToLower
           "tokenizer.json" "hello there" 5
           {| Vocab := sampleVocab; IDToToken := invert (map_to_list sampleVocab) |}
           None None
           {| InputIds := [2; 5; 1; 3; 0]%Z;
              AttentionMask := [1; 1; 1; 1; 0]%Z;
              Tokens := ["[CLS]"; "hello"; "[UNK]"; "[SEP]"; "[PAD]"] |}).
  - vm_compute. reflexivity.
  - vm_compute. reflexivity.
Defined.

Example loadVocabFromEmbed_scenario :
  (forall tok id,
     (tok, id) ∈ [("[PAD]", 0%Z); ("hello", 1%Z); ("world", 2%Z)]
     -> fst (scan_lines GoLib.asciiTrimSpace sampleLines) !! tok = Some id)
  /\ snd (scan_lines GoLib.asciiTrimSpace sampleLines) = 3%Z
  /\ fst (scan_lines GoLib.asciiTrimSpace ["a"; "b"; "a"]) !! "a" = Some 2%Z
  /\ size (fst (scan_lines GoLib.asciiTrimSpace ["a"; "b"; "a"])) = 2.
Proof.
  split; [|repeat split; vm_compute; reflexivity].
  intros tok id Hin. repeat (apply elem_of_cons in Hin as [[= -> ->]|Hin]);
    [vm_compute; reflexivity ..|by apply elem_of_nil in Hin].
Qed.

Lemma loadVocabFromEmbed_ids_witness :
  NoDup (vocab_tokens GoLib.asciiTrimSpace sampleLines)
  /\ exists vocab,
       loadVocabFromEmbed GoLib.asciiTrimSpace (inl sampleLines) None = (Some vocab, None)
       /\ (forall tok id,
             vocab !! tok = Some id
             <-> (0 <= id)%Z
                 /\ vocab_tokens GoLib.asciiTrimSpace sampleLines !! Z.to_nat id = Some tok
                 /\ forall j, Z.to_nat id < j ->
                      vocab_tokens GoLib.asciiTrimSpace sampleLines !! j <> Some tok)
       /\ (forall tok1 tok2 id,
             vocab !! tok1 = Some id -> vocab !! tok2 = Some id -> tok1 = tok2)
       /\ size vocab = length (vocab_tokens GoLib.asciiTrimSpace sampleLines)
       /\ forall tok i,
            vocab_tokens GoLib.asciiTrimSpace sampleLines !! i = Some tok
            <-> vocab !! tok = Some (Z.of_nat i).
Proof.
  assert (Hnd : NoDup (vocab_tokens GoLib.asciiTrimSpace sampleLines)).
  { apply (bool_decide_unpack _). vm_compute. exact I. }
  split; [exact Hnd|].
  destruct (loadVocabFromEmbed_ids GoLib.asciiTrimSpace (inl sampleLines) None)
    as (vocab & Hload & Hids & Hinj & Hsize).
  exists vocab. split; [exact Hload|]. split; [exact Hids|]. split; [exact Hinj|].
  exact (Hsize Hnd).
Defined.

Lemma NewBERTTokenizer_labels_witness :
  (forall m : gmap string Z, map_to_list m ≡ₚ map_to_list m)
  /\ exists t,
       NewBERTTokenizer map_to_list GoLib.asciiTrimSpace (inl sampleLines) None
       = (Some t, None)
       /\ Some (fst (scan_lines GoLib.asciiTrimSpace sampleLines)) = Some (vocab t)
       /\ specialTokens t = DefaultSpecialTokens
       /\ forall id tok, labels t !! id = Some tok <-> vocab t !! tok = Some id.
Proof.
  split; [reflexivity|].
  apply (NewBERTTokenizer_labels map_to_list GoLib.asciiTrimSpace (inl sampleLines) None).
  reflexivity.
Defined.

Lemma Encode_layout_witness :
  (0 <= 3 < Z.of_nat (length (wordpieces GoLib.asciiToLower sampleTokenizer "hello world"))
            + 2)%Z
  /\ exists out,
       Encode GoLib.asciiToLower sampleTokenizer "hello world" 3 = Return (out, None)
       /\ Tokens out
          = take (Z.to_nat 3)
              ("[CLS]" :: (emitted (Vocab sampleTokenizer) "[UNK]"
                             <$> wordpieces GoLib.asciiToLower sampleTokenizer
                                   "hello world")).
Proof.
  assert (Hn : length (wordpieces GoLib.asciiToLower sampleTokenizer "hello world") = 2)
    by (vm_compute; reflexivity).
  split; [rewrite Hn; lia|].
  apply (proj2 (proj1 (Encode_layout GoLib.asciiToLower GoLib.asciiToUpper
                         "hello world" 3) sampleTokenizer)).
  rewrite Hn. lia.
Defined.

Example Encode_truncated :
  Encode GoLib.asciiToLower sampleTokenizer "hello world" 3
  = Return ({| InputIds := [2; 5; 6]%Z;
               AttentionMask := [1; 1; 1]%Z;
               Tokens := ["[CLS]"; "hello"; "world"] |}, None).
Proof. vm_compute. reflexivity. Qed.
End MoreInstances.
